(** * npm-package-mcp-server: a shallow embedding of [src/server.ts]

    Part I embeds the data model and the operations of [NpmPackageServer]
    as executable Rocq definitions; Parts II and III state and prove the
    properties of those definitions, Part III those of whole tool calls.

    JavaScript strings are sequences of UTF-16 code units, so a string is a
    list of [N]; JavaScript numbers are binary64 floating-point values.  The
    Node.js [path] functions are the POSIX ones (the server is packaged for a
    Linux container). *)

From Stdlib Require Import List NArith ZArith Bool Lia String Ascii.
From Stdlib Require Import Sorting.Sorted Sorting.Permutation.
From Stdlib Require Import DecimalString.
From Stdlib Require Import Floats.
Import ListNotations.

Set Implicit Arguments.

(* ################################################################# *)
(** * Part I: the embedding *)

(* ================================================================= *)
(** ** JavaScript strings *)

Module Js.

Definition jsstr := list N.

(** A string literal of the source, as code units. *)
Definition lit (s : string) : jsstr := map N_of_ascii (list_ascii_of_string s).
Arguments lit s%_string.

Fixpoint eqb (a b : jsstr) : bool :=
  match a, b with
  | [], [] => true
  | x :: a', y :: b' => N.eqb x y && eqb a' b'
  | _, _ => false
  end.

(** [s.startsWith(p)] *)
Fixpoint startsWith (s p : jsstr) : bool :=
  match p, s with
  | [], _ => true
  | y :: p', x :: s' => N.eqb x y && startsWith s' p'
  | _ :: _, [] => false
  end.

(** [s.includes(p)] *)
Fixpoint includes (s p : jsstr) : bool :=
  startsWith s p ||
  match s with
  | [] => false
  | _ :: s' => includes s' p
  end.

(** [arr.includes(x)] on an array of strings. *)
Definition arrIncludes (arr : list jsstr) (x : jsstr) : bool :=
  existsb (eqb x) arr.

(** The code units [String.prototype.trim] removes: WhiteSpace and
    LineTerminator of ECMA-262. *)
Definition isWhiteSpace (c : N) : bool :=
  ((9 <=? c) && (c <=? 13) || (c =? 32) || (c =? 160) || (c =? 5760)
   || (8192 <=? c) && (c <=? 8202) || (c =? 8232) || (c =? 8233)
   || (c =? 8239) || (c =? 8287) || (c =? 12288) || (c =? 65279))%N.

Fixpoint trimStart (s : jsstr) : jsstr :=
  match s with
  | c :: s' => if isWhiteSpace c then trimStart s' else s
  | [] => []
  end.

Definition trim (s : jsstr) : jsstr := rev (trimStart (rev (trimStart s))).

(** [toLowerCase] restricted to what the server's comparisons can observe:
    the 26 ASCII capitals are mapped, every other code unit is kept.  (The
    Unicode mapping sends no code unit outside A-Z to one of the letters of
    [CODE_EXTENSIONS].) *)
Definition lowerUnit (c : N) : N :=
  if ((65 <=? c) && (c <=? 90))%N then (c + 32)%N else c.

Definition toLowerCase (s : jsstr) : jsstr := map lowerUnit s.

(** [String(n)] for a non-negative integer. *)
Definition ofN (n : N) : jsstr := lit (NilEmpty.string_of_uint (N.to_uint n)).

(** [String(z)] for an integer. *)
Definition ofZ (z : Z) : jsstr :=
  match z with
  | Zneg p => 45%N :: ofN (Npos p)
  | _ => ofN (Z.to_N z)
  end.

(** JavaScript truthiness of a string. *)
Definition truthy (s : jsstr) : bool :=
  match s with [] => false | _ => true end.

End Js.

Import Js.

(* ================================================================= *)
(** ** JavaScript numbers *)

Module JsNumber.

Local Open Scope Z_scope.

(** A JavaScript number: an IEEE 754 binary64 value. *)
Definition number : Set := float.
Bind Scope float_scope with number.

(** [x > y] *)
Definition gtb (x y : number) : bool := PrimFloat.ltb y x.

(** The two sides of a comparison of the decimal [s * 10^p] with the binary
    [X * 2^E], cleared of denominators. *)
Definition decSide (s p E : Z) : Z := s * 10 ^ Z.max p 0 * 2 ^ Z.max (- E) 0.
Definition binSide (X p E : Z) : Z := X * 2 ^ Z.max E 0 * 10 ^ Z.max (- p) 0.

(** Whether the decimal [s * 10^p] rounds (to nearest, ties to even) to the
    binary64 value [m * 2^e], given by its canonical mantissa and exponent:
    it lies between the midpoints to the two neighbours, the midpoints
    themselves counting when [m] is even. *)
Definition roundsTo (m e s p : Z) : bool :=
  let E := e - 2 in
  let below := if (m =? 2 ^ 52) && (-1074 <? e) then 1 else 2 in
  let d := decSide s p E in
  let lo := binSide (4 * m - below) p E in
  let hi := binSide (4 * m + 2) p E in
  if Z.even m then (lo <=? d) && (d <=? hi) else (lo <? d) && (d <? hi).

(** [floor (m * 2^e / 10^p)] *)
Definition floorQuot (m e p : Z) : Z :=
  (m * 2 ^ Z.max e 0 * 10 ^ Z.max (- p) 0)
  / (2 ^ Z.max (- e) 0 * 10 ^ Z.max p 0).

(** Whether [m * 2^e < 10^n]. *)
Definition below10 (m e n : Z) : bool := binSide m n e <? decSide 1 n e.

Fixpoint firstAbove (fuel : nat) (m e n : Z) : Z :=
  match fuel with
  | O => n
  | S fuel' => if below10 m e n then n else firstAbove fuel' m e (n + 1)
  end.

(** The [n] with [10^(n-1) <= m * 2^e < 10^n]: the search starts two
    below the estimate [log2 (m * 2^e) * log10 2], taken with
    [1233 / 4096] for [log10 2]. *)
Definition magnitude (m e : Z) : Z :=
  firstAbove 8 m e ((e + Z.log2 m) * 1233 / 4096 - 2).

(** The shortest decimal [s * 10^p] that rounds to [m * 2^e], and among
    the shortest the closest: digit counts [k], [k+1], ... are tried in
    turn. *)
Fixpoint shortest (fuel : nat) (k m e n0 : Z) : Z * Z :=
  let p := n0 - k in
  let lo := floorQuot m e p in
  let hi := lo + 1 in
  match fuel with
  | O => (lo, p)
  | S fuel' =>
      let E := e - 2 in
      let v := binSide (4 * m) p E in
      let dlo := v - decSide lo p E in
      let dhi := decSide hi p E - v in
      let hiCloser := (dhi <? dlo) || ((dhi =? dlo) && Z.even hi) in
      match roundsTo m e lo p, roundsTo m e hi p with
      | true, true => if hiCloser then (hi, p) else (lo, p)
      | true, false => (lo, p)
      | false, true => (hi, p)
      | false, false => shortest fuel' (k + 1) m e n0
      end
  end.

Fixpoint stripZeros (fuel : nat) (s p : Z) : Z * Z :=
  match fuel with
  | O => (s, p)
  | S fuel' =>
      if (0 <? s) && (s mod 10 =? 0) then stripZeros fuel' (s / 10) (p + 1)
      else (s, p)
  end.

Definition zeros (n : Z) : jsstr := repeat 48%N (Z.to_nat n).

(** Steps 5 to 10 of [Number::toString] for the positive finite value
    [m * 2^e]. *)
Definition finiteToString (m e : Z) : jsstr :=
  let '(s, p) := shortest 17 1 m e (magnitude m e) in
  let '(s, p) := stripZeros 20 s p in
  let digits := ofN (Z.to_N s) in
  let k := Z.of_nat (List.length digits) in
  let n := p + k in
  if (k <=? n) && (n <=? 21) then digits ++ zeros (n - k)
  else if (0 <? n) && (n <=? 21) then
    firstn (Z.to_nat n) digits ++ lit "." ++ skipn (Z.to_nat n) digits
  else if (-6 <? n) && (n <=? 0) then lit "0." ++ zeros (- n) ++ digits
  else
    let x := n - 1 in
    let sign := if x <? 0 then lit "-" else lit "+" in
    let mantissa :=
      match digits with
      | [d] => [d]
      | d :: rest => d :: lit "." ++ rest
      | [] => []
      end in
    mantissa ++ lit "e" ++ sign ++ ofN (Z.abs_N x).

(** [Number::toString(x, 10)], the string a template literal interpolates. *)
Definition toString (x : number) : jsstr :=
  match Prim2SF x with
  | S754_nan => lit "NaN"
  | S754_zero _ => lit "0"
  | S754_infinity s => (if s then lit "-" else []) ++ lit "Infinity"
  | S754_finite s m e =>
      (if s then lit "-" else []) ++ finiteToString (Z.pos m) e
  end.

End JsNumber.

Bind Scope float_scope with JsNumber.number.

(* ================================================================= *)
(** ** Node's [path] module (POSIX) *)

Module Path.

Definition SLASH : N := 47.
Definition DOT : N := 46.
Definition BACKSLASH : N := 92.

Definition dotdot : jsstr := [DOT; DOT].

(** [s.split('/')]: the segments between separators; never empty. *)
Fixpoint split (s : jsstr) : list jsstr :=
  match s with
  | [] => [ [] ]
  | c :: s' =>
      if N.eqb c SLASH then [] :: split s'
      else match split s' with
           | h :: t => (c :: h) :: t
           | [] => [ [c] ]
           end
  end.

(** [segs.join('/')] *)
Fixpoint joinSlash (segs : list jsstr) : jsstr :=
  match segs with
  | [] => []
  | [s] => s
  | s :: rest => s ++ SLASH :: joinSlash rest
  end.

(** One separator-delimited segment of [normalizeString].  The result built
    so far is kept as a stack of segments, last segment first.  Empty and
    ["."] segments are dropped; [".."] removes the last segment unless there
    is none or it is [".."] itself, in which case it is kept only when
    [allowAboveRoot]. *)
Definition normStep (allowAboveRoot : bool) (res : list jsstr) (seg : jsstr)
  : list jsstr :=
  match seg with
  | [] => res
  | _ =>
      if eqb seg [DOT] then res
      else if eqb seg dotdot then
        match res with
        | top :: below =>
            if eqb top dotdot
            then (if allowAboveRoot then dotdot :: res else res)
            else below
        | [] => if allowAboveRoot then [dotdot] else []
        end
      else seg :: res
  end.

Definition normSegs (allowAboveRoot : bool) (res : list jsstr)
  (segs : list jsstr) : list jsstr :=
  fold_left (normStep allowAboveRoot) segs res.

Definition normalizeString (p : jsstr) (allowAboveRoot : bool) : jsstr :=
  joinSlash (rev (normSegs allowAboveRoot [] (split p))).

Definition isAbsolute (p : jsstr) : bool :=
  match p with
  | c :: _ => N.eqb c SLASH
  | [] => false
  end.

Definition endsWithSlash (p : jsstr) : bool :=
  match rev p with
  | c :: _ => N.eqb c SLASH
  | [] => false
  end.

(** [path.normalize] *)
Definition normalize (p : jsstr) : jsstr :=
  match p with
  | [] => [DOT]
  | _ =>
      let abs := isAbsolute p in
      let trailing := endsWithSlash p in
      match normalizeString p (negb abs) with
      | [] => if abs then [SLASH] else if trailing then [DOT; SLASH] else [DOT]
      | q =>
          let q' := if trailing then q ++ [SLASH] else q in
          if abs then SLASH :: q' else q'
      end
  end.

(** [path.join(a, b)] *)
Definition join (a b : jsstr) : jsstr :=
  match a, b with
  | [], [] => [DOT]
  | [], _ => normalize b
  | _, [] => normalize a
  | _, _ => normalize (a ++ SLASH :: b)
  end.

(** The segments of [path.resolve(p)] under the working directory [cwd]. *)
Definition resolvedSegs (cwd p : jsstr) : list jsstr :=
  let joined :=
    match p with
    | [] => cwd ++ [SLASH]
    | _ => if isAbsolute p then p ++ [SLASH]
           else cwd ++ SLASH :: p ++ [SLASH]
    end in
  rev (normSegs (negb (isAbsolute joined)) [] (split joined)).

(** [path.resolve(p)]; [process.cwd()] is [cwd]. *)
Definition resolve (cwd p : jsstr) : jsstr :=
  let abs := match p with [] => isAbsolute cwd
                        | _ => isAbsolute p || isAbsolute cwd end in
  let r := joinSlash (resolvedSegs cwd p) in
  if abs then SLASH :: r
  else match r with [] => [DOT] | _ => r end.

(** The longest common prefix of two segment lists removed from both. *)
Fixpoint dropCommon (f t : list jsstr) : list jsstr * list jsstr :=
  match f, t with
  | x :: f', y :: t' => if eqb x y then dropCommon f' t' else (f, t)
  | _, _ => (f, t)
  end.

(** [path.relative(from, to)]: one [".."] for each remaining segment of
    [from], then the remaining segments of [to]. *)
Definition relative (cwd from to : jsstr) : jsstr :=
  if eqb from to then []
  else
    let '(f, t) := dropCommon (resolvedSegs cwd from) (resolvedSegs cwd to) in
    joinSlash (repeat dotdot (List.length f) ++ t).

(** [path.extname]: from the last ['.'] of the last segment, unless that dot
    is the segment's first character or there is none. *)
Fixpoint lastDotSuffix (s : jsstr) : option jsstr :=
  match s with
  | [] => None
  | c :: s' =>
      match lastDotSuffix s' with
      | Some e => Some e
      | None => if N.eqb c DOT then Some s else None
      end
  end.

Definition basenameOf (p : jsstr) : jsstr :=
  match filter (fun s => negb (eqb s [])) (split p) with
  | [] => []
  | segs => last segs []
  end.

Definition extname (p : jsstr) : jsstr :=
  match basenameOf p with
  | [] => []
  | c :: rest =>
      match lastDotSuffix rest with
      | Some e => if eqb (c :: rest) dotdot then [] else e
      | None => []
      end
  end.

End Path.

(* ================================================================= *)
(** ** Regular expressions

    The anchored patterns of the source are written as regular-expression
    terms over code-unit classes and matched with derivatives. *)

Module Regex.

Inductive re : Type :=
| Void
| Eps
| Cls (p : N -> bool)
| Seq (a b : re)
| Alt (a b : re)
| Star (a : re).

(** [(r)?] *)
Definition Opt (r : re) : re := Alt r Eps.

Fixpoint nullable (r : re) : bool :=
  match r with
  | Void => false
  | Eps => true
  | Cls _ => false
  | Seq a b => nullable a && nullable b
  | Alt a b => nullable a || nullable b
  | Star _ => true
  end.

Fixpoint deriv (c : N) (r : re) : re :=
  match r with
  | Void => Void
  | Eps => Void
  | Cls p => if p c then Eps else Void
  | Seq a b =>
      if nullable a then Alt (Seq (deriv c a) b) (deriv c b)
      else Seq (deriv c a) b
  | Alt a b => Alt (deriv c a) (deriv c b)
  | Star a => Seq (deriv c a) (Star a)
  end.

(** [/^r$/.test(s)] *)
Fixpoint test (r : re) (s : jsstr) : bool :=
  match s with
  | [] => nullable r
  | c :: s' => test (deriv c r) s'
  end.

Definition isChar (x : N) (c : N) : bool := N.eqb c x.

(** [a-z0-9] under the [i] flag: without the [u] flag a code unit above 127
    never canonicalizes to an ASCII letter, so exactly the ASCII letters of
    both cases and the digits match. *)
Definition alnumCI (c : N) : bool :=
  ((97 <=? c) && (c <=? 122) || (65 <=? c) && (c <=? 90)
   || (48 <=? c) && (c <=? 57))%N.

(** [[a-z0-9-~]] with flag [i]. *)
Definition nameStart (c : N) : bool :=
  alnumCI c || N.eqb c 45 || N.eqb c 126.

(** [[a-z0-9-._~]] with flag [i]. *)
Definition nameRest (c : N) : bool :=
  alnumCI c || N.eqb c 45 || N.eqb c 46 || N.eqb c 95 || N.eqb c 126.

(** [/^(@[a-z0-9-~][a-z0-9-._~]*\/)?[a-z0-9-~][a-z0-9-._~]*$/i] *)
Definition PACKAGE_NAME_RE : re :=
  Seq (Opt (Seq (Cls (isChar 64))
             (Seq (Cls nameStart) (Seq (Star (Cls nameRest)) (Cls (isChar 47))))))
      (Seq (Cls nameStart) (Star (Cls nameRest))).

End Regex.

(* ================================================================= *)
(** ** Errors, results and effects *)

Inductive ErrorCode := InvalidParams | InternalError.

(** The JSON-RPC numbers of the SDK's [ErrorCode] enum. *)
Definition errorNumber (c : ErrorCode) : Z :=
  match c with
  | InvalidParams => -32602
  | InternalError => -32603
  end.

(** What the server throws: the SDK's [McpError] or a plain [Error]. *)
Inductive exn :=
| McpError (code : ErrorCode) (message : jsstr)
| Error (message : jsstr).

(** [error.message]; the SDK's [McpError] constructor prefixes the text it
    is given with ["MCP error <number>: "]. *)
Definition messageOf (e : exn) : jsstr :=
  match e with
  | McpError c m => lit "MCP error " ++ ofZ (errorNumber c) ++ lit ": " ++ m
  | Error m => m
  end.

Inductive result (A : Type) :=
| Ok (a : A)
| Throw (e : exn).
Arguments Ok {A} a.
Arguments Throw {A} e.

(** The calls that leave the process and are logged: the file-system
    calls, by path, and the HTTPS requests, by URL.  A call is logged when it
    is made, whether it returns or throws. *)
Inductive Event :=
| FsExists (p : jsstr)
| FsStat (p : jsstr)
| FsReadFile (p : jsstr)
| FsReaddir (p : jsstr)
| FsRm (p : jsstr)
| FsMkdir (p : jsstr)
| HttpGet (url : jsstr).

(** A computation that logs its events and returns or throws. *)
Definition io (A : Type) : Type := (list Event * result A)%type.

Definition ret {A} (a : A) : io A := ([], Ok a).
Definition throw {A} (e : exn) : io A := ([], Throw e).
Definition emit (ev : Event) : io unit := ([ev], Ok tt).
Definition emitAll (evs : list Event) : io unit := (evs, Ok tt).

Definition bind {A B} (m : io A) (k : A -> io B) : io B :=
  match m with
  | (t, Ok a) => let '(t', r) := k a in (t ++ t', r)
  | (t, Throw e) => (t, Throw e)
  end.

(** [try { m } catch (error) { h error }] *)
Definition tryCatch {A} (m : io A) (h : exn -> io A) : io A :=
  match m with
  | (t, Ok a) => (t, Ok a)
  | (t, Throw e) => let '(t', r) := h e in (t ++ t', r)
  end.

Definition liftResult {A} (r : result A) : io A := ([], r).

Notation "x <- m ;; k" := (bind m (fun x => k))
  (at level 61, m at next level, right associativity).
Notation "m ;;; k" := (bind m (fun _ => k))
  (at level 61, right associativity).

Definition trace {A} (m : io A) : list Event := fst m.
Definition outcome {A} (m : io A) : result A := snd m.

(** The path of a file-system call. *)
Definition pathOf (ev : Event) : option jsstr :=
  match ev with
  | FsExists p | FsStat p | FsReadFile p | FsReaddir p | FsRm p | FsMkdir p =>
      Some p
  | HttpGet _ => None
  end.

(* ================================================================= *)
(** ** [encodeURIComponent] *)

Module Uri.

Definition hexDigit (d : N) : N :=
  if (d <? 10)%N then (48 + d)%N else (55 + d)%N.

(** ["%XX"] for one byte. *)
Definition percent (b : N) : jsstr :=
  [37%N; hexDigit (b / 16); hexDigit (b mod 16)].

(** The UTF-8 bytes of a code point. *)
Definition utf8 (cp : N) : list N :=
  (if cp <? 128 then [cp]
   else if cp <? 2048 then [192 + cp / 64; 128 + cp mod 64]
   else if cp <? 65536 then
     [224 + cp / 4096; 128 + (cp / 64) mod 64; 128 + cp mod 64]
   else [240 + cp / 262144; 128 + (cp / 4096) mod 64;
         128 + (cp / 64) mod 64; 128 + cp mod 64])%N.

(** The characters [encodeURIComponent] keeps: [A-Z a-z 0-9 - _ . ! ~ * ' ( )]. *)
Definition unreserved (c : N) : bool :=
  Regex.alnumCI c
  || existsb (N.eqb c) [45; 95; 46; 33; 126; 42; 39; 40; 41]%N.

Definition isHighSurrogate (c : N) : bool := ((55296 <=? c) && (c <=? 56319))%N.
Definition isLowSurrogate (c : N) : bool := ((56320 <=? c) && (c <=? 57343))%N.

(** [encodeURIComponent(s)]; [None] is the [URIError] thrown for a lone
    surrogate. *)
Fixpoint encodeURIComponent (s : jsstr) : option jsstr :=
  match s with
  | [] => Some []
  | c :: rest =>
      if unreserved c then option_map (cons c) (encodeURIComponent rest)
      else if isLowSurrogate c then None
      else if isHighSurrogate c then
        match rest with
        | d :: rest' =>
            if isLowSurrogate d then
              let cp := ((c - 55296) * 1024 + (d - 56320) + 65536)%N in
              option_map (app (flat_map percent (utf8 cp)))
                         (encodeURIComponent rest')
            else None
        | [] => None
        end
      else option_map (app (flat_map percent (utf8 c)))
                      (encodeURIComponent rest)
  end.

End Uri.

(* ================================================================= *)
(** ** The file system

    The disk is a finite tree.  A file or a directory may be unreadable
    ([readFileSync], [readdirSync] throw), an entry may be neither file nor
    directory, and [statSync] may throw on an entry (a dangling link). *)

Inductive node :=
| File (readable : bool) (content : jsstr)
| Dir (readable : bool) (entries : list (jsstr * node))
| Special
| Dangling.

Fixpoint assocNode (name : jsstr) (es : list (jsstr * node)) : option node :=
  match es with
  | [] => None
  | (n, c) :: es' => if eqb name n then Some c else assocNode name es'
  end.

Fixpoint lookupSegs (n : node) (segs : list jsstr) : option node :=
  match segs with
  | [] => Some n
  | s :: rest =>
      match n with
      | Dir _ es =>
          match assocNode s es with
          | Some c => lookupSegs c rest
          | None => None
          end
      | _ => None
      end
  end.

Module Fs.

(** The node a path names, from the root of the disk. *)
Definition lookup (cwd : jsstr) (disk : node) (p : jsstr) : option node :=
  lookupSegs disk (Path.resolvedSegs cwd p).

(** [fs.existsSync] *)
Definition existsSync (cwd : jsstr) (disk : node) (p : jsstr) : bool :=
  match lookup cwd disk p with
  | Some Dangling | None => false
  | Some _ => true
  end.

Inductive Stats := StatFile | StatDirectory | StatOther.

Definition isFile (s : Stats) : bool :=
  match s with StatFile => true | _ => false end.
Definition isDirectory (s : Stats) : bool :=
  match s with StatDirectory => true | _ => false end.

(** The message of the error a failed system call throws:
    [<code>: <description>, <syscall> '<path>']. *)
Definition sysError (description syscall p : jsstr) : exn :=
  Error (description ++ lit ", " ++ syscall ++ lit " '" ++ p ++ lit "'").

(** [fs.statSync] *)
Definition statSync (cwd : jsstr) (disk : node) (p : jsstr) : result Stats :=
  match lookup cwd disk p with
  | Some (File _ _) => Ok StatFile
  | Some (Dir _ _) => Ok StatDirectory
  | Some Special => Ok StatOther
  | Some Dangling | None =>
      Throw (sysError (lit "ENOENT: no such file or directory") (lit "stat") p)
  end.

(** [fs.readFileSync(p, 'utf8')] *)
Definition readFileSync (cwd : jsstr) (disk : node) (p : jsstr)
  : result jsstr :=
  match lookup cwd disk p with
  | Some (File true content) => Ok content
  | Some (File false _) =>
      Throw (sysError (lit "EACCES: permission denied") (lit "open") p)
  | Some (Dir _ _) =>
      Throw (Error (lit "EISDIR: illegal operation on a directory, read"))
  | _ =>
      Throw (sysError (lit "ENOENT: no such file or directory") (lit "open") p)
  end.

End Fs.

(* ================================================================= *)
(** ** Types and constants of the server *)

Record Dist := { tarball : jsstr; shasum : jsstr }.

Record PackageInfo := {
  pi_name : jsstr;
  pi_version : jsstr;
  pi_dist : option Dist;
  pi_description : option jsstr
}.

(** [SearchResult]; the numeric scores of the registry are only printed. *)
Record SearchResult := {
  sr_name : jsstr;
  sr_version : jsstr;
  sr_description : option jsstr;
  sr_keywords : option (list jsstr);
  sr_author : option jsstr;
  sr_date : jsstr;
  sr_npm : jsstr;
  sr_homepage : option jsstr;
  sr_repository : option jsstr
}.

(** [SearchResponse]; [sp_objects] holds [objects[i].package]. *)
Record SearchResponse := {
  sp_objects : list SearchResult;
  sp_total : Z
}.

Record CodeFile := { cf_path : jsstr; cf_content : jsstr }.

(** [ToolResult]: the texts of the [content] array. *)
Record ToolResult := { content : list jsstr }.

Record ResourceResult := {
  rr_uri : jsstr;
  rr_mimeType : jsstr;
  rr_text : jsstr
}.

Record GetPackageCodeArgs := {
  gc_packageName : option jsstr;
  gc_version : option jsstr;
  gc_filePath : option jsstr
}.

Record ListPackageFilesArgs := {
  lf_packageName : option jsstr;
  lf_version : option jsstr
}.

Record SearchPackagesArgs := {
  sa_query : option jsstr;
  sa_size : option JsNumber.number;
  sa_from : option JsNumber.number
}.

Definition CODE_EXTENSIONS : list jsstr :=
  [lit ".js"; lit ".ts"; lit ".jsx"; lit ".tsx"; lit ".mjs"; lit ".cjs";
   lit ".json"].

Definition SKIP_DIRECTORIES : list jsstr :=
  [lit ".git"; lit ".svn"; lit ".hg"; lit "node_modules"; lit ".DS_Store";
   lit "__pycache__"].

(** 24 hours, in milliseconds. *)
Definition CACHE_DURATION : Z := 24 * 60 * 60 * 1000.

Definition MAX_CODE_FILES : nat := 20.

Definition NL : jsstr := [10%N].

(** JavaScript truthiness of an optional string. *)
Definition truthyOpt (s : option jsstr) : bool :=
  match s with
  | Some s' => truthy s'
  | None => false
  end.

(* ================================================================= *)
(** ** Input validation *)

(** [s.replace(/^(\.\.[\/\\])+/, '')]: the longest run of leading ["../"]
    or ["..\"] groups removed. *)
Fixpoint stripLeadingDotDots (s : jsstr) : jsstr :=
  match s with
  | a :: b :: c :: rest =>
      if N.eqb a Path.DOT && N.eqb b Path.DOT
         && (N.eqb c Path.SLASH || N.eqb c Path.BACKSLASH)
      then stripLeadingDotDots rest
      else s
  | _ => s
  end.

Definition validateAndResolvePath (cwd basePath userPath : jsstr)
  : result jsstr :=
  let normalizedPath := stripLeadingDotDots (Path.normalize userPath) in
  let fullPath := Path.join basePath normalizedPath in
  let resolvedPath := Path.resolve cwd fullPath in
  let resolvedBasePath := Path.resolve cwd basePath in
  if negb (startsWith resolvedPath resolvedBasePath) then
    Throw (McpError InvalidParams
             (lit "Access denied: Path traversal attempt detected"))
  else Ok resolvedPath.

Definition validatePackageName (packageName : jsstr) : result unit :=
  if negb (Regex.test Regex.PACKAGE_NAME_RE packageName) then
    Throw (McpError InvalidParams
      (lit "Invalid package name format. Package names must follow npm naming conventions."))
  else if includes packageName (lit "..") || includes packageName [0%N]
          || includes packageName [10%N] then
    Throw (McpError InvalidParams
      (lit "Invalid package name: contains prohibited characters"))
  else Ok tt.

(** [packageName.replace(/[@\/]/g, '_')] *)
Definition sanitizeName (packageName : jsstr) : jsstr :=
  map (fun c => if N.eqb c 64 || N.eqb c 47 then 95%N else c) packageName.

(* ================================================================= *)
(** ** Walking the extracted tree *)

Definition isCodeFile (fileName : jsstr) : bool :=
  arrIncludes CODE_EXTENSIONS (toLowerCase (Path.extname fileName)).

Definition shouldSkipDirectory (dirName : jsstr) : bool :=
  startsWith dirName [Path.DOT] || arrIncludes SKIP_DIRECTORIES dirName.

(** One iteration of the loop of [findCodeFiles]'s [walk]: the entry [item]
    of [currentDir] is the node [n]. *)
Fixpoint visitCode (currentDir item : jsstr) (n : node) {struct n}
  : list CodeFile :=
  let fullPath := Path.join currentDir item in
  match n with
  | Dangling => []
  | Special => []
  | Dir readable es =>
      if negb (shouldSkipDirectory item) then
        if readable then
          (fix walk (es : list (jsstr * node)) : list CodeFile :=
             match es with
             | [] => []
             | (i, c) :: es' => visitCode fullPath i c ++ walk es'
             end) es
        else []
      else []
  | File readable fileContent =>
      if isCodeFile item then
        if readable then [ {| cf_path := fullPath; cf_content := fileContent |} ]
        else []
      else []
  end.

Definition walkCode (currentDir : jsstr) (es : list (jsstr * node))
  : list CodeFile :=
  flat_map (fun e => visitCode currentDir (fst e) (snd e)) es.

Definition findCodeFiles (cwd : jsstr) (disk : node) (dir : jsstr)
  : list CodeFile :=
  match Fs.lookup cwd disk dir with
  | Some (Dir true es) => walkCode dir es
  | _ => []
  end.

(** One iteration of the loop of [getAllFiles]'s [walk]. *)
Fixpoint visitAll (currentDir item : jsstr) (n : node) {struct n}
  : list jsstr :=
  let fullPath := Path.join currentDir item in
  match n with
  | Dangling => []
  | Special => []
  | Dir readable es =>
      if negb (startsWith item [Path.DOT]) then
        if readable then
          (fix walk (es : list (jsstr * node)) : list jsstr :=
             match es with
             | [] => []
             | (i, c) :: es' => visitAll fullPath i c ++ walk es'
             end) es
        else []
      else []
  | File _ _ => [fullPath]
  end.

Definition walkAll (currentDir : jsstr) (es : list (jsstr * node))
  : list jsstr :=
  flat_map (fun e => visitAll currentDir (fst e) (snd e)) es.

Definition getAllFiles (cwd : jsstr) (disk : node) (dir : jsstr)
  : list jsstr :=
  match Fs.lookup cwd disk dir with
  | Some (Dir true es) => walkAll dir es
  | _ => []
  end.

(** The file-system calls of one iteration of the loop of a [walk]:
    [statSync] on the entry; on a directory that is not skipped,
    [readdirSync] and, when it returns, the iterations for its entries; on a
    regular file that is to be read, [readFileSync]. *)
Fixpoint visitCalls (skip reads : jsstr -> bool) (currentDir item : jsstr)
  (n : node) {struct n} : list Event :=
  let fullPath := Path.join currentDir item in
  FsStat fullPath ::
  match n with
  | Dangling => []
  | Special => []
  | Dir readable es =>
      if negb (skip item) then
        FsReaddir fullPath ::
        (if readable then
           (fix walk (es : list (jsstr * node)) : list Event :=
              match es with
              | [] => []
              | (i, c) :: es' =>
                  visitCalls skip reads fullPath i c ++ walk es'
              end) es
         else [])
      else []
  | File _ _ => if reads item then [FsReadFile fullPath] else []
  end.

Definition walkCalls (skip reads : jsstr -> bool) (currentDir : jsstr)
  (es : list (jsstr * node)) : list Event :=
  flat_map (fun e => visitCalls skip reads currentDir (fst e) (snd e)) es.

(** The calls of [walk(dir)]: [readdirSync(dir)] and, when it returns, the
    iterations for the entries. *)
Definition walkFrom (skip reads : jsstr -> bool) (cwd : jsstr) (disk : node)
  (dir : jsstr) : list Event :=
  FsReaddir dir ::
  match Fs.lookup cwd disk dir with
  | Some (Dir true es) => walkCalls skip reads dir es
  | _ => []
  end.

(** The file-system calls of [findCodeFiles(dir)]. *)
Definition findCodeFilesCalls (cwd : jsstr) (disk : node) (dir : jsstr)
  : list Event :=
  walkFrom shouldSkipDirectory isCodeFile cwd disk dir.

(** The file-system calls of [getAllFiles(dir)], which reads no file. *)
Definition getAllFilesCalls (cwd : jsstr) (disk : node) (dir : jsstr)
  : list Event :=
  walkFrom (fun item => startsWith item [Path.DOT]) (fun _ => false)
    cwd disk dir.

(** The order of [Array.prototype.sort] without a comparator: code units,
    lexicographically. *)
Fixpoint strLeb (a b : jsstr) : bool :=
  match a, b with
  | [], _ => true
  | _ :: _, [] => false
  | x :: a', y :: b' => (x <? y)%N || (N.eqb x y && strLeb a' b')
  end.

Fixpoint insertSorted (x : jsstr) (l : list jsstr) : list jsstr :=
  match l with
  | [] => [x]
  | y :: l' => if strLeb x y then x :: l else y :: insertSorted x l'
  end.

(** [arr.sort()] on an array of strings. *)
Definition sortStrings (l : list jsstr) : list jsstr :=
  fold_right insertSorted [] l.

(** [arr.join(sep)] *)
Fixpoint joinWith (sep : jsstr) (l : list jsstr) : jsstr :=
  match l with
  | [] => []
  | [s] => s
  | s :: rest => s ++ sep ++ joinWith sep rest
  end.

(* ================================================================= *)
(** ** The world outside the process

    What the registry answers, what a download leaves on the disk, and the
    library routines whose results the server only prints. *)

Inductive HttpReply :=
| Body (data : jsstr)
| RequestFailed (message : jsstr)
| RequestTimeout.

Inductive DownloadReply :=
| Extracted (disk : node)
| BadStatus (statusCode : Z)
| ExtractionFailed (message : jsstr)
| DecompressionFailed (message : jsstr)
| DownloadFailed (message : jsstr)
| DownloadTimeout.

Record World := {
  (** [process.cwd()] *)
  cwd : jsstr;
  (** [__dirname] *)
  dirname : jsstr;
  (** the registry's answer to [https.get(url)] *)
  registry : jsstr -> HttpReply;
  (** [JSON.parse(data) as PackageInfo]; a throw is the [SyntaxError] *)
  parsePackageInfo : jsstr -> result PackageInfo;
  (** [JSON.parse(data) as SearchResponse] *)
  parseSearchResponse : jsstr -> result SearchResponse;
  (** the disk before a download *)
  diskBefore : node;
  (** [fs.rmSync(dir, { recursive: true })] *)
  rmSync : jsstr -> result unit;
  (** [fs.mkdirSync(dir, { recursive: true })] *)
  mkdirSync : jsstr -> result unit;
  (** fetching [tarballUrl] and extracting it into the directory *)
  download : jsstr -> jsstr -> DownloadReply;
  (** lines 262-292 of [searchNpmPackages]: the text for a query, an offset
      and the results; a throw is a [TypeError] on an ill-shaped answer *)
  formatSearchResults :
    jsstr -> JsNumber.number -> SearchResponse -> result jsstr;
  (** [new Date().toISOString()] *)
  isoNow : jsstr;
  (** lines 334-362 of [getPopularPackages]: the collected packages sorted
      and printed *)
  formatPopular : list SearchResult -> result jsstr
}.

(* ================================================================= *)
(** ** Registry access *)

(** The URL of the registry's search endpoint. *)
Definition searchUrl (encodedQuery : jsstr) (size from : JsNumber.number)
  : jsstr :=
  lit "https://registry.npmjs.org/-/v1/search?text="
  ++ encodedQuery ++ lit "&size=" ++ JsNumber.toString size
  ++ lit "&from=" ++ JsNumber.toString from
  ++ lit "&quality=0.65&popularity=0.98&maintenance=0.5".

Definition performPackageSearch (w : World) (query : jsstr)
  (size from : JsNumber.number) : io SearchResponse :=
  match Uri.encodeURIComponent query with
  | None => throw (Error (lit "URI malformed"))
  | Some encodedQuery =>
      let url := searchUrl encodedQuery size from in
      emit (HttpGet url) ;;;
      match registry w url with
      | Body data =>
          match parseSearchResponse w data with
          | Ok searchResults => ret searchResults
          | Throw error =>
              throw (Error (lit "Invalid JSON response: " ++ messageOf error))
          end
      | RequestFailed m => throw (Error (lit "HTTP request failed: " ++ m))
      | RequestTimeout => throw (Error (lit "Search request timeout"))
      end
  end.

Definition packageUrl (packageName : jsstr) (version : option jsstr)
  : option jsstr :=
  match Uri.encodeURIComponent packageName with
  | None => None
  | Some n =>
      if truthyOpt version then
        match Uri.encodeURIComponent (match version with Some v => v | None => [] end) with
        | None => None
        | Some v => Some (lit "https://registry.npmjs.org/" ++ n ++ lit "/" ++ v)
        end
      else Some (lit "https://registry.npmjs.org/" ++ n ++ lit "/latest")
  end.

Definition fetchPackageInfo (w : World) (packageName : jsstr)
  (version : option jsstr) : io PackageInfo :=
  match packageUrl packageName version with
  | None => throw (Error (lit "URI malformed"))
  | Some url =>
      emit (HttpGet url) ;;;
      match registry w url with
      | Body data =>
          match parsePackageInfo w data with
          | Ok packageInfo =>
              match pi_dist packageInfo with
              | Some d =>
                  if truthy (tarball d) then ret packageInfo
                  else throw (Error (lit "Invalid package info: missing tarball URL"))
              | None =>
                  throw (Error (lit "Invalid package info: missing tarball URL"))
              end
          | Throw error =>
              throw (Error (lit "Invalid JSON response: " ++ messageOf error))
          end
      | RequestFailed m => throw (Error (lit "HTTP request failed: " ++ m))
      | RequestTimeout => throw (Error (lit "Request timeout"))
      end
  end.

(** [this.tempDir] *)
Definition tempDir (w : World) : jsstr := Path.join (dirname w) (lit "temp").

(** The directory [downloadAndExtract] extracts a package into. *)
Definition extractPathOf (tempDir packageName : jsstr) : jsstr :=
  let sanitizedName := sanitizeName packageName in
  Path.join tempDir sanitizedName.

(** [downloadAndExtract]: the extraction directory and the disk the
    extraction leaves. *)
Definition downloadAndExtract (w : World) (tarballUrl packageName : jsstr)
  : io (jsstr * node) :=
  let extractPath := extractPathOf (tempDir w) packageName in
  emit (FsExists extractPath) ;;;
  (if Fs.existsSync (cwd w) (diskBefore w) extractPath
   then emit (FsRm extractPath) ;;; liftResult (rmSync w extractPath)
   else ret tt) ;;;
  emit (FsMkdir extractPath) ;;;
  liftResult (mkdirSync w extractPath) ;;;
  emit (HttpGet tarballUrl) ;;;
  match download w tarballUrl extractPath with
  | Extracted disk => ret (extractPath, disk)
  | BadStatus code =>
      throw (Error (lit "HTTP " ++ ofZ code ++ lit ": Failed to download tarball"))
  | ExtractionFailed m => throw (Error (lit "Extraction failed: " ++ m))
  | DecompressionFailed m => throw (Error (lit "Decompression failed: " ++ m))
  | DownloadFailed m => throw (Error (lit "Download failed: " ++ m))
  | DownloadTimeout => throw (Error (lit "Download timeout"))
  end.

(* ================================================================= *)
(** ** The tools *)

Definition getSpecificFile (cwd : jsstr) (disk : node)
  (extractedPath filePath : jsstr) : io ToolResult :=
  fullFilePath <-
    tryCatch (liftResult (validateAndResolvePath cwd extractedPath filePath))
      (fun error =>
         throw (McpError InvalidParams
                  (lit "Invalid file path: " ++ messageOf error))) ;;
  emit (FsExists fullFilePath) ;;;
  if negb (Fs.existsSync cwd disk fullFilePath) then
    throw (Error (lit "File not found: " ++ filePath))
  else
    emit (FsStat fullFilePath) ;;;
    stats <- liftResult (Fs.statSync cwd disk fullFilePath) ;;
    if negb (Fs.isFile stats) then
      throw (Error (lit "Path is not a file: " ++ filePath))
    else
      tryCatch
        (emit (FsReadFile fullFilePath) ;;;
         fileContent <- liftResult (Fs.readFileSync cwd disk fullFilePath) ;;
         ret {| content := [lit "File: " ++ filePath ++ NL ++ NL ++ fileContent] |})
        (fun error =>
           throw (Error (lit "Failed to read file " ++ filePath ++ lit ": "
                         ++ messageOf error))).

Definition descriptionOr (d : option jsstr) (dflt : jsstr) : jsstr :=
  if truthyOpt d then match d with Some s => s | None => dflt end else dflt.

(** The text [getAllCodeFiles] builds from the files [findCodeFiles] found. *)
Definition bundleText (cwd extractedPath : jsstr) (packageInfo : PackageInfo)
  (codeFiles : list CodeFile) : jsstr :=
  let allContent :=
    lit "Package: " ++ pi_name packageInfo ++ lit "@" ++ pi_version packageInfo ++ NL in
  let allContent :=
    allContent ++ lit "Description: "
    ++ descriptionOr (pi_description packageInfo) (lit "No description") ++ NL in
  let allContent :=
    allContent ++ lit "Code files found: " ++ ofN (N.of_nat (List.length codeFiles))
    ++ NL ++ NL in
  let filesToShow := firstn MAX_CODE_FILES codeFiles in
  let allContent :=
    fold_left
      (fun acc file =>
         let relativePath := Path.relative cwd extractedPath (cf_path file) in
         let acc := acc ++ lit "=== " ++ relativePath ++ lit " ===" ++ NL in
         acc ++ cf_content file ++ NL ++ NL)
      filesToShow allContent in
  if (MAX_CODE_FILES <? List.length codeFiles)%nat then
    let allContent :=
      allContent ++ lit "... and "
      ++ ofN (N.of_nat (List.length codeFiles - MAX_CODE_FILES))
      ++ lit " more files" ++ NL in
    allContent
    ++ lit "Use 'list_package_files' tool to see all files, then fetch specific files as needed."
    ++ NL
  else allContent.

Definition getAllCodeFiles (cwd : jsstr) (disk : node) (extractedPath : jsstr)
  (packageInfo : PackageInfo) : io ToolResult :=
  emitAll (findCodeFilesCalls cwd disk extractedPath) ;;;
  let codeFiles := findCodeFiles cwd disk extractedPath in
  ret {| content := [bundleText cwd extractedPath packageInfo codeFiles] |}.

Definition tarballOf (packageInfo : PackageInfo) : jsstr :=
  match pi_dist packageInfo with
  | Some d => tarball d
  | None => []
  end.

Definition getNpmPackageCode (w : World) (args : GetPackageCodeArgs)
  : io ToolResult :=
  match gc_packageName args with
  | None | Some [] =>
      throw (McpError InvalidParams
               (lit "packageName is required and must be a string"))
  | Some packageName =>
      liftResult (validatePackageName packageName) ;;;
      tryCatch
        (packageInfo <- fetchPackageInfo w packageName (gc_version args) ;;
         let tarballUrl := tarballOf packageInfo in
         extracted <- downloadAndExtract w tarballUrl packageName ;;
         let extractedPath := fst extracted in
         let disk := snd extracted in
         if truthyOpt (gc_filePath args) then
           getSpecificFile (cwd w) disk extractedPath
             (match gc_filePath args with Some p => p | None => [] end)
         else getAllCodeFiles (cwd w) disk extractedPath packageInfo)
        (fun error =>
           throw (McpError InternalError
                    (lit "Failed to fetch package code: " ++ messageOf error)))
  end.

(** The sorted relative listing of [listPackageFiles]. *)
Definition fileListOf (cwd : jsstr) (disk : node) (extractedPath : jsstr)
  : list jsstr :=
  let allFiles := getAllFiles cwd disk extractedPath in
  sortStrings (map (fun filePath => Path.relative cwd extractedPath filePath)
                   allFiles).

Definition listingText (packageName : jsstr) (packageInfo : PackageInfo)
  (fileList : list jsstr) : jsstr :=
  lit "Package: " ++ packageName ++ lit "@" ++ pi_version packageInfo ++ NL
  ++ lit "Total files: " ++ ofN (N.of_nat (List.length fileList)) ++ NL ++ NL
  ++ lit "Files:" ++ NL ++ joinWith NL fileList.

Definition listPackageFiles (w : World) (args : ListPackageFilesArgs)
  : io ToolResult :=
  match lf_packageName args with
  | None | Some [] =>
      throw (McpError InvalidParams
               (lit "packageName is required and must be a string"))
  | Some packageName =>
      liftResult (validatePackageName packageName) ;;;
      tryCatch
        (packageInfo <- fetchPackageInfo w packageName (lf_version args) ;;
         let tarballUrl := tarballOf packageInfo in
         extracted <- downloadAndExtract w tarballUrl packageName ;;
         let extractedPath := fst extracted in
         let disk := snd extracted in
         emitAll (getAllFilesCalls (cwd w) disk extractedPath) ;;;
         let fileList := fileListOf (cwd w) disk extractedPath in
         ret {| content := [listingText packageName packageInfo fileList] |})
        (fun error =>
           throw (McpError InternalError
                    (lit "Failed to list package files: " ++ messageOf error)))
  end.

(** [author]: a string or an object with a name. *)
Inductive Author :=
| AuthorName (name : jsstr)
| AuthorObject (name : jsstr) (email : option jsstr).

(** The fields of the parsed registry answer that only [getPackageInfo]
    reads; [pd_repositoryUrl] is [repository?.url]. *)
Record PackageDetails := {
  pd_main : option jsstr;
  pd_types : option jsstr;
  pd_keywords : option (list jsstr);
  pd_author : option Author;
  pd_license : option jsstr;
  pd_homepage : option jsstr;
  pd_repositoryUrl : option jsstr;
  pd_dependencies : option (list (jsstr * jsstr));
  pd_devDependencies : option (list (jsstr * jsstr))
}.

(** The [info] object of [getPackageInfo]. *)
Record InfoSummary := {
  is_name : jsstr;
  is_version : jsstr;
  is_description : jsstr;
  is_main : jsstr;
  is_types : jsstr;
  is_keywords : list jsstr;
  is_author : Author;
  is_license : jsstr;
  is_homepage : jsstr;
  is_repository : jsstr;
  is_tarball : jsstr;
  is_shasum : jsstr;
  is_dependencies : nat;
  is_devDependencies : nat
}.

Definition shasumOf (packageInfo : PackageInfo) : jsstr :=
  match pi_dist packageInfo with
  | Some d => shasum d
  | None => []
  end.

(** [author || 'Not specified']: an object is truthy, a string when it is
    not empty. *)
Definition authorOr (a : option Author) : Author :=
  match a with
  | Some (AuthorName []) | None => AuthorName (lit "Not specified")
  | Some a' => a'
  end.

(** [Object.keys(deps || {}).length] *)
Definition countKeys (deps : option (list (jsstr * jsstr))) : nat :=
  match deps with
  | Some d => List.length d
  | None => 0
  end.

(** Lines 496-511 of [getPackageInfo]. *)
Definition summarize (packageInfo : PackageInfo) (d : PackageDetails)
  : InfoSummary :=
  {| is_name := pi_name packageInfo;
     is_version := pi_version packageInfo;
     is_description :=
       descriptionOr (pi_description packageInfo) (lit "No description available");
     is_main := descriptionOr (pd_main d) (lit "Not specified");
     is_types := descriptionOr (pd_types d) (lit "Not specified");
     is_keywords := match pd_keywords d with Some k => k | None => [] end;
     is_author := authorOr (pd_author d);
     is_license := descriptionOr (pd_license d) (lit "Not specified");
     is_homepage := descriptionOr (pd_homepage d) (lit "Not specified");
     is_repository := descriptionOr (pd_repositoryUrl d) (lit "Not specified");
     is_tarball := tarballOf packageInfo;
     is_shasum := shasumOf packageInfo;
     is_dependencies := countKeys (pd_dependencies d);
     is_devDependencies := countKeys (pd_devDependencies d) |}.

(** [getPackageInfo]; [details] gives the remaining fields of the parsed
    answer and [stringify] is [JSON.stringify(info, null, 2)]. *)
Definition getPackageInfo (w : World) (details : PackageInfo -> PackageDetails)
  (stringify : InfoSummary -> jsstr) (args : ListPackageFilesArgs)
  : io ToolResult :=
  match lf_packageName args with
  | None | Some [] =>
      throw (McpError InvalidParams
               (lit "packageName is required and must be a string"))
  | Some packageName =>
      liftResult (validatePackageName packageName) ;;;
      tryCatch
        (packageInfo <- fetchPackageInfo w packageName (lf_version args) ;;
         let info := summarize packageInfo (details packageInfo) in
         ret {| content := [lit "Package Information:" ++ NL ++ stringify info] |})
        (fun error =>
           throw (McpError InternalError
                    (lit "Failed to get package info: " ++ messageOf error)))
  end.

Definition searchNpmPackages (w : World) (args : SearchPackagesArgs)
  : io ToolResult :=
  let query := sa_query args in
  let size := match sa_size args with Some s => s | None => 20%float end in
  let from := match sa_from args with Some f => f | None => 0%float end in
  match query with
  | None =>
      throw (McpError InvalidParams
               (lit "query is required and must be a non-empty string"))
  | Some q =>
      if negb (truthy (trim q)) then
        throw (McpError InvalidParams
                 (lit "query is required and must be a non-empty string"))
      else if JsNumber.gtb size 250 then
        throw (McpError InvalidParams (lit "size cannot exceed 250"))
      else
        tryCatch
          (searchResults <- performPackageSearch w (trim q) size from ;;
           resultText <- liftResult (formatSearchResults w q from searchResults) ;;
           ret {| content := [resultText] |})
          (fun error =>
             throw (McpError InternalError
                      (lit "Failed to search packages: " ++ messageOf error)))
  end.

(* ================================================================= *)
(** ** The popular-packages resource and its cache *)

(** The two private fields of [NpmPackageServer] the resource mutates. *)
Record ServerState := {
  popularPackagesCache : option jsstr;
  popularPackagesCacheTime : Z
}.

Definition initialState : ServerState :=
  {| popularPackagesCache := None; popularPackagesCacheTime := 0 |}.

Definition popularQueries : list jsstr :=
  [lit "react"; lit "lodash"; lit "express"; lit "typescript"; lit "webpack"].

(** The inner loop over [results.objects]: the names seen so far and the
    packages kept, in order. *)
Definition addResults (seen : list jsstr * list SearchResult)
  (objs : list SearchResult) : list jsstr * list SearchResult :=
  fold_left
    (fun acc pkg =>
       if arrIncludes (fst acc) (sr_name pkg) then acc
       else (sr_name pkg :: fst acc, snd acc ++ [pkg]))
    objs seen.

(** The loop over [popularQueries]; a failed search is logged and skipped. *)
Fixpoint collectPopular (w : World) (terms : list jsstr)
  (seen : list jsstr * list SearchResult)
  : io (list jsstr * list SearchResult) :=
  match terms with
  | [] => ret seen
  | searchTerm :: rest =>
      seen' <-
        tryCatch
          (results <- performPackageSearch w searchTerm 10 0 ;;
           ret (addResults seen (sp_objects results)))
          (fun _ => ret seen) ;;
      collectPopular w rest seen'
  end.

(** ["# 🔥 Most Popular NPM Packages\n\n"] *)
Definition popularHeader : jsstr :=
  lit "# " ++ [55357%N; 56613%N] ++ lit " Most Popular NPM Packages" ++ NL ++ NL.

Definition popularResource (text : jsstr) : ResourceResult :=
  {| rr_uri := lit "npm://popular-packages";
     rr_mimeType := lit "text/plain";
     rr_text := text |}.

(** The body of the [try] block of [getPopularPackages] up to the text of
    the summary, with the [catch] that rethrows. *)
Definition fetchPopular (w : World) : io jsstr :=
  tryCatch
    (seen <- collectPopular w popularQueries ([], []) ;;
     let resultText :=
       popularHeader ++ lit "Updated: " ++ isoNow w ++ NL ++ NL in
     body <- liftResult (formatPopular w (snd seen)) ;;
     ret (resultText ++ body))
    (fun error =>
       throw (McpError InternalError
                (lit "Failed to fetch popular packages: "
                 ++ messageOf error))).

(** Whether the cached summary is served: it is set and younger than
    [CACHE_DURATION]. *)
Definition cacheFresh (now : Z) (st : ServerState) : bool :=
  truthyOpt (popularPackagesCache st)
  && (now - popularPackagesCacheTime st <? CACHE_DURATION)%Z.

(** [getPopularPackages] at [Date.now() = now] in state [st]: what the read
    logs and returns, and the state it leaves. *)
Definition getPopularPackages (w : World) (now : Z) (st : ServerState)
  : io ResourceResult * ServerState :=
  if cacheFresh now st
  then
    (ret (popularResource
            (match popularPackagesCache st with Some c => c | None => [] end)),
     st)
  else
    match fetchPopular w with
    | (t, Ok resultText) =>
        ((t, Ok (popularResource resultText)),
         {| popularPackagesCache := Some resultText;
            popularPackagesCacheTime := now |})
    | (t, Throw e) => ((t, Throw e), st)
    end.

(** A sequence of reads at the given times, one after the other. *)
Fixpoint readAll (w : World) (times : list Z) (st : ServerState)
  : list (io ResourceResult) * ServerState :=
  match times with
  | [] => ([], st)
  | now :: rest =>
      let '(r, st') := getPopularPackages w now st in
      let '(rs, st'') := readAll w rest st' in
      (r :: rs, st'')
  end.

(* ================================================================= *)
(** ** The HTTP listener *)

Record IncomingMessage := {
  method : jsstr;
  url : option jsstr;
  authorization : option jsstr
}.

(** [process.env.AUTH_TOKEN || null] *)
Definition authTokenOfEnv (v : option jsstr) : option jsstr :=
  if truthyOpt v then v else None.

Definition isAuthValid (authToken : option jsstr) (authHeader : option jsstr)
  : bool :=
  if negb (truthyOpt authToken) then true
  else if negb (truthyOpt authHeader) then false
  else
    let h := match authHeader with Some h => h | None => [] end in
    let token := if startsWith h (lit "Bearer ") then skipn 7 h else h in
    match authToken with
    | Some t => eqb token t
    | None => false
    end.

(** The branch of the request listener that answers. *)
Inductive Branch :=
| Preflight
| Unauthorized
| Health
| McpEndpoint
| NotFound.

Definition dispatch (authToken : option jsstr) (req : IncomingMessage)
  : Branch :=
  if eqb (method req) (lit "OPTIONS") then Preflight
  else if truthyOpt authToken && negb (isAuthValid authToken (authorization req))
  then Unauthorized
  else if match url req with Some u => eqb u (lit "/health") | None => false end
  then Health
  else if match url req with Some u => startsWith u (lit "/mcp") | None => false end
  then McpEndpoint
  else NotFound.

(** The status the listener itself writes; the protocol endpoint's response
    is written by the transport. *)
Definition statusOf (b : Branch) : option N :=
  match b with
  | Preflight => Some 200%N
  | Unauthorized => Some 401%N
  | Health => Some 200%N
  | McpEndpoint => None
  | NotFound => Some 404%N
  end.

(** Whether a branch is one of the routes behind the check. *)
Definition isRoute (b : Branch) : bool :=
  match b with
  | Health | McpEndpoint | NotFound => true
  | Preflight | Unauthorized => false
  end.

(* ################################################################# *)
(** * Part II: properties *)

(** A world in which the registry does not answer. *)
Definition silentWorld : World :=
  {| cwd := lit "/app";
     dirname := lit "/app/build";
     registry := fun _ => RequestTimeout;
     parsePackageInfo := fun _ => Throw (Error (lit "Unexpected end of JSON input"));
     parseSearchResponse := fun _ => Throw (Error (lit "Unexpected end of JSON input"));
     diskBefore := Dir true [];
     rmSync := fun _ => Ok tt;
     mkdirSync := fun _ => Ok tt;
     download := fun _ _ => DownloadTimeout;
     formatSearchResults := fun _ _ _ => Ok [];
     isoNow := lit "2025-01-01T00:00:00.000Z";
     formatPopular := fun _ => Ok [] |}.

Definition sampleInfo : PackageInfo :=
  {| pi_name := lit "lodash";
     pi_version := lit "4.17.21";
     pi_dist :=
       Some {| tarball := lit "https://registry.npmjs.org/lodash/-/lodash-4.17.21.tgz";
               shasum := lit "679591c564c3bffaae8454cf0b3df370c3d6911c" |};
     pi_description := Some (lit "Lodash modular utilities.") |}.

(** The extracted package of the sample world. *)
Definition samplePackage : list (jsstr * node) :=
  [ (lit "package.json", File true (lit "{}"));
    (lit "index.js", File true (lit "module.exports = 1;"));
    (lit "README.md", File true (lit "# lodash"));
    (lit ".github", Dir true [ (lit "ci.yml", File true (lit "on: push")) ]);
    (lit "lib", Dir true [ (lit "a.TS", File true (lit "export {}"));
                           (lit "secret.js", File false (lit "x"));
                           (lit ".json", File true (lit "{}")) ]);
    (lit "node_modules", Dir true [ (lit "dep.js", File true (lit "0")) ]) ].

Definition sampleDisk : node :=
  Dir true
    [ (lit "app",
       Dir true
         [ (lit "build",
            Dir true
              [ (lit "temp",
                 Dir true [ (lit "lodash", Dir true samplePackage) ]) ]) ]) ].

(** A world in which the registry answers and the download succeeds. *)
Definition servingWorld : World :=
  {| cwd := lit "/app";
     dirname := lit "/app/build";
     registry := fun _ => Body (lit "{}");
     parsePackageInfo := fun _ => Ok sampleInfo;
     parseSearchResponse := fun _ => Ok {| sp_objects := []; sp_total := 0 |};
     diskBefore := Dir true [];
     rmSync := fun _ => Ok tt;
     mkdirSync := fun _ => Ok tt;
     download := fun _ _ => Extracted sampleDisk;
     formatSearchResults := fun _ _ _ => Ok [];
     isoNow := lit "2025-01-01T00:00:00.000Z";
     formatPopular := fun _ => Ok [] |}.


(* ================================================================= *)
(** ** Effects *)

Lemma tryCatch_rethrow_outcome {A} (m : io A) (code : ErrorCode)
  (f : exn -> jsstr) :
  outcome (tryCatch m (fun e => throw (McpError code (f e))))
  = match outcome m with
    | Ok a => Ok a
    | Throw e => Throw (McpError code (f e))
    end.
Proof. destruct m as [t [a|e]]; reflexivity. Qed.

Lemma tryCatch_rethrow_trace {A} (m : io A) (code : ErrorCode)
  (f : exn -> jsstr) :
  trace (tryCatch m (fun e => throw (McpError code (f e)))) = trace m.
Proof. destruct m as [t [a|e]]; simpl; auto using app_nil_r. Qed.

Lemma bind_trace_pure {A B} (m : io A) (k : A -> io B) :
  (forall a, trace (k a) = []) -> trace (bind m k) = trace m.
Proof.
  intros Hk. destruct m as [t [a|e]]; simpl; [|reflexivity].
  specialize (Hk a). destruct (k a) as [t' r]. simpl in *. subst.
  apply app_nil_r.
Qed.

Lemma bind_pure_outcome {A B} (a : A) (k : A -> io B) :
  outcome (bind ([], Ok a) k) = outcome (k a).
Proof. unfold bind. destruct (k a); reflexivity. Qed.

Lemma bind_nil_ok {A B} (a : A) (k : A -> io B) : bind ([], Ok a) k = k a.
Proof. unfold bind. destruct (k a); reflexivity. Qed.

Lemma bind_ok_trace {A B} (t : list Event) (a : A) (k : A -> io B) :
  trace (bind (t, Ok a) k) = t ++ trace (k a).
Proof. unfold bind. destruct (k a); reflexivity. Qed.

Lemma bind_ok_outcome {A B} (t : list Event) (a : A) (k : A -> io B) :
  outcome (bind (t, Ok a) k) = outcome (k a).
Proof. unfold bind. destruct (k a); reflexivity. Qed.

Lemma bind_trace_In {A B} (m : io A) (k : A -> io B) (ev : Event) :
  In ev (trace (bind m k)) ->
  In ev (trace m) \/ exists a, outcome m = Ok a /\ In ev (trace (k a)).
Proof.
  destruct m as [t [a|e]]; simpl.
  - destruct (k a) as [t' r] eqn:Ek. simpl. intros H.
    apply in_app_iff in H as [H|H]; [left; exact H|].
    right. exists a. rewrite Ek. auto.
  - auto.
Qed.

Lemma bind_ok {A B} (t : list Event) (a : A) (k : A -> io B) :
  bind (t, Ok a) k = (t ++ trace (k a), outcome (k a)).
Proof. unfold bind. destruct (k a); reflexivity. Qed.

Lemma tryCatch_rethrow {A} (m : io A) (code : ErrorCode) (f : exn -> jsstr) :
  tryCatch m (fun e => throw (McpError code (f e)))
  = (trace m,
     match outcome m with
     | Ok a => Ok a
     | Throw e => Throw (McpError code (f e))
     end).
Proof. destruct m as [t [a|e]]; simpl; rewrite ?app_nil_r; reflexivity. Qed.

(* ================================================================= *)
(** ** Strings *)

Lemma eqb_eq (a b : jsstr) : eqb a b = true <-> a = b.
Proof.
  revert b; induction a as [|x a IH]; intros [|y b]; simpl;
    try (split; [discriminate | discriminate]); try tauto.
  rewrite andb_true_iff, N.eqb_eq, IH.
  split; [intros [-> ->]; reflexivity | intros H; inversion H; auto].
Qed.

Lemma eqb_refl (a : jsstr) : eqb a a = true.
Proof. apply eqb_eq; reflexivity. Qed.

Lemma eqb_neq (a b : jsstr) : eqb a b = false <-> a <> b.
Proof.
  rewrite <- eqb_eq. destruct (eqb a b); split; congruence.
Qed.

Lemma startsWith_spec (s p : jsstr) :
  startsWith s p = true <-> exists r, s = p ++ r.
Proof.
  revert s; induction p as [|y p IH]; intros s; simpl.
  - split; [intros _; exists s; reflexivity | intros _; destruct s; reflexivity].
  - destruct s as [|x s].
    + simpl. split; [discriminate | intros [r H]; discriminate].
    + simpl. rewrite andb_true_iff, N.eqb_eq, IH. split.
      * intros [-> [r ->]]. exists r; reflexivity.
      * intros [r H]. inversion H; subst. split; [reflexivity | eauto].
Qed.

Lemma includes_spec (s p : jsstr) :
  includes s p = true <-> exists a b, s = a ++ p ++ b.
Proof.
  induction s as [|x s IH].
  - cbn [includes]. rewrite orb_false_r, startsWith_spec. split.
    + intros [r H]. exists [], r. exact H.
    + intros [a [b H]]. destruct a; [eauto | discriminate].
  - cbn [includes]. rewrite orb_true_iff, startsWith_spec, IH. split.
    + intros [[r H] | [a [b H]]].
      * exists [], r. exact H.
      * exists (x :: a), b. rewrite H. reflexivity.
    + intros [[|y a] [b H]].
      * left. exists b. exact H.
      * right. inversion H; subst. eauto.
Qed.

(* ================================================================= *)
(** ** Regular expressions: the language of a term *)

Module RegexFacts.
Import Regex.

Inductive matches : re -> jsstr -> Prop :=
| MEps : matches Eps []
| MCls p c : p c = true -> matches (Cls p) [c]
| MSeq a b s t : matches a s -> matches b t -> matches (Seq a b) (s ++ t)
| MAltL a b s : matches a s -> matches (Alt a b) s
| MAltR a b s : matches b s -> matches (Alt a b) s
| MStarNil a : matches (Star a) []
| MStarApp a s t :
    matches a s -> matches (Star a) t -> matches (Star a) (s ++ t).

#[local] Hint Constructors matches : core.

Lemma matches_eps_inv (s : jsstr) : matches Eps s -> s = [].
Proof. intros H; inversion H; reflexivity. Qed.

Lemma matches_cls_inv (p : N -> bool) (s : jsstr) :
  matches (Cls p) s -> exists c, s = [c] /\ p c = true.
Proof. intros H; inversion H; subst; eauto. Qed.

Lemma matches_seq_inv (a b : re) (w : jsstr) :
  matches (Seq a b) w ->
  exists s t, w = s ++ t /\ matches a s /\ matches b t.
Proof. intros H; inversion H; subst; eauto. Qed.

Lemma matches_alt_inv (a b : re) (w : jsstr) :
  matches (Alt a b) w -> matches a w \/ matches b w.
Proof. intros H; inversion H; subst; auto. Qed.

Lemma nullable_matches (r : re) : nullable r = true <-> matches r [].
Proof.
  induction r; simpl.
  - split; [discriminate | intros H; inversion H].
  - split; auto.
  - split; [discriminate | intros H; inversion H].
  - rewrite andb_true_iff, IHr1, IHr2. split.
    + intros [H1 H2]. change (@nil N) with (@nil N ++ []). auto.
    + intros H. apply matches_seq_inv in H as [s [t [E [Hs Ht]]]].
      symmetry in E. apply app_eq_nil in E as [-> ->]. auto.
  - rewrite orb_true_iff, IHr1, IHr2. split.
    + intros [H|H]; auto.
    + apply matches_alt_inv.
  - split; auto.
Qed.

(** A non-empty word of [Star a] starts with a non-empty word of [a]. *)
Lemma star_cons (a : re) (w : jsstr) :
  matches (Star a) w ->
  forall c s, w = c :: s ->
  exists s1 s2, s = s1 ++ s2 /\ matches a (c :: s1) /\ matches (Star a) s2.
Proof.
  intros H. remember (Star a) as r eqn:Er.
  induction H as [| | | | | |a' u t Hu _ Ht IHt]; try discriminate;
    intros c s Ew.
  inversion Er; subst a'. destruct u as [|x u]; simpl in Ew.
  - apply IHt; auto.
  - inversion Ew; subst. exists u, t. auto.
Qed.

Lemma seq_cons (a b : re) (c : N) (s : jsstr) :
  matches (Seq a b) (c :: s) ->
  (exists u t, s = u ++ t /\ matches a (c :: u) /\ matches b t)
  \/ (matches a [] /\ matches b (c :: s)).
Proof.
  intros H. apply matches_seq_inv in H as [u [t [E [Hu Ht]]]].
  destruct u as [|x u]; simpl in E.
  - subst t. right. auto.
  - inversion E; subst. left. eauto.
Qed.

Lemma deriv_matches (r : re) :
  forall c s, matches (deriv c r) s <-> matches r (c :: s).
Proof.
  induction r as [| |p|a IHa b IHb|a IHa b IHb|a IHa]; intros c s; simpl.
  - split; intros H; inversion H.
  - split; intros H; inversion H.
  - destruct (p c) eqn:Ep; split; intros H.
    + apply matches_eps_inv in H. subst. auto.
    + apply matches_cls_inv in H as [d [E Hd]]. inversion E; subst. auto.
    + inversion H.
    + apply matches_cls_inv in H as [d [E Hd]]. inversion E; subst. congruence.
  - assert (Hseq : matches (Seq (deriv c a) b) s -> matches (Seq a b) (c :: s)).
    { intros H. apply matches_seq_inv in H as [u [t [-> [Hu Ht]]]].
      apply IHa in Hu. change (c :: u ++ t) with ((c :: u) ++ t). auto. }
    assert (Hback : matches (Seq a b) (c :: s) ->
                    matches (Seq (deriv c a) b) s
                    \/ (matches a [] /\ matches (deriv c b) s)).
    { intros H. apply seq_cons in H as [[u [t [-> [Hu Ht]]]] | [Ha Hb]].
      - left. apply IHa in Hu. auto.
      - right. split; [assumption | apply IHb; assumption]. }
    destruct (nullable a) eqn:Na.
    + split.
      * intros H. apply matches_alt_inv in H as [H | H]; auto.
        apply nullable_matches in Na. apply IHb in H.
        change (c :: s) with ([] ++ c :: s). auto.
      * intros H. destruct (Hback H) as [H1 | [_ H2]]; auto.
    + split; auto.
      intros H. destruct (Hback H) as [H1 | [H1 _]]; auto.
      apply nullable_matches in H1. congruence.
  - split; intros H; apply matches_alt_inv in H as [H | H].
    + apply MAltL, IHa; assumption.
    + apply MAltR, IHb; assumption.
    + apply MAltL, IHa; assumption.
    + apply MAltR, IHb; assumption.
  - split.
    + intros H. apply matches_seq_inv in H as [u [t [-> [Hu Ht]]]].
      apply IHa in Hu. change (c :: u ++ t) with ((c :: u) ++ t). auto.
    + intros H. destruct (star_cons H eq_refl) as [s1 [s2 [-> [H1 H2]]]].
      apply IHa in H1. auto.
Qed.

(** The matcher decides the language. *)
Lemma test_matches (s : jsstr) : forall r, test r s = true <-> matches r s.
Proof.
  induction s as [|c s IH]; intros r; simpl.
  - apply nullable_matches.
  - rewrite IH. apply deriv_matches.
Qed.

(** The code units some class of the term accepts. *)
Fixpoint accepts (r : re) (c : N) : bool :=
  match r with
  | Void | Eps => false
  | Cls p => p c
  | Seq a b | Alt a b => accepts a c || accepts b c
  | Star a => accepts a c
  end.

Lemma matches_accepts (r : re) (s : jsstr) :
  matches r s -> Forall (fun c => accepts r c = true) s.
Proof.
  induction 1; simpl; auto.
  - apply Forall_app; split; eapply Forall_impl; eauto; simpl; intros;
      rewrite H1; auto using orb_true_r.
  - eapply Forall_impl; eauto; simpl; intros; rewrite H0; auto.
  - eapply Forall_impl; eauto; simpl; intros; rewrite H0; auto using orb_true_r.
  - apply Forall_app; split; auto.
Qed.

(** The shape of a package name: an optional scope, then a name. *)
Lemma package_name_shape (s : jsstr) :
  matches PACKAGE_NAME_RE s ->
  exists scope c rest,
    s = scope ++ c :: rest /\ nameStart c = true
    /\ (scope = [] \/ exists scope', scope = 64%N :: scope').
Proof.
  unfold PACKAGE_NAME_RE, Opt. intros H.
  apply matches_seq_inv in H as [scope [t [-> [Hscope Ht]]]].
  apply matches_seq_inv in Ht as [u [v [-> [Hu Hv]]]].
  apply matches_cls_inv in Hu as [c [-> Hc]].
  exists scope, c, v. split; [reflexivity | split; [assumption|]].
  apply matches_alt_inv in Hscope as [Hw | Hw].
  - apply matches_seq_inv in Hw as [x [y [-> [Hx Hy]]]].
    apply matches_cls_inv in Hx as [d [-> Hd]]. unfold isChar in Hd.
    apply N.eqb_eq in Hd. subst d. right. eexists; reflexivity.
  - apply matches_eps_inv in Hw. left; assumption.
Qed.

End RegexFacts.


(* ================================================================= *)
(** ** Paths: segments *)

(** A string without a separator. *)
Definition noSlash (s : jsstr) : Prop := ~ In Path.SLASH s.

(** A proper name of a directory entry: not empty, not ["."], not [".."],
    no separator. *)
Definition plain (s : jsstr) : Prop :=
  s <> [] /\ s <> [Path.DOT] /\ s <> Path.dotdot /\ noSlash s.

(** The absolute, normalized path with the given segments. *)
Definition absPath (segs : list jsstr) : jsstr :=
  Path.SLASH :: Path.joinSlash segs.

Module PathFacts.
Import Path.

Lemma split_not_nil (s : jsstr) : split s <> [].
Proof.
  destruct s as [|c s]; simpl; [discriminate|].
  destruct (N.eqb c SLASH); [discriminate|].
  destruct (split s); discriminate.
Qed.

Lemma split_cons_other (c : N) (s : jsstr) :
  c <> SLASH ->
  exists h t, split s = h :: t /\ split (c :: s) = (c :: h) :: t.
Proof.
  intros Hc. simpl. apply N.eqb_neq in Hc. rewrite Hc.
  destruct (split s) as [|h t] eqn:E.
  - exfalso. exact (split_not_nil s E).
  - eauto.
Qed.

Lemma split_app_slash (a b : jsstr) :
  split (a ++ SLASH :: b) = split a ++ split b.
Proof.
  induction a as [|c a IH]; simpl.
  - reflexivity.
  - destruct (N.eqb c SLASH).
    + rewrite IH. reflexivity.
    + rewrite IH. destruct (split a) as [|h t] eqn:E.
      * exfalso. exact (split_not_nil a E).
      * reflexivity.
Qed.

Lemma split_noSlash (s : jsstr) : noSlash s -> split s = [s].
Proof.
  unfold noSlash. induction s as [|c s IH]; simpl; intros H; [reflexivity|].
  destruct (N.eqb_spec c SLASH) as [E|E].
  - exfalso. apply H. left. exact E.
  - rewrite IH; [reflexivity|]. intros Hin. apply H. right. exact Hin.
Qed.

Lemma split_all_noSlash (s : jsstr) : Forall noSlash (split s).
Proof.
  induction s as [|c s IH]; simpl.
  - constructor; [intros H; inversion H | constructor].
  - destruct (N.eqb_spec c SLASH) as [E|E].
    + constructor; [intros H; inversion H | exact IH].
    + destruct (split s) as [|h t]; [repeat constructor; intros [H|H]; auto|].
      inversion IH as [|? ? Hh Ht]; subst. constructor; [|exact Ht].
      intros [H|H]; [exact (E H) | exact (Hh H)].
Qed.

Lemma split_joinSlash (segs : list jsstr) :
  Forall noSlash segs -> segs <> [] -> split (joinSlash segs) = segs.
Proof.
  induction segs as [|x segs IH]; intros Hall Hne; [contradiction|].
  inversion Hall as [|? ? Hx Hrest]; subst.
  destruct segs as [|y segs].
  - simpl. apply split_noSlash. exact Hx.
  - change (joinSlash (x :: y :: segs)) with (x ++ SLASH :: joinSlash (y :: segs)).
    rewrite split_app_slash, split_noSlash by exact Hx.
    rewrite IH; [reflexivity | exact Hrest | discriminate].
Qed.

Lemma joinSlash_app_last (segs : list jsstr) (x : jsstr) :
  segs <> [] -> joinSlash (segs ++ [x]) = joinSlash segs ++ SLASH :: x.
Proof.
  induction segs as [|y segs IH]; intros Hne; [contradiction|].
  destruct segs as [|z segs].
  - reflexivity.
  - change (joinSlash ((y :: z :: segs) ++ [x]))
      with (y ++ SLASH :: joinSlash ((z :: segs) ++ [x])).
    rewrite IH by discriminate.
    change (joinSlash (y :: z :: segs)) with (y ++ SLASH :: joinSlash (z :: segs)).
    rewrite <- app_assoc. reflexivity.
Qed.

Lemma plain_noSlash (s : jsstr) : plain s -> noSlash s.
Proof. intros [_ [_ [_ H]]]. exact H. Qed.

Lemma normStep_plain (a : bool) (res : list jsstr) (s : jsstr) :
  plain s -> normStep a res s = s :: res.
Proof.
  intros [H0 [H1 [H2 _]]]. unfold normStep.
  destruct s as [|c s]; [contradiction|].
  apply eqb_neq in H1, H2. rewrite H1, H2. reflexivity.
Qed.

Lemma normSegs_app (a : bool) (res : list jsstr) (xs ys : list jsstr) :
  normSegs a res (xs ++ ys) = normSegs a (normSegs a res xs) ys.
Proof. apply fold_left_app. Qed.

Lemma normSegs_plain (a : bool) (segs : list jsstr) :
  Forall plain segs -> forall res, normSegs a res segs = rev segs ++ res.
Proof.
  induction 1 as [|x segs Hx _ IH]; intros res; [reflexivity|].
  unfold normSegs in *. simpl fold_left.
  rewrite normStep_plain by exact Hx.
  rewrite IH. simpl. rewrite <- app_assoc. reflexivity.
Qed.

Lemma normSegs_split_joinSlash (a : bool) (segs res : list jsstr) :
  Forall plain segs ->
  normSegs a res (split (joinSlash segs)) = rev segs ++ res.
Proof.
  intros H. destruct segs as [|x segs].
  - reflexivity.
  - rewrite split_joinSlash; [apply normSegs_plain; exact H | | discriminate].
    eapply Forall_impl; [|exact H]. apply plain_noSlash.
Qed.

Lemma joinSlash_last_nonempty (segs : list jsstr) (x : jsstr) :
  x <> [] -> joinSlash (segs ++ [x]) <> [].
Proof.
  intros Hx. destruct segs as [|y segs].
  - exact Hx.
  - rewrite joinSlash_app_last by discriminate.
    intros H. apply app_eq_nil in H as [_ H]. discriminate.
Qed.

Lemma endsWithSlash_app (a b : jsstr) :
  b <> [] -> endsWithSlash (a ++ b) = endsWithSlash b.
Proof.
  intros Hb. unfold endsWithSlash. rewrite rev_app_distr.
  destruct (rev b) as [|c r] eqn:E; [|reflexivity].
  exfalso. apply Hb. apply (f_equal (@rev N)) in E.
  rewrite rev_involutive in E. exact E.
Qed.

Lemma endsWithSlash_noSlash (b : jsstr) : noSlash b -> endsWithSlash b = false.
Proof.
  intros Hb. unfold endsWithSlash. destruct (rev b) as [|c r] eqn:E; [reflexivity|].
  apply N.eqb_neq. intros ->. apply Hb. apply in_rev. rewrite E. left; reflexivity.
Qed.

Lemma normalize_absolute (p : jsstr) :
  normalize (SLASH :: p)
  = match normalizeString (SLASH :: p) false with
    | [] => [SLASH]
    | q => SLASH :: (if endsWithSlash (SLASH :: p) then q ++ [SLASH] else q)
    end.
Proof.
  unfold normalize.
  replace (isAbsolute (SLASH :: p)) with true by reflexivity.
  reflexivity.
Qed.

Lemma split_abs (p : jsstr) : split (SLASH :: p) = [] :: split p.
Proof. reflexivity. Qed.

Lemma normSegs_cons_empty (a : bool) (res segs : list jsstr) :
  normSegs a res ([] :: segs) = normSegs a res segs.
Proof. reflexivity. Qed.

Lemma join_nonempty (a b : jsstr) :
  a <> [] -> b <> [] -> join a b = normalize (a ++ SLASH :: b).
Proof.
  intros Ha Hb. destruct a; [contradiction|]. destruct b; [contradiction|].
  reflexivity.
Qed.

(** Joining a normalized absolute directory and an entry name appends the
    name as a segment. *)
Lemma join_abs_plain (segs : list jsstr) (item : jsstr) :
  Forall plain segs -> plain item ->
  join (absPath segs) item = absPath (segs ++ [item]).
Proof.
  intros Hsegs Hplain. pose proof Hplain as [Hne _].
  assert (E1 : normalizeString (absPath segs ++ SLASH :: item) false
               = joinSlash (segs ++ [item])).
  { unfold normalizeString, absPath.
    rewrite split_app_slash, split_abs, normSegs_app, normSegs_cons_empty.
    rewrite normSegs_split_joinSlash by exact Hsegs.
    rewrite split_noSlash by (apply plain_noSlash; exact Hplain).
    rewrite app_nil_r. unfold normSegs. simpl fold_left.
    rewrite normStep_plain by exact Hplain.
    change (item :: rev segs) with (rev [item] ++ rev segs).
    rewrite <- rev_app_distr, rev_involutive. reflexivity. }
  assert (E2 : endsWithSlash (absPath segs ++ SLASH :: item) = false).
  { replace (absPath segs ++ SLASH :: item)
      with ((absPath segs ++ [SLASH]) ++ item)
      by (rewrite <- app_assoc; reflexivity).
    rewrite endsWithSlash_app by exact Hne.
    apply endsWithSlash_noSlash, plain_noSlash. exact Hplain. }
  rewrite join_nonempty by (exact Hne || discriminate).
  change (absPath segs ++ SLASH :: item)
    with (SLASH :: (joinSlash segs ++ SLASH :: item)) at 1.
  rewrite normalize_absolute.
  change (SLASH :: joinSlash segs ++ SLASH :: item)
    with (absPath segs ++ SLASH :: item).
  rewrite E1, E2.
  destruct (joinSlash (segs ++ [item])) eqn:E.
  - exfalso. revert E. apply joinSlash_last_nonempty. exact Hne.
  - unfold absPath. rewrite E. reflexivity.
Qed.

End PathFacts.

(* ================================================================= *)
(** ** Paths: normalization *)

Module NormFacts.
Import Path PathFacts.

(** A segment that [normalizeString] pushes. *)
Definition pushed (s : jsstr) : Prop :=
  s <> [] /\ s <> [DOT] /\ s <> dotdot.

Lemma seg_cases (s : jsstr) :
  s = [] \/ s = [DOT] \/ s = dotdot \/ pushed s.
Proof.
  destruct s as [|c s]; [auto|]. right.
  destruct (eqb (c :: s) [DOT]) eqn:E1; [apply eqb_eq in E1; auto|].
  destruct (eqb (c :: s) dotdot) eqn:E2; [apply eqb_eq in E2; auto|].
  apply eqb_neq in E1, E2. right. right. repeat split; auto. discriminate.
Qed.

Lemma normStep_pushed (a : bool) (res : list jsstr) (s : jsstr) :
  pushed s -> normStep a res s = s :: res.
Proof.
  intros [H0 [H1 H2]]. unfold normStep.
  destruct s as [|c s]; [contradiction|].
  apply eqb_neq in H1, H2. rewrite H1, H2. reflexivity.
Qed.

Lemma normStep_dotdot_cons (a : bool) (top : jsstr) (below : list jsstr) :
  top <> dotdot -> normStep a (top :: below) dotdot = below.
Proof.
  intros H. apply eqb_neq in H. unfold normStep. simpl eqb at 1 2.
  change (eqb dotdot dotdot) with true. cbv iota. rewrite H. reflexivity.
Qed.

Lemma normStep_dotdot_dotdot (a : bool) (below : list jsstr) :
  normStep a (dotdot :: below) dotdot
  = if a then dotdot :: dotdot :: below else dotdot :: below.
Proof. reflexivity. Qed.

Lemma normSegs_snoc (a : bool) (res xs : list jsstr) (x : jsstr) :
  normSegs a res (xs ++ [x]) = normStep a (normSegs a res xs) x.
Proof. rewrite normSegs_app. reflexivity. Qed.

Lemma normSegs_cons (a : bool) (res xs : list jsstr) (x : jsstr) :
  normSegs a res (x :: xs) = normSegs a (normStep a res x) xs.
Proof. reflexivity. Qed.

Lemma pushed_noSlash_plain (s : jsstr) : pushed s -> noSlash s -> plain s.
Proof. intros [H0 [H1 H2]] H. repeat split; assumption. Qed.

(** Without [allowAboveRoot] a stack of proper names stays one. *)
Lemma normStep_false_plain (res : list jsstr) (s : jsstr) :
  noSlash s -> Forall plain res -> Forall plain (normStep false res s).
Proof.
  intros Hs Hres.
  destruct (seg_cases s) as [-> | [-> | [-> | Hp]]]; try exact Hres.
  - destruct res as [|top below]; [constructor|].
    inversion Hres as [|? ? Htop Hbelow]; subst.
    rewrite normStep_dotdot_cons; [exact Hbelow | apply Htop].
  - rewrite normStep_pushed by exact Hp.
    constructor; [apply pushed_noSlash_plain; assumption | exact Hres].
Qed.

Lemma normSegs_false_plain (xs : list jsstr) :
  Forall noSlash xs ->
  forall res, Forall plain res -> Forall plain (normSegs false res xs).
Proof.
  induction 1 as [|x xs Hx _ IH]; intros res Hres; [exact Hres|].
  rewrite normSegs_cons. apply IH. apply normStep_false_plain; assumption.
Qed.

(** With [allowAboveRoot] the stack is proper names on top of a run of
    [".."]. *)
Definition dotsBelow (res : list jsstr) : Prop :=
  exists names k, res = names ++ repeat dotdot k /\ Forall plain names.

Lemma normStep_true_dotsBelow (res : list jsstr) (s : jsstr) :
  noSlash s -> dotsBelow res -> dotsBelow (normStep true res s).
Proof.
  intros Hs [names [k [-> Hnames]]].
  destruct (seg_cases s) as [-> | [-> | [-> | Hp]]].
  - exists names, k. auto.
  - exists names, k. auto.
  - destruct names as [|top below].
    + exists [], (S k). split; [|constructor].
      destruct k; reflexivity.
    + inversion Hnames as [|? ? Htop Hbelow]; subst.
      exists below, k. split; [|exact Hbelow].
      apply normStep_dotdot_cons. apply Htop.
  - exists (s :: names), k. rewrite normStep_pushed by exact Hp.
    split; [reflexivity|].
    constructor; [apply pushed_noSlash_plain; assumption | exact Hnames].
Qed.

Lemma normSegs_true_dotsBelow (xs : list jsstr) :
  Forall noSlash xs ->
  forall res, dotsBelow res -> dotsBelow (normSegs true res xs).
Proof.
  induction 1 as [|x xs Hx _ IH]; intros res Hres; [exact Hres|].
  rewrite normSegs_cons. apply IH. apply normStep_true_dotsBelow; assumption.
Qed.

Lemma dotsBelow_nil : dotsBelow [].
Proof. exists [], 0%nat. split; [reflexivity | constructor]. Qed.

(** Resolving what was normalized is resolving the original: replaying the
    normalized segments of a relative path on a stack gives what the raw
    segments give. *)
Lemma normSegs_replay (res xs : list jsstr) :
  Forall noSlash xs ->
  normSegs false res (rev (normSegs true [] xs)) = normSegs false res xs.
Proof.
  intros Hxs. induction xs as [|x xs IH] using rev_ind; [reflexivity|].
  apply Forall_app in Hxs as [Hxs Hx]. inversion Hx as [|? ? Hx' _]; subst.
  specialize (IH Hxs).
  rewrite !normSegs_snoc, <- IH.
  assert (Hstack : Forall (fun s => s <> [] /\ s <> [DOT]) (normSegs true [] xs)).
  { destruct (normSegs_true_dotsBelow Hxs dotsBelow_nil)
      as [names [k [-> Hnames]]].
    apply Forall_app. split.
    + eapply Forall_impl; [|exact Hnames]. intros s [H0 [H1 _]]. auto.
    + apply Forall_forall. intros s Hs. apply repeat_spec in Hs. subst s.
      split; discriminate. }
  destruct (seg_cases x) as [-> | [-> | [-> | Hp]]]; try reflexivity.
  - destruct (normSegs true [] xs) as [|top below] eqn:E.
    + reflexivity.
    + destruct (eqb top dotdot) eqn:Et.
      * apply eqb_eq in Et. subst top. rewrite normStep_dotdot_dotdot.
        change (rev (dotdot :: dotdot :: below))
          with (rev (dotdot :: below) ++ [dotdot]).
        rewrite normSegs_snoc. reflexivity.
      * apply eqb_neq in Et. rewrite normStep_dotdot_cons by exact Et.
        change (rev (top :: below)) with (rev below ++ [top]).
        rewrite normSegs_snoc.
        inversion Hstack as [|? ? [Ht0 Ht1] _]; subst.
        rewrite (@normStep_pushed false _ top) by (repeat split; assumption).
        rewrite normStep_dotdot_cons by exact Et. reflexivity.
  - rewrite !normStep_pushed by exact Hp.
    change (rev (x :: normSegs true [] xs))
      with (rev (normSegs true [] xs) ++ [x]).
    rewrite normSegs_snoc, normStep_pushed by exact Hp. reflexivity.
Qed.

End NormFacts.


(* ================================================================= *)
(** ** Paths: resolution *)

Module ResolveFacts.
Import Path PathFacts NormFacts.

Section Resolve.

Variable cwd : jsstr.
Hypothesis cwd_absolute : isAbsolute cwd = true.

(** The stack [resolve] starts a path on: nothing for an absolute path, the
    working directory for a relative one. *)
Definition startStack (p : jsstr) : list jsstr :=
  if isAbsolute p then [] else normSegs false [] (split cwd).

Lemma cwd_not_nil : cwd <> [].
Proof using cwd_absolute. intros E. rewrite E in cwd_absolute. discriminate. Qed.

Lemma isAbsolute_app (a b : jsstr) :
  a <> [] -> isAbsolute (a ++ b) = isAbsolute a.
Proof. destruct a; [contradiction | reflexivity]. Qed.

Lemma split_snoc_slash (p : jsstr) : split (p ++ [SLASH]) = split p ++ [ [] ].
Proof. apply (split_app_slash p []). Qed.

Lemma normSegs_snoc_empty (a : bool) (res xs : list jsstr) :
  normSegs a res (xs ++ [ [] ]) = normSegs a res xs.
Proof. rewrite normSegs_snoc. reflexivity. Qed.

(** [resolve] as a replay of the path's segments. *)
Lemma resolvedSegs_replay (p : jsstr) :
  resolvedSegs cwd p = rev (normSegs false (startStack p) (split p)).
Proof using cwd_absolute.
  unfold resolvedSegs, startStack. destruct p as [|c p].
  - rewrite isAbsolute_app by exact cwd_not_nil. rewrite cwd_absolute.
    simpl negb. rewrite split_snoc_slash, normSegs_snoc_empty. reflexivity.
  - destruct (isAbsolute (c :: p)) eqn:Ea.
    + rewrite isAbsolute_app by discriminate. rewrite Ea. simpl negb.
      rewrite split_snoc_slash, normSegs_snoc_empty. reflexivity.
    + rewrite isAbsolute_app by exact cwd_not_nil. rewrite cwd_absolute.
      simpl negb. rewrite split_app_slash, split_snoc_slash.
      rewrite normSegs_app, normSegs_snoc_empty. reflexivity.
Qed.

Lemma startStack_plain (p : jsstr) : Forall plain (startStack p).
Proof.
  unfold startStack. destruct (isAbsolute p); [constructor|].
  apply normSegs_false_plain; [apply split_all_noSlash | constructor].
Qed.

Lemma resolvedSegs_plain (p : jsstr) : Forall plain (resolvedSegs cwd p).
Proof using cwd_absolute.
  rewrite resolvedSegs_replay. apply Forall_rev.
  apply normSegs_false_plain; [apply split_all_noSlash | apply startStack_plain].
Qed.

Lemma resolve_absolute (p : jsstr) :
  resolve cwd p = SLASH :: joinSlash (resolvedSegs cwd p).
Proof using cwd_absolute.
  unfold resolve. rewrite cwd_absolute. rewrite orb_true_r.
  destruct p; reflexivity.
Qed.

Lemma joinSlash_nil_inv (segs : list jsstr) :
  Forall (fun s => s <> []) segs -> joinSlash segs = [] -> segs = [].
Proof.
  intros H E. destruct segs as [|x segs]; [reflexivity|].
  inversion H as [|? ? Hx _]; subst. exfalso.
  destruct segs; simpl in E.
  - contradiction.
  - apply app_eq_nil in E as [E _]. contradiction.
Qed.

Lemma joinSlash_head (x : jsstr) (segs : list jsstr) :
  x <> [] -> exists c tl, x = c :: tl /\ exists r, joinSlash (x :: segs) = c :: r.
Proof.
  intros Hx. destruct x as [|c tl]; [contradiction|].
  exists c, tl. split; [reflexivity|]. destruct segs; simpl; eauto.
Qed.

(** The segments of [normalize p] replay like those of [p], and
    [normalize] keeps a path absolute or relative. *)
Lemma normalize_replay (p : jsstr) (res : list jsstr) :
  p <> [] ->
  isAbsolute (normalize p) = isAbsolute p
  /\ (isAbsolute p = false \/ res = [] ->
      normSegs false res (split (normalize p))
      = normSegs false res (split p)).
Proof.
  intros Hp. destruct p as [|c p]; [contradiction|]. clear Hp.
  unfold normalize. cbv iota. set (u := c :: p).
  unfold normalizeString.
  pose proof (split_all_noSlash u) as Hns.
  destruct (isAbsolute u) eqn:Ea; simpl negb.
  - (* absolute *)
    pose proof (normSegs_false_plain Hns (Forall_nil plain)) as Hpl.
    set (S := normSegs false [] (split u)) in *.
    assert (Hrev : Forall plain (rev S)) by (apply Forall_rev; exact Hpl).
    assert (Hq : forall tl, normSegs false [] (split (joinSlash (rev S)) ++ tl)
                            = normSegs false S tl).
    { intros tl. rewrite normSegs_app, normSegs_split_joinSlash by exact Hrev.
      rewrite rev_involutive, app_nil_r. reflexivity. }
    destruct (joinSlash (rev S)) as [|d q] eqn:Eq.
    + split; [reflexivity|]. intros [H|H]; [discriminate|]. subst res.
      apply joinSlash_nil_inv in Eq;
        [|eapply Forall_impl; [|exact Hrev]; intros s Hs; apply Hs].
      apply (f_equal (@rev jsstr)) in Eq. rewrite rev_involutive in Eq.
      simpl in Eq. fold S. rewrite Eq. reflexivity.
    + split; [reflexivity|]. intros [H|H]; [discriminate|]. subst res.
      fold S. destruct (endsWithSlash u).
      * rewrite split_abs, normSegs_cons_empty, split_snoc_slash.
        rewrite Hq. reflexivity.
      * rewrite split_abs, normSegs_cons_empty.
        rewrite <- (app_nil_r (split (d :: q))). rewrite Hq. reflexivity.
  - (* relative *)
    pose proof (normSegs_true_dotsBelow Hns dotsBelow_nil) as Hdb.
    pose proof (normSegs_replay res Hns) as Hrep.
    set (S := normSegs true [] (split u)) in *.
    assert (Hne : Forall (fun s => s <> [] /\ noSlash s) (rev S)).
    { apply Forall_rev. destruct Hdb as [names [k [-> Hnames]]].
      apply Forall_app. split.
      - eapply Forall_impl; [|exact Hnames]. intros s [H0 [_ [_ H3]]]. auto.
      - apply Forall_forall. intros s Hs. apply repeat_spec in Hs. subst s.
        split; [discriminate|]. intros [H|[H|[]]]; discriminate. }
    destruct (joinSlash (rev S)) as [|d q] eqn:Eq.
    + apply joinSlash_nil_inv in Eq;
        [|eapply Forall_impl; [|exact Hne]; intros s Hs; apply Hs].
      rewrite Eq in Hrep.
      split; [destruct (endsWithSlash u); reflexivity|].
      intros _. rewrite <- Hrep. destruct (endsWithSlash u); reflexivity.
    + assert (Hsplit : split (d :: q) = rev S).
      { rewrite <- Eq. apply split_joinSlash.
        - eapply Forall_impl; [|exact Hne]. intros s Hs; apply Hs.
        - intros E. rewrite E in Eq. discriminate. }
      assert (Hd : d <> SLASH).
      { destruct (rev S) as [|x segs]; [discriminate|].
        inversion Hne as [|? ? [Hx0 Hx1] _]; subst.
        destruct (joinSlash_head segs Hx0) as [c' [tl [-> [r Er]]]].
        rewrite Er in Eq. inversion Eq; subst.
        intros ->. apply Hx1. left. reflexivity. }
      apply N.eqb_neq in Hd.
      split.
      * destruct (endsWithSlash u); simpl; exact Hd.
      * intros _. rewrite <- Hrep. destruct (endsWithSlash u).
        -- rewrite split_snoc_slash, normSegs_snoc_empty, Hsplit. reflexivity.
        -- rewrite Hsplit. reflexivity.
Qed.

(** Resolving a normalized path is resolving the path. *)
Lemma resolvedSegs_normalize (p : jsstr) :
  p <> [] -> resolvedSegs cwd (normalize p) = resolvedSegs cwd p.
Proof using cwd_absolute.
  intros Hp. rewrite !resolvedSegs_replay. f_equal.
  unfold startStack.
  destruct (normalize_replay (if isAbsolute p then []
                              else normSegs false [] (split cwd)) Hp)
    as [Ea Hseg].
  rewrite Ea. apply Hseg.
  destruct (isAbsolute p); auto.
Qed.

(** Resolving [join base rest] replays the segments of [rest] on the
    resolved segments of [base]. *)
Lemma resolvedSegs_join (base rest : jsstr) :
  base <> [] ->
  resolvedSegs cwd (join base rest)
  = rev (normSegs false (rev (resolvedSegs cwd base)) (split rest)).
Proof using cwd_absolute.
  intros Hb. destruct rest as [|c rest].
  - replace (join base []) with (normalize base)
      by (destruct base; [contradiction | reflexivity]).
    rewrite resolvedSegs_normalize by exact Hb.
    simpl split. unfold normSegs. simpl fold_left.
    rewrite rev_involutive. reflexivity.
  - rewrite join_nonempty by (exact Hb || discriminate).
    rewrite resolvedSegs_normalize by (destruct base; discriminate).
    rewrite !resolvedSegs_replay, rev_involutive.
    unfold startStack. rewrite isAbsolute_app by exact Hb.
    rewrite split_app_slash, normSegs_app. reflexivity.
Qed.

End Resolve.

End ResolveFacts.


(* ================================================================= *)
(** ** Paths: what [validateAndResolvePath] lets through *)

Module TraversalFacts.
Import Path PathFacts NormFacts ResolveFacts.

(** Segments whose [".."] all come first. *)
Definition leadingDots (segs : list jsstr) : Prop :=
  exists k rest,
    segs = repeat dotdot k ++ rest /\ Forall (fun s => s <> dotdot) rest.

Lemma rev_repeat_same {A} (x : A) (k : nat) : rev (repeat x k) = repeat x k.
Proof.
  induction k as [|k IH]; [reflexivity|].
  simpl. rewrite IH. symmetry. apply repeat_cons.
Qed.

Lemma leadingDots_free (segs : list jsstr) :
  Forall (fun s => s <> dotdot) segs -> leadingDots segs.
Proof. intros H. exists 0%nat, segs. auto. Qed.

Lemma leadingDots_tail (segs : list jsstr) :
  leadingDots (dotdot :: segs) -> leadingDots segs.
Proof.
  intros [[|k] [rest [E H]]]; simpl in E.
  - subst rest. inversion H as [|? ? Hx _]; subst. contradiction.
  - inversion E; subst. exists k, rest. auto.
Qed.

Lemma leadingDots_head (x : jsstr) (segs : list jsstr) :
  x <> dotdot -> leadingDots (x :: segs) ->
  Forall (fun s => s <> dotdot) (x :: segs).
Proof.
  intros Hx [[|k] [rest [E H]]]; simpl in E.
  - subst rest. exact H.
  - inversion E; subst. contradiction.
Qed.

Lemma leadingDots_cons (x : jsstr) (segs : list jsstr) :
  Forall (fun s => s <> dotdot) segs -> leadingDots (x :: segs).
Proof.
  intros H. destruct (eqb x dotdot) eqn:E.
  - apply eqb_eq in E. subst x. exists 1%nat, segs. auto.
  - apply eqb_neq in E. exists 0%nat, (x :: segs). auto.
Qed.

(** [normalize] leaves [".."] only in front. *)
Lemma split_normalize_leadingDots (u : jsstr) :
  leadingDots (split (normalize u)).
Proof.
  destruct u as [|c p].
  { apply leadingDots_free. repeat constructor. discriminate. }
  unfold normalize. cbv iota. set (u := c :: p). unfold normalizeString.
  pose proof (split_all_noSlash u) as Hns.
  destruct (isAbsolute u) eqn:Ea; simpl negb.
  - pose proof (normSegs_false_plain Hns (Forall_nil plain)) as Hpl.
    set (S := normSegs false [] (split u)) in *.
    assert (Hrev : Forall plain (rev S)) by (apply Forall_rev; exact Hpl).
    assert (Hfree : Forall (fun s => s <> dotdot) (rev S)).
    { eapply Forall_impl; [|exact Hrev]. intros s Hs. apply Hs. }
    apply leadingDots_free.
    destruct (joinSlash (rev S)) as [|d q] eqn:Eq.
    + repeat constructor; discriminate.
    + assert (Hsplit : split (d :: q) = rev S).
      { rewrite <- Eq. apply split_joinSlash.
        - eapply Forall_impl; [|exact Hrev]. apply plain_noSlash.
        - intros E. rewrite E in Eq. discriminate. }
      destruct (endsWithSlash u).
      * rewrite split_abs, split_snoc_slash, Hsplit.
        constructor; [discriminate|]. apply Forall_app. split; [exact Hfree|].
        repeat constructor. discriminate.
      * rewrite split_abs, Hsplit. constructor; [discriminate | exact Hfree].
  - destruct (normSegs_true_dotsBelow Hns dotsBelow_nil)
      as [names [k [ES Hnames]]].
    set (S := normSegs true [] (split u)) in *.
    assert (Erev : rev S = repeat dotdot k ++ rev names).
    { rewrite ES, rev_app_distr, rev_repeat_same. reflexivity. }
    assert (Hfree : Forall (fun s => s <> dotdot) (rev names)).
    { apply Forall_rev. eapply Forall_impl; [|exact Hnames].
      intros s Hs. apply Hs. }
    assert (Hns' : Forall noSlash (rev S)).
    { rewrite Erev. apply Forall_app. split.
      - apply Forall_forall. intros s Hs. apply repeat_spec in Hs. subst s.
        intros [H|[H|[]]]; discriminate.
      - apply Forall_rev. eapply Forall_impl; [|exact Hnames].
        apply plain_noSlash. }
    destruct (joinSlash (rev S)) as [|d q] eqn:Eq.
    + apply leadingDots_free.
      destruct (endsWithSlash u); repeat constructor; discriminate.
    + assert (Hsplit : split (d :: q) = rev S).
      { rewrite <- Eq. apply split_joinSlash; [exact Hns'|].
        intros E. rewrite E in Eq. discriminate. }
      destruct (endsWithSlash u).
      * rewrite split_snoc_slash, Hsplit, Erev, <- app_assoc.
        exists k, (rev names ++ [ [] ]). split; [reflexivity|].
        apply Forall_app. split; [exact Hfree|]. repeat constructor. discriminate.
      * rewrite Hsplit, Erev. exists k, (rev names). auto.
Qed.

Lemma split_dotdot_slash (rest : jsstr) :
  split (DOT :: DOT :: SLASH :: rest) = dotdot :: split rest.
Proof. reflexivity. Qed.

Lemma split_dotdot_backslash (rest : jsstr) :
  exists h t,
    split rest = h :: t
    /\ split (DOT :: DOT :: BACKSLASH :: rest)
       = (DOT :: DOT :: BACKSLASH :: h) :: t.
Proof.
  destruct (split rest) as [|h t] eqn:E.
  - exfalso. exact (split_not_nil rest E).
  - exists h, t. split; [reflexivity|]. simpl. unfold BACKSLASH at 1.
    simpl. rewrite E. reflexivity.
Qed.

(** A string whose first segment is [".."] is [".."] or starts with
    ["../"]. *)
Lemma split_head_dotdot (s : jsstr) (segs : list jsstr) :
  split s = dotdot :: segs ->
  s = dotdot \/ exists r, s = DOT :: DOT :: SLASH :: r.
Proof.
  intros H.
  destruct s as [|c1 s]; [discriminate|].
  destruct (N.eqb_spec c1 SLASH) as [->|N1]; [discriminate|].
  destruct (split_cons_other s N1) as [h1 [t1 [E1 E1']]].
  rewrite E1' in H. inversion H; subst c1 h1 t1. clear H E1'.
  destruct s as [|c2 s]; [discriminate|].
  destruct (N.eqb_spec c2 SLASH) as [->|N2]; [discriminate|].
  destruct (split_cons_other s N2) as [h2 [t2 [E2 E2']]].
  rewrite E2' in E1. inversion E1; subst c2 h2 t2. clear E1 E2'.
  destruct s as [|c3 s]; [left; reflexivity|].
  destruct (N.eqb_spec c3 SLASH) as [->|N3]; [right; eauto|].
  destruct (split_cons_other s N3) as [h3 [t3 [E3 E3']]].
  rewrite E3' in E2. discriminate.
Qed.

Lemma strip_cases (s : jsstr) :
  (exists rest, s = DOT :: DOT :: SLASH :: rest
                /\ stripLeadingDotDots s = stripLeadingDotDots rest)
  \/ (exists rest, s = DOT :: DOT :: BACKSLASH :: rest
                   /\ stripLeadingDotDots s = stripLeadingDotDots rest)
  \/ (stripLeadingDotDots s = s
      /\ forall r, s <> DOT :: DOT :: SLASH :: r).
Proof.
  destruct s as [|a [|b [|c rest]]];
    try (right; right; split; [reflexivity | discriminate]).
  cbn [stripLeadingDotDots].
  destruct (N.eqb_spec a DOT) as [->|Na]; simpl andb.
  2:{ right; right. split; [reflexivity|]. intros r E. inversion E. contradiction. }
  destruct (N.eqb_spec b DOT) as [->|Nb]; simpl andb.
  2:{ right; right. split; [reflexivity|]. intros r E. inversion E. contradiction. }
  destruct (N.eqb_spec c SLASH) as [->|Nc]; simpl orb.
  { left. eauto. }
  destruct (N.eqb_spec c BACKSLASH) as [->|Nc'].
  { right; left. eauto. }
  right; right. split; [reflexivity|]. intros r E. inversion E. contradiction.
Qed.

(** After the leading groups are removed, the path is [".."] itself or has
    no [".."] segment. *)
Lemma strip_no_dotdot (n : nat) :
  forall s,
    (List.length s <= n)%nat ->
    leadingDots (split s) ->
    stripLeadingDotDots s = dotdot
    \/ Forall (fun x => x <> dotdot) (split (stripLeadingDotDots s)).
Proof.
  induction n as [|n IH]; intros s Hlen Hld.
  - destruct s; [|simpl in Hlen; lia]. right. repeat constructor. discriminate.
  - destruct (strip_cases s) as [[rest [-> E]] | [[rest [-> E]] | [E Hno]]].
    + rewrite E. apply IH; [simpl in Hlen; lia|].
      rewrite split_dotdot_slash in Hld. apply leadingDots_tail in Hld. exact Hld.
    + rewrite E. apply IH; [simpl in Hlen; lia|].
      destruct (split_dotdot_backslash rest) as [h [t [Er Es]]].
      rewrite Es in Hld. rewrite Er.
      apply leadingDots_head in Hld; [|discriminate].
      inversion Hld; subst. apply leadingDots_cons. assumption.
    + rewrite E. destruct Hld as [[|k] [rest [Es Hfree]]].
      * right. rewrite Es. exact Hfree.
      * left. simpl in Es. apply split_head_dotdot in Es as [Es | [r Es]];
          [exact Es | exfalso; exact (Hno r Es)].
Qed.

Lemma normalized_path_shape (u : jsstr) :
  let p := stripLeadingDotDots (normalize u) in
  p = dotdot \/ Forall (fun x => x <> dotdot) (split p).
Proof.
  apply (@strip_no_dotdot (List.length (normalize u)));
    [lia | apply split_normalize_leadingDots].
Qed.

(** Segments without [".."] only grow the stack. *)
Lemma normSegs_grows (a : bool) (segs : list jsstr) :
  Forall (fun s => s <> dotdot) segs ->
  forall res, exists top, normSegs a res segs = top ++ res.
Proof.
  induction 1 as [|x segs Hx _ IH]; intros res.
  - exists []. reflexivity.
  - rewrite normSegs_cons.
    destruct (seg_cases x) as [-> | [-> | [-> | Hp]]].
    + apply IH.
    + apply IH.
    + contradiction.
    + rewrite normStep_pushed by exact Hp.
      destruct (IH (x :: res)) as [top E]. exists (top ++ [x]).
      rewrite E, <- app_assoc. reflexivity.
Qed.

Lemma startsWith_length (s p : jsstr) :
  startsWith s p = true -> (List.length p <= List.length s)%nat.
Proof.
  intros H. apply startsWith_spec in H as [r ->]. rewrite length_app. lia.
Qed.

End TraversalFacts.


(* ================================================================= *)
(** ** Package names *)

Lemma includes_unit_In (s : jsstr) (c : N) : includes s [c] = true -> In c s.
Proof.
  intros H. apply includes_spec in H as [a [b ->]].
  apply in_or_app. right. left. reflexivity.
Qed.

(** A name the pattern accepts holds neither a null byte nor a newline. *)
Lemma pattern_excludes_controls (name : jsstr) :
  Regex.test Regex.PACKAGE_NAME_RE name = true ->
  includes name [0%N] = false /\ includes name [10%N] = false.
Proof.
  intros H. apply RegexFacts.test_matches, RegexFacts.matches_accepts in H.
  rewrite Forall_forall in H.
  split.
  - destruct (includes name [0%N]) eqn:E; [|reflexivity].
    apply includes_unit_In, H in E. discriminate E.
  - destruct (includes name [10%N]) eqn:E; [|reflexivity].
    apply includes_unit_In, H in E. discriminate E.
Qed.

(** C2 (as amended): [validatePackageName] returns without error for every
    name that matches the allow-list pattern and does not contain [".."],
    and throws an invalid-params error for every name that contains [".."],
    a null byte or a newline. *)
Theorem validatePackageName_cases (name : jsstr) :
  (Regex.test Regex.PACKAGE_NAME_RE name = true ->
   includes name (lit "..") = false ->
   validatePackageName name = Ok tt)
  /\ (includes name (lit "..") = true \/ includes name [0%N] = true
      \/ includes name [10%N] = true ->
      exists m, validatePackageName name = Throw (McpError InvalidParams m)).
Proof.
  unfold validatePackageName. split.
  - intros Hre Hdots. rewrite Hre. simpl negb. cbv iota.
    destruct (pattern_excludes_controls name Hre) as [-> ->].
    rewrite Hdots. reflexivity.
  - intros H. destruct (Regex.test Regex.PACKAGE_NAME_RE name) eqn:Hre;
      simpl negb; cbv iota; [|eauto].
    destruct (pattern_excludes_controls name Hre) as [H0 H10].
    destruct H as [H | [H | H]]; [|congruence|congruence].
    rewrite H. simpl. eauto.
Qed.

Lemma validatePackageName_cases_witness :
  validatePackageName (lit "@babel/core") = Ok tt
  /\ exists m,
      validatePackageName (lit "lodash" ++ [10%N]) = Throw (McpError InvalidParams m).
Proof.
  split.
  - apply (proj1 (validatePackageName_cases (lit "@babel/core"))); reflexivity.
  - apply (proj2 (validatePackageName_cases (lit "lodash" ++ [10%N]))).
    right; right; reflexivity.
Defined.

(** C2 as stated fails: ["a..b"] matches the pattern and is rejected. *)
Lemma validatePackageName_rejects_matching_name :
  Regex.test Regex.PACKAGE_NAME_RE (lit "a..b") = true
  /\ validatePackageName (lit "a..b")
     = Throw (McpError InvalidParams
                (lit "Invalid package name: contains prohibited characters")).
Proof. split; reflexivity. Qed.

(* ================================================================= *)
(** ** The extraction directory *)

Lemma validatePackageName_ok (name : jsstr) :
  validatePackageName name = Ok tt ->
  Regex.test Regex.PACKAGE_NAME_RE name = true
  /\ includes name (lit "..") = false.
Proof.
  unfold validatePackageName.
  destruct (Regex.test Regex.PACKAGE_NAME_RE name); simpl negb; cbv iota;
    [|discriminate].
  destruct (includes name (lit "..")); [discriminate | auto].
Qed.

Definition sanitizeUnit (c : N) : N :=
  if N.eqb c 64 || N.eqb c 47 then 95%N else c.

Lemma sanitizeName_map (name : jsstr) :
  sanitizeName name = map sanitizeUnit name.
Proof. reflexivity. Qed.

Lemma sanitizeUnit_not_slash (c : N) : sanitizeUnit c <> Path.SLASH.
Proof.
  unfold sanitizeUnit, Path.SLASH.
  destruct (N.eqb_spec c 64); simpl; [discriminate|].
  destruct (N.eqb_spec c 47); [discriminate | assumption].
Qed.

Lemma sanitizeName_noSlash (name : jsstr) : noSlash (sanitizeName name).
Proof.
  unfold noSlash. rewrite sanitizeName_map, in_map_iff.
  intros [c [Hc _]]. eapply sanitizeUnit_not_slash; exact Hc.
Qed.

Lemma sanitizeUnit_start (c : N) :
  c = 64%N \/ Regex.nameStart c = true -> sanitizeUnit c <> Path.DOT.
Proof.
  unfold sanitizeUnit, Path.DOT. intros [-> | H]; [discriminate|].
  destruct (N.eqb c 64 || N.eqb c 47); [discriminate|].
  intros ->. discriminate H.
Qed.

(** The sanitized form of a valid name is a proper entry name. *)
Lemma sanitizeName_plain (name : jsstr) :
  validatePackageName name = Ok tt -> plain (sanitizeName name).
Proof.
  intros H. apply validatePackageName_ok in H as [Hre _].
  apply RegexFacts.test_matches, RegexFacts.package_name_shape in Hre
    as [scope [c [rest [-> [Hc Hscope]]]]].
  assert (Hfirst : exists d tl, sanitizeName (scope ++ c :: rest) = d :: tl
                                /\ d <> Path.DOT).
  { destruct Hscope as [-> | [scope' ->]].
    - exists (sanitizeUnit c), (sanitizeName rest). split; [reflexivity|].
      apply sanitizeUnit_start. auto.
    - exists (sanitizeUnit 64), (sanitizeName (scope' ++ c :: rest)).
      split; [reflexivity | discriminate]. }
  destruct Hfirst as [d [tl [E Hd]]].
  split; [rewrite E; discriminate|].
  split; [rewrite E; intros H; inversion H; contradiction|].
  split; [rewrite E; intros H; inversion H; contradiction|].
  apply sanitizeName_noSlash.
Qed.

Lemma joinSlash_snoc_longer (segs : list jsstr) (x : jsstr) :
  x <> [] ->
  (List.length (Path.joinSlash segs) < List.length (Path.joinSlash (segs ++ [x])))%nat.
Proof.
  intros Hx. destruct segs as [|y segs].
  - simpl. destruct x; [contradiction | simpl; lia].
  - rewrite PathFacts.joinSlash_app_last by discriminate.
    rewrite length_app. simpl. lia.
Qed.

Lemma absPath_snoc_neq (segs : list jsstr) (x : jsstr) :
  x <> [] -> absPath (segs ++ [x]) <> absPath segs.
Proof.
  intros Hx E. unfold absPath in E. inversion E as [E'].
  pose proof (joinSlash_snoc_longer segs Hx) as L. rewrite E' in L. lia.
Qed.

Lemma plain_temp : plain (lit "temp").
Proof.
  repeat split; try discriminate.
  intros H. simpl in H. unfold Path.SLASH in H.
  repeat (destruct H as [H|H]; [discriminate|]). exact H.
Qed.

(** The extraction directory of a valid name, by segments. *)
Lemma extractPathOf_segments (w : World) (ds : list jsstr) (name : jsstr) :
  dirname w = absPath ds ->
  Forall plain ds ->
  validatePackageName name = Ok tt ->
  extractPathOf (tempDir w) name
  = absPath ((ds ++ [lit "temp"]) ++ [sanitizeName name]).
Proof.
  intros Hdir Hds Hname. unfold extractPathOf, tempDir. rewrite Hdir.
  rewrite PathFacts.join_abs_plain by (exact Hds || exact plain_temp).
  apply PathFacts.join_abs_plain; [|apply sanitizeName_plain; exact Hname].
  apply Forall_app. split; [exact Hds|].
  constructor; [exact plain_temp | constructor].
Qed.

(** The run of [downloadAndExtract], by what the disk and the two
    preparation calls do. *)
Lemma downloadAndExtract_events (w : World) (tarballUrl name : jsstr)
  (ev : Event) (p : jsstr) :
  In ev (trace (downloadAndExtract w tarballUrl name)) ->
  pathOf ev = Some p ->
  p = extractPathOf (tempDir w) name.
Proof.
  unfold downloadAndExtract.
  set (dir := extractPathOf (tempDir w) name).
  destruct (Fs.existsSync (cwd w) (diskBefore w) dir);
    try (destruct (rmSync w dir) as [[]|e0]);
    destruct (mkdirSync w dir) as [[]|e];
    try (destruct (download w tarballUrl dir));
    simpl; intros H Hp;
    repeat (destruct H as [<-|H]; [simpl in Hp; congruence|]);
    contradiction.
Qed.

Lemma downloadAndExtract_first (w : World) (tarballUrl name : jsstr) :
  exists rest,
    trace (downloadAndExtract w tarballUrl name)
    = FsExists (extractPathOf (tempDir w) name) :: rest.
Proof.
  unfold downloadAndExtract.
  set (dir := extractPathOf (tempDir w) name).
  destruct (Fs.existsSync (cwd w) (diskBefore w) dir);
    try (destruct (rmSync w dir) as [[]|e0]);
    destruct (mkdirSync w dir) as [[]|e];
    try (destruct (download w tarballUrl dir));
    simpl; eexists; reflexivity.
Qed.

Lemma downloadAndExtract_ok (w : World) (tarballUrl name : jsstr)
  (extracted : jsstr * node) :
  outcome (downloadAndExtract w tarballUrl name) = Ok extracted ->
  let dir := extractPathOf (tempDir w) name in
  fst extracted = dir
  /\ download w tarballUrl dir = Extracted (snd extracted)
  /\ mkdirSync w dir = Ok tt
  /\ trace (downloadAndExtract w tarballUrl name)
     = [FsExists dir]
       ++ (if Fs.existsSync (cwd w) (diskBefore w) dir then [FsRm dir] else [])
       ++ [FsMkdir dir; HttpGet tarballUrl].
Proof.
  unfold downloadAndExtract.
  set (dir := extractPathOf (tempDir w) name).
  destruct (Fs.existsSync (cwd w) (diskBefore w) dir);
    try (destruct (rmSync w dir) as [[]|e0]);
    destruct (mkdirSync w dir) as [[]|e];
    try (destruct (download w tarballUrl dir));
    simpl; intros H; try discriminate H; inversion H; auto.
Qed.

Lemma downloadAndExtract_path (w : World) (tarballUrl name : jsstr)
  (extracted : jsstr * node) :
  outcome (downloadAndExtract w tarballUrl name) = Ok extracted ->
  fst extracted = extractPathOf (tempDir w) name.
Proof. intros H. apply (downloadAndExtract_ok _ _ _ H). Qed.

(** [rmSync] is called only on a directory that exists, and when it throws
    nothing follows: [mkdirSync] is not called and no request is sent. *)
Lemma downloadAndExtract_rm_throws (w : World) (tarballUrl name : jsstr)
  (e : exn) :
  let dir := extractPathOf (tempDir w) name in
  Fs.existsSync (cwd w) (diskBefore w) dir = true ->
  rmSync w dir = Throw e ->
  downloadAndExtract w tarballUrl name = ([FsExists dir; FsRm dir], Throw e).
Proof.
  intros dir Hex Hrm. unfold downloadAndExtract. fold dir.
  rewrite Hex, Hrm. reflexivity.
Qed.

(** C10: for a name that passes [validatePackageName], the sanitized name
    is a single proper path segment, so the extraction directory is the temp
    directory with exactly that one segment appended: an immediate child of
    the temp directory, and never the temp directory itself.
    [downloadAndExtract] works in that directory and in no other: the first
    thing it does is the check of the child, every path it checks, removes or
    creates is the child, and when it returns, the path it returns is the
    child and the archive was extracted into the child. *)
Theorem extraction_dir_is_child (w : World) (ds : list jsstr)
  (name tarballUrl : jsstr) :
  dirname w = absPath ds ->
  Forall plain ds ->
  validatePackageName name = Ok tt ->
  let child := absPath ((ds ++ [lit "temp"]) ++ [sanitizeName name]) in
  tempDir w = absPath (ds ++ [lit "temp"])
  /\ plain (sanitizeName name)
  /\ child <> tempDir w
  /\ (exists rest,
        trace (downloadAndExtract w tarballUrl name) = FsExists child :: rest)
  /\ (forall ev p,
        In ev (trace (downloadAndExtract w tarballUrl name)) ->
        pathOf ev = Some p -> p = child)
  /\ (forall extracted,
        outcome (downloadAndExtract w tarballUrl name) = Ok extracted ->
        fst extracted = child
        /\ download w tarballUrl child = Extracted (snd extracted)).
Proof.
  intros Hdir Hds Hname child.
  assert (Etemp : tempDir w = absPath (ds ++ [lit "temp"])).
  { unfold tempDir. rewrite Hdir.
    apply PathFacts.join_abs_plain; [exact Hds | exact plain_temp]. }
  pose proof (sanitizeName_plain name Hname) as Hplain.
  pose proof (@extractPathOf_segments w ds name Hdir Hds Hname) as Eext.
  fold child in Eext.
  split; [exact Etemp|]. split; [exact Hplain|]. split.
  { rewrite Etemp. apply absPath_snoc_neq. apply Hplain. }
  split.
  { destruct (downloadAndExtract_first w tarballUrl name) as [rest E].
    exists rest. rewrite E, Eext. reflexivity. }
  split.
  { intros ev p Hev Hp. rewrite <- Eext.
    eapply downloadAndExtract_events; eassumption. }
  intros extracted Hok.
  destruct (downloadAndExtract_ok _ _ _ Hok) as [Hfst [Hdl _]].
  rewrite Eext in Hfst, Hdl. split; assumption.
Qed.

Lemma extraction_dir_is_child_witness :
  let child := lit "/app/build/temp/_babel_core" in
  tempDir servingWorld = lit "/app/build/temp"
  /\ child <> tempDir servingWorld
  /\ trace (downloadAndExtract servingWorld (lit "https://registry.npmjs.org/t.tgz")
              (lit "@babel/core"))
     = [FsExists child; FsMkdir child;
        HttpGet (lit "https://registry.npmjs.org/t.tgz")]
  /\ outcome (downloadAndExtract servingWorld
                (lit "https://registry.npmjs.org/t.tgz") (lit "@babel/core"))
     = Ok (child, sampleDisk).
Proof.
  assert (Hds : Forall plain [lit "app"; lit "build"]).
  { repeat constructor; try discriminate;
      intros H; simpl in H; unfold Path.SLASH in H;
      repeat (destruct H as [H|H]; [discriminate|]); exact H. }
  destruct (@extraction_dir_is_child servingWorld [lit "app"; lit "build"]
              (lit "@babel/core") (lit "https://registry.npmjs.org/t.tgz")
              eq_refl Hds eq_refl)
    as [E [_ [N _]]].
  split; [exact E|]. split; [exact N|]. split; reflexivity.
Defined.


(* ================================================================= *)
(** ** Path traversal *)

(** The resolved path is the root or lies below it, segment by segment. *)
Definition insideRoot (cwd root p : jsstr) : Prop :=
  exists rest,
    Path.resolvedSegs cwd p = Path.resolvedSegs cwd root ++ rest.

Definition traversalError : exn :=
  McpError InvalidParams (lit "Access denied: Path traversal attempt detected").

Lemma normSegs_single (a : bool) (res : list jsstr) (x : jsstr) :
  Path.normSegs a res [x] = Path.normStep a res x.
Proof. reflexivity. Qed.

(** A path that resolves outside the root fails the prefix comparison. *)
Lemma validateAndResolvePath_outside (cwd basePath userPath : jsstr) :
  Path.isAbsolute cwd = true ->
  basePath <> [] ->
  ~ insideRoot cwd basePath
      (Path.join basePath (stripLeadingDotDots (Path.normalize userPath))) ->
  validateAndResolvePath cwd basePath userPath = Throw traversalError.
Proof.
  intros Hcwd Hbase Hout. unfold validateAndResolvePath.
  set (np := stripLeadingDotDots (Path.normalize userPath)) in *.
  assert (Ejoin := @ResolveFacts.resolvedSegs_join cwd Hcwd basePath np Hbase).
  pose proof (@ResolveFacts.resolvedSegs_plain cwd Hcwd basePath) as Hplain.
  rewrite !(@ResolveFacts.resolve_absolute cwd Hcwd).
  destruct (TraversalFacts.normalized_path_shape userPath) as [Edd | Hfree];
    fold np in Edd || fold np in Hfree.
  - clearbody np. subst np.
    change (Path.split Path.dotdot) with [Path.dotdot] in Ejoin.
    rewrite normSegs_single in Ejoin.
    destruct (rev (Path.resolvedSegs cwd basePath)) as [|top below] eqn:Erev.
    + exfalso. apply Hout. exists []. rewrite app_nil_r.
      apply (f_equal (@rev jsstr)) in Erev. rewrite rev_involutive in Erev.
      rewrite Erev. exact Ejoin.
    + assert (Htop : plain top).
      { apply Forall_rev in Hplain. rewrite Erev in Hplain.
        inversion Hplain; assumption. }
      rewrite NormFacts.normStep_dotdot_cons in Ejoin by apply Htop.
      apply (f_equal (@rev jsstr)) in Erev. rewrite rev_involutive in Erev.
      simpl rev in Erev.
      destruct (startsWith _ _) eqn:Es; [|reflexivity].
      exfalso. apply TraversalFacts.startsWith_length in Es.
      rewrite Ejoin, Erev in Es. simpl in Es.
      pose proof (@joinSlash_snoc_longer (rev below) top (proj1 Htop)). lia.
  - exfalso. apply Hout.
    destruct (@TraversalFacts.normSegs_grows false _ Hfree
                (rev (Path.resolvedSegs cwd basePath))) as [top E].
    exists (rev top). rewrite Ejoin, E, rev_app_distr, rev_involutive.
    reflexivity.
Qed.


(* ================================================================= *)
(** ** The bearer-token check *)

(** A header carries the token when it is the token or ["Bearer "] and the
    token. *)
Lemma isAuthValid_carries (tok h : jsstr) :
  truthy tok = true ->
  isAuthValid (Some tok) (Some h) = true ->
  h = tok \/ h = lit "Bearer " ++ tok.
Proof.
  intros Htok. unfold isAuthValid. simpl truthyOpt. rewrite Htok. simpl negb.
  cbv iota. destruct (truthy h); simpl negb; cbv iota; [|discriminate].
  destruct (startsWith h (lit "Bearer ")) eqn:Hb; intros H; apply eqb_eq in H.
  - right. apply startsWith_spec in Hb as [r ->].
    change (skipn 7 (lit "Bearer " ++ r)) with r in H. congruence.
  - left. assumption.
Qed.

(** C7 (as amended): with [AUTH_TOKEN] set to a non-empty token, a request
    of any method but [OPTIONS], for any URL, whose [Authorization] header
    is absent or is neither the token nor ["Bearer "] followed by the token,
    is answered [401] and reaches none of the routes; and a request of
    method [OPTIONS], for any URL and with any header or none, is answered
    [200] before the check. *)
Theorem auth_check_before_routes (tok : jsstr) (req : IncomingMessage) :
  truthy tok = true ->
  (method req <> lit "OPTIONS" ->
   authorization req <> Some tok ->
   authorization req <> Some (lit "Bearer " ++ tok) ->
   dispatch (authTokenOfEnv (Some tok)) req = Unauthorized
   /\ statusOf (dispatch (authTokenOfEnv (Some tok)) req) = Some 401%N
   /\ isRoute (dispatch (authTokenOfEnv (Some tok)) req) = false)
  /\ (method req = lit "OPTIONS" ->
      dispatch (authTokenOfEnv (Some tok)) req = Preflight
      /\ statusOf (dispatch (authTokenOfEnv (Some tok)) req) = Some 200%N
      /\ isRoute (dispatch (authTokenOfEnv (Some tok)) req) = false).
Proof.
  intros Htok. split.
  - intros Hm H1 H2.
    assert (E : dispatch (authTokenOfEnv (Some tok)) req = Unauthorized).
    { unfold dispatch, authTokenOfEnv. simpl truthyOpt at 1. rewrite Htok.
      apply eqb_neq in Hm. rewrite Hm. simpl truthyOpt. rewrite Htok.
      destruct (isAuthValid (Some tok) (authorization req)) eqn:Hv; [|reflexivity].
      exfalso. destruct (authorization req) as [h|] eqn:Eh.
      - destruct (isAuthValid_carries tok h Htok Hv) as [E | E];
          [apply H1 | apply H2]; rewrite E; reflexivity.
      - unfold isAuthValid in Hv. simpl in Hv. rewrite Htok in Hv. discriminate. }
    rewrite E. auto.
  - intros Hm.
    assert (E : dispatch (authTokenOfEnv (Some tok)) req = Preflight).
    { unfold dispatch. apply eqb_eq in Hm. rewrite Hm. reflexivity. }
    rewrite E. auto.
Qed.

Lemma auth_check_before_routes_witness :
  let req := {| method := lit "GET"; url := Some (lit "/health");
                authorization := Some (lit "Bearer wrong") |} in
  let pre := {| method := lit "OPTIONS"; url := Some (lit "/health");
                authorization := Some (lit "Bearer wrong") |} in
  (dispatch (authTokenOfEnv (Some (lit "secret"))) req = Unauthorized
   /\ statusOf (dispatch (authTokenOfEnv (Some (lit "secret"))) req) = Some 401%N
   /\ isRoute (dispatch (authTokenOfEnv (Some (lit "secret"))) req) = false)
  /\ (dispatch (authTokenOfEnv (Some (lit "secret"))) pre = Preflight
      /\ statusOf (dispatch (authTokenOfEnv (Some (lit "secret"))) pre) = Some 200%N
      /\ isRoute (dispatch (authTokenOfEnv (Some (lit "secret"))) pre) = false).
Proof.
  split.
  - apply (@auth_check_before_routes (lit "secret")
             {| method := lit "GET"; url := Some (lit "/health");
                authorization := Some (lit "Bearer wrong") |});
      [reflexivity | discriminate | discriminate | discriminate].
  - apply (@auth_check_before_routes (lit "secret")
             {| method := lit "OPTIONS"; url := Some (lit "/health");
                authorization := Some (lit "Bearer wrong") |});
      reflexivity.
Defined.


(** C7 as stated fails: an [OPTIONS] request without a token is answered
    [200] before the check; and an empty [AUTH_TOKEN] switches the check
    off. *)
Lemma options_request_skips_auth :
  let req := {| method := lit "OPTIONS"; url := Some (lit "/mcp");
                authorization := None |} in
  dispatch (authTokenOfEnv (Some (lit "secret"))) req = Preflight
  /\ statusOf (dispatch (authTokenOfEnv (Some (lit "secret"))) req) = Some 200%N
  /\ dispatch (authTokenOfEnv (Some [])) 
       {| method := lit "GET"; url := Some (lit "/health");
          authorization := None |} = Health.
Proof. repeat split; reflexivity. Qed.


(* ================================================================= *)
(** ** Error categories of [get_npm_package_code] *)


Example get_file_in_sample :
  getNpmPackageCode servingWorld
    {| gc_packageName := Some (lit "lodash"); gc_version := None;
       gc_filePath := Some (lit "./lib/../index.js") |}
  = ([HttpGet (lit "https://registry.npmjs.org/lodash/latest");
      FsExists (lit "/app/build/temp/lodash");
      FsMkdir (lit "/app/build/temp/lodash");
      HttpGet (lit "https://registry.npmjs.org/lodash/-/lodash-4.17.21.tgz");
      FsExists (lit "/app/build/temp/lodash/index.js");
      FsStat (lit "/app/build/temp/lodash/index.js");
      FsReadFile (lit "/app/build/temp/lodash/index.js")],
     Ok {| content := [lit "File: ./lib/../index.js" ++ NL ++ NL
                       ++ lit "module.exports = 1;"] |}).
Proof. vm_compute. reflexivity. Qed.

Example find_code_files_in_sample :
  map cf_path (findCodeFiles (lit "/app") sampleDisk (lit "/app/build/temp/lodash"))
  = [lit "/app/build/temp/lodash/package.json";
     lit "/app/build/temp/lodash/index.js";
     lit "/app/build/temp/lodash/lib/a.TS"].
Proof. vm_compute. reflexivity. Qed.

Example list_files_in_sample :
  fileListOf (lit "/app") sampleDisk (lit "/app/build/temp/lodash")
  = [lit "README.md"; lit "index.js"; lit "lib/.json"; lit "lib/a.TS";
     lit "lib/secret.js"; lit "node_modules/dep.js"; lit "package.json"].
Proof. vm_compute. reflexivity. Qed.


(** Every error [getNpmPackageCode] throws once the name is accepted
    carries the internal-error tag. *)
Lemma getNpmPackageCode_failure_tag (w : World) (name : jsstr)
  (version filePath : option jsstr) (e : exn) :
  truthy name = true ->
  validatePackageName name = Ok tt ->
  outcome (getNpmPackageCode w
             {| gc_packageName := Some name; gc_version := version;
                gc_filePath := filePath |}) = Throw e ->
  exists m, e = McpError InternalError m.
Proof.
  intros Hn Hv. unfold getNpmPackageCode. simpl gc_packageName.
  destruct name as [|c name]; [discriminate|]. rewrite Hv.
  unfold liftResult. rewrite bind_pure_outcome, tryCatch_rethrow_outcome.
  destruct (outcome _); intros H; [discriminate | inversion H; eauto].
Qed.

(** What the two file tools do once the metadata and the archive are
    there. *)
Lemma getNpmPackageCode_run (w : World) (name : jsstr)
  (version filePath : option jsstr) (t1 t2 : list Event)
  (info : PackageInfo) (root : jsstr) (disk : node) :
  truthy name = true ->
  validatePackageName name = Ok tt ->
  fetchPackageInfo w name version = (t1, Ok info) ->
  downloadAndExtract w (tarballOf info) name = (t2, Ok (root, disk)) ->
  getNpmPackageCode w
    {| gc_packageName := Some name; gc_version := version;
       gc_filePath := filePath |}
  = let body :=
      if truthyOpt filePath then
        getSpecificFile (cwd w) disk root
          (match filePath with Some p => p | None => [] end)
      else getAllCodeFiles (cwd w) disk root info in
    (t1 ++ t2 ++ trace body,
     match outcome body with
     | Ok r => Ok r
     | Throw e =>
         Throw (McpError InternalError
                  (lit "Failed to fetch package code: " ++ messageOf e))
     end).
Proof.
  intros Hn Hv Hf Hd. unfold getNpmPackageCode. simpl gc_packageName.
  simpl gc_version. simpl gc_filePath.
  destruct name as [|c name]; [discriminate|]. rewrite Hv.
  unfold liftResult. rewrite bind_nil_ok, tryCatch_rethrow.
  rewrite Hf, bind_ok, Hd, bind_ok. simpl fst. simpl snd.
  unfold trace at 1, outcome at 1. simpl fst. simpl snd.
  unfold trace at 1, outcome at 1. simpl fst. simpl snd.
  reflexivity.
Qed.

Lemma getNpmPackageCode_bundle (w : World) (name : jsstr)
  (version filePath : option jsstr) (t1 t2 : list Event)
  (info : PackageInfo) (root : jsstr) (disk : node) :
  truthy name = true ->
  validatePackageName name = Ok tt ->
  truthyOpt filePath = false ->
  fetchPackageInfo w name version = (t1, Ok info) ->
  downloadAndExtract w (tarballOf info) name = (t2, Ok (root, disk)) ->
  getNpmPackageCode w
    {| gc_packageName := Some name; gc_version := version;
       gc_filePath := filePath |}
  = (t1 ++ t2 ++ findCodeFilesCalls (cwd w) disk root,
     Ok {| content := [bundleText (cwd w) root info
                         (findCodeFiles (cwd w) disk root)] |}).
Proof.
  intros Hn Hv Hfp Hf Hd.
  rewrite (getNpmPackageCode_run w name version filePath Hn Hv Hf Hd).
  rewrite Hfp. unfold getAllCodeFiles, emitAll, bind, ret. simpl.
  rewrite app_nil_r. reflexivity.
Qed.

Lemma listPackageFiles_run (w : World) (name : jsstr)
  (version : option jsstr) (t1 t2 : list Event)
  (info : PackageInfo) (root : jsstr) (disk : node) :
  truthy name = true ->
  validatePackageName name = Ok tt ->
  fetchPackageInfo w name version = (t1, Ok info) ->
  downloadAndExtract w (tarballOf info) name = (t2, Ok (root, disk)) ->
  listPackageFiles w {| lf_packageName := Some name; lf_version := version |}
  = (t1 ++ t2 ++ getAllFilesCalls (cwd w) disk root,
     Ok {| content := [listingText name info
                         (fileListOf (cwd w) disk root)] |}).
Proof.
  intros Hn Hv Hf Hd. unfold listPackageFiles. simpl lf_packageName.
  simpl lf_version.
  destruct name as [|c name]; [discriminate|]. rewrite Hv.
  unfold liftResult. rewrite bind_nil_ok, tryCatch_rethrow.
  rewrite Hf, bind_ok, Hd, bind_ok. simpl fst. simpl snd.
  unfold emitAll, bind, ret. simpl. rewrite app_nil_r. reflexivity.
Qed.

(** C3, the path-traversal case: in [get_npm_package_code], when metadata
    and archive were fetched and the requested file path resolves outside
    the extraction root, the error that reaches the caller carries the
    internal-error tag; the invalid-params error of [getSpecificFile] is
    caught and re-thrown by the enclosing [catch]. *)
Theorem traversal_surfaces_as_internal_error (w : World)
  (name filePath : jsstr) (version : option jsstr)
  (t1 t2 : list Event) (info : PackageInfo) (root : jsstr) (disk : node) :
  truthy name = true ->
  validatePackageName name = Ok tt ->
  fetchPackageInfo w name version = (t1, Ok info) ->
  downloadAndExtract w (tarballOf info) name = (t2, Ok (root, disk)) ->
  truthy filePath = true ->
  Path.isAbsolute (cwd w) = true ->
  root <> [] ->
  ~ insideRoot (cwd w) root
      (Path.join root (stripLeadingDotDots (Path.normalize filePath))) ->
  getNpmPackageCode w
    {| gc_packageName := Some name; gc_version := version;
       gc_filePath := Some filePath |}
  = (t1 ++ t2,
     Throw (McpError InternalError
              (lit "Failed to fetch package code: "
               ++ messageOf
                    (McpError InvalidParams
                       (lit "Invalid file path: "
                        ++ messageOf traversalError))))).
Proof.
  intros Hn Hv Hfetch Hdl Hfp Hcwd Hroot Hout.
  unfold getNpmPackageCode. simpl gc_packageName. simpl gc_version.
  simpl gc_filePath.
  destruct name as [|c name]; [discriminate|]. rewrite Hv.
  simpl truthyOpt. rewrite Hfp, Hfetch.
  unfold liftResult, bind at 1 2. cbv iota. rewrite Hdl.
  unfold bind at 1. cbv iota. simpl fst. simpl snd.
  unfold getSpecificFile.
  rewrite (@validateAndResolvePath_outside (cwd w) root filePath Hcwd Hroot Hout).
  simpl. rewrite !app_nil_r. reflexivity.
Qed.

Lemma traversal_surfaces_as_internal_error_witness :
  outcome (getNpmPackageCode servingWorld
             {| gc_packageName := Some (lit "lodash"); gc_version := None;
                gc_filePath := Some (lit "..") |})
  = Throw (McpError InternalError
             (lit "Failed to fetch package code: MCP error -32602: Invalid file path: MCP error -32602: Access denied: Path traversal attempt detected")).
Proof.
  rewrite (@traversal_surfaces_as_internal_error servingWorld (lit "lodash")
             (lit "..") None
             [HttpGet (lit "https://registry.npmjs.org/lodash/latest")]
             [FsExists (lit "/app/build/temp/lodash");
              FsMkdir (lit "/app/build/temp/lodash");
              HttpGet (lit "https://registry.npmjs.org/lodash/-/lodash-4.17.21.tgz")]
             sampleInfo (lit "/app/build/temp/lodash") sampleDisk).
  - reflexivity.
  - reflexivity.
  - reflexivity.
  - reflexivity.
  - reflexivity.
  - reflexivity.
  - reflexivity.
  - discriminate.
  - intros [rest H]. vm_compute in H. discriminate.
Defined.


(* ================================================================= *)
(** ** The extracted tree *)

(** [located es ds f n]: from the directory with entries [es], going down
    through the readable directories [ds], one finds the entry [f], which
    is the node [n]. *)
Inductive located : list (jsstr * node) -> list jsstr -> jsstr -> node -> Prop :=
| located_here es f n :
    In (f, n) es -> located es [] f n
| located_below es d sub ds f n :
    In (d, Dir true sub) es -> located sub ds f n ->
    located es (d :: ds) f n.

(** A tree as a file system holds it: entry names are proper names and
    distinct within a directory. *)
Inductive wfNode : node -> Prop :=
| wf_file r c : wfNode (File r c)
| wf_special : wfNode Special
| wf_dangling : wfNode Dangling
| wf_dir r es :
    Forall (fun e => plain (fst e) /\ wfNode (snd e)) es ->
    NoDup (map fst es) ->
    wfNode (Dir r es).

Section NodeInduction.

Variable P : node -> Prop.
Hypothesis P_file : forall r c, P (File r c).
Hypothesis P_dir :
  forall r es, Forall (fun e => P (snd e)) es -> P (Dir r es).
Hypothesis P_special : P Special.
Hypothesis P_dangling : P Dangling.

Fixpoint node_nested_ind (n : node) : P n :=
  match n with
  | File r c => P_file r c
  | Dir r es =>
      P_dir r
        ((fix children (es : list (jsstr * node))
            : Forall (fun e => P (snd e)) es :=
            match es with
            | [] => Forall_nil _
            | e :: es' =>
                @Forall_cons _ (fun e => P (snd e)) e es'
                  (node_nested_ind (snd e)) (children es')
            end) es)
  | Special => P_special
  | Dangling => P_dangling
  end.

End NodeInduction.

(** The walk on names alone: the relative segments and the content of each
    file a walk keeps, for a directory filter [skip] and a file filter
    [keep] on name and readability. *)
Fixpoint relVisit (skip : jsstr -> bool) (keep : jsstr -> bool -> bool)
  (item : jsstr) (n : node) {struct n} : list (list jsstr * jsstr) :=
  match n with
  | File r c => if keep item r then [([item], c)] else []
  | Dir r es =>
      if negb (skip item) then
        if r then
          map (fun sc => (item :: fst sc, snd sc))
            ((fix walk (es : list (jsstr * node)) :=
                match es with
                | [] => []
                | (i, c) :: es' => relVisit skip keep i c ++ walk es'
                end) es)
        else []
      else []
  | Special => []
  | Dangling => []
  end.

Definition relWalk (skip : jsstr -> bool) (keep : jsstr -> bool -> bool)
  (es : list (jsstr * node)) : list (list jsstr * jsstr) :=
  flat_map (fun e => relVisit skip keep (fst e) (snd e)) es.

Module WalkFacts.

Lemma relVisit_dir skip keep item r es :
  relVisit skip keep item (Dir r es)
  = if negb (skip item) then
      if r then map (fun sc => (item :: fst sc, snd sc)) (relWalk skip keep es)
      else []
    else [].
Proof.
  cbn [relVisit]. destruct (negb (skip item)); [|reflexivity].
  destruct r; [|reflexivity]. f_equal. unfold relWalk.
  induction es as [|[i c] es IH]; [reflexivity|].
  cbn [flat_map fst snd]. rewrite <- IH. reflexivity.
Qed.

Lemma visitCode_dir cur item r es :
  visitCode cur item (Dir r es)
  = if negb (shouldSkipDirectory item) then
      if r then walkCode (Path.join cur item) es else []
    else [].
Proof.
  cbn [visitCode]. destruct (negb (shouldSkipDirectory item)); [|reflexivity].
  destruct r; [|reflexivity]. unfold walkCode.
  induction es as [|[i c] es IH]; [reflexivity|].
  cbn [flat_map fst snd]. rewrite <- IH. reflexivity.
Qed.

Lemma visitAll_dir cur item r es :
  visitAll cur item (Dir r es)
  = if negb (startsWith item [Path.DOT]) then
      if r then walkAll (Path.join cur item) es else []
    else [].
Proof.
  cbn [visitAll]. destruct (negb (startsWith item [Path.DOT])); [|reflexivity].
  destruct r; [|reflexivity]. unfold walkAll.
  induction es as [|[i c] es IH]; [reflexivity|].
  cbn [flat_map fst snd]. rewrite <- IH. reflexivity.
Qed.

Lemma map_flat_map {A B C} (f : B -> C) (g : A -> list B) (l : list A) :
  map f (flat_map g l) = flat_map (fun x => map f (g x)) l.
Proof.
  induction l as [|x l IH]; [reflexivity|].
  simpl. rewrite map_app, IH. reflexivity.
Qed.

Lemma flat_map_ext_Forall {A B} (f g : A -> list B) (l : list A) :
  Forall (fun x => f x = g x) l -> flat_map f l = flat_map g l.
Proof.
  induction 1 as [|x l Hx _ IH]; [reflexivity|].
  simpl. rewrite Hx, IH. reflexivity.
Qed.

Definition codeKeep (item : jsstr) (readable : bool) : bool :=
  isCodeFile item && readable.

Definition toCodeFile (cur : list jsstr) (sc : list jsstr * jsstr) : CodeFile :=
  {| cf_path := absPath (cur ++ fst sc); cf_content := snd sc |}.

(** [findCodeFiles]' walk is the walk on names, each relative path put
    under the directory walked. *)
Lemma visitCode_rel (n : node) :
  wfNode n ->
  forall cur item,
    Forall plain cur -> plain item ->
    visitCode (absPath cur) item n
    = map (toCodeFile cur) (relVisit shouldSkipDirectory codeKeep item n).
Proof.
  induction n as [r c|r es IH| |] using node_nested_ind;
    intros Hwf cur item Hcur Hitem; try reflexivity.
  - cbn [visitCode relVisit]. unfold codeKeep.
    rewrite PathFacts.join_abs_plain by assumption.
    destruct (isCodeFile item), r; reflexivity.
  - rewrite visitCode_dir, relVisit_dir.
    destruct (negb (shouldSkipDirectory item)); [|reflexivity].
    destruct r; [|reflexivity].
    rewrite PathFacts.join_abs_plain by assumption.
    rewrite map_map. unfold relWalk, walkCode. rewrite map_flat_map.
    apply flat_map_ext_Forall.
    inversion Hwf as [| | |r' es' Hes _]; subst.
    rewrite Forall_forall in IH, Hes |- *. intros e He.
    destruct (Hes e He) as [Hname Hsub].
    rewrite (IH e He Hsub (cur ++ [item]) (fst e)); [|
      apply Forall_app; split;
        [assumption | constructor; [assumption | constructor]] |
      assumption].
    apply map_ext. intros sc. unfold toCodeFile. simpl.
    rewrite <- app_assoc. reflexivity.
Qed.

(** The same for [getAllFiles]. *)
Lemma visitAll_rel (n : node) :
  wfNode n ->
  forall cur item,
    Forall plain cur -> plain item ->
    visitAll (absPath cur) item n
    = map (fun sc => absPath (cur ++ fst sc))
        (relVisit (fun d => startsWith d [Path.DOT]) (fun _ _ => true) item n).
Proof.
  induction n as [r c|r es IH| |] using node_nested_ind;
    intros Hwf cur item Hcur Hitem; try reflexivity.
  - cbn [visitAll relVisit map fst].
    rewrite PathFacts.join_abs_plain by assumption. reflexivity.
  - rewrite visitAll_dir, relVisit_dir.
    destruct (negb (startsWith item [Path.DOT])); [|reflexivity].
    destruct r; [|reflexivity].
    rewrite PathFacts.join_abs_plain by assumption.
    rewrite map_map. unfold relWalk, walkAll. rewrite map_flat_map.
    apply flat_map_ext_Forall.
    inversion Hwf as [| | |r' es' Hes _]; subst.
    rewrite Forall_forall in IH, Hes |- *. intros e He.
    destruct (Hes e He) as [Hname Hsub].
    rewrite (IH e He Hsub (cur ++ [item]) (fst e)); [|
      apply Forall_app; split;
        [assumption | constructor; [assumption | constructor]] |
      assumption].
    apply map_ext. intros sc. simpl.
    rewrite <- app_assoc. reflexivity.
Qed.

End WalkFacts.


(* ================================================================= *)
(** ** What the walks keep *)

Module KeepFacts.
Import WalkFacts.

Section Keep.

Variable skip : jsstr -> bool.
Variable keep : jsstr -> bool -> bool.

(** What one visited entry contributes. *)
Definition visited (item : jsstr) (n : node) (segs : list jsstr) (c : jsstr)
  : Prop :=
  (exists r, n = File r c /\ keep item r = true /\ segs = [item])
  \/ (exists sub ds f r,
         n = Dir true sub /\ skip item = false
         /\ located sub ds f (File r c) /\ keep f r = true
         /\ Forall (fun d => skip d = false) ds
         /\ segs = item :: ds ++ [f]).

(** What a walked directory contributes. *)
Definition walked (es : list (jsstr * node)) (segs : list jsstr) (c : jsstr)
  : Prop :=
  exists ds f r,
    located es ds f (File r c) /\ keep f r = true
    /\ Forall (fun d => skip d = false) ds
    /\ segs = ds ++ [f].

Lemma walked_of_visited (es : list (jsstr * node)) (segs : list jsstr)
  (c : jsstr) :
  (exists e, In e es /\ visited (fst e) (snd e) segs c) <-> walked es segs c.
Proof.
  split.
  - intros [[i n] [He Hv]]. simpl in Hv.
    destruct Hv as [[r [-> [Hk ->]]] | [sub [ds [f [r H]]]]].
    + exists [], i, r. repeat split; auto. constructor. exact He.
    + destruct H as [-> [Hs [Hl [Hk [Hds ->]]]]].
      exists (i :: ds), f, r. repeat split; auto.
      econstructor 2; eassumption.
  - intros [ds [f [r [Hl [Hk [Hds ->]]]]]].
    inversion Hl as [es' f' n' Hin | es' d sub ds' f' n' Hin Hsub]; subst.
    + exists (f, File r c). split; [exact Hin|]. left. exists r. auto.
    + exists (d, Dir true sub). split; [exact Hin|]. right.
      inversion Hds; subst.
      exists sub, ds', f, r. repeat split; auto.
Qed.

Lemma relVisit_visited (n : node) :
  forall item segs c,
    In (segs, c) (relVisit skip keep item n) <-> visited item n segs c.
Proof.
  induction n as [r c0|r es IH| |] using node_nested_ind; intros item segs c.
  - cbn [relVisit]. unfold visited. destruct (keep item r) eqn:Hk; split.
    + intros [H|[]]. inversion H; subst. left. exists r. auto.
    + intros [[r' [E [_ ->]]] | [sub [ds [f [r' [E _]]]]]]; [|discriminate].
      inversion E; subst. left. reflexivity.
    + intros [].
    + intros [[r' [E [Hk' _]]] | [sub [ds [f [r' [E _]]]]]]; [|discriminate].
      inversion E; subst. congruence.
  - rewrite relVisit_dir. unfold visited.
    assert (Hwalk : forall segs', In (segs', c) (relWalk skip keep es)
                                  <-> walked es segs' c).
    { intros segs'. rewrite <- walked_of_visited. unfold relWalk.
      rewrite in_flat_map. rewrite Forall_forall in IH.
      split; intros [e [He H]]; exists e; (split; [exact He|]);
        apply (IH e He); exact H. }
    destruct (skip item) eqn:Hs; simpl negb; cbv iota.
    { split; [intros [] |].
      intros [[r' [E _]] | [sub [ds [f [r' [_ [E _]]]]]]]; discriminate. }
    destruct r.
    + rewrite in_map_iff. split.
      * intros [[segs' c'] [E Hin]]. simpl in E. inversion E; subst.
        apply Hwalk in Hin. destruct Hin as [ds [f [r [Hl [Hk [Hds ->]]]]]].
        right. exists es, ds, f, r. repeat split; auto.
      * intros [[r' [E _]] | [sub [ds [f [r' [E [_ [Hl [Hk [Hds ->]]]]]]]]]];
          [discriminate|].
        inversion E; subst sub.
        exists (ds ++ [f], c). split; [reflexivity|].
        apply Hwalk. exists ds, f, r'. auto.
    + split; [intros [] |].
      intros [[r' [E _]] | [sub [ds [f [r' [E _]]]]]]; discriminate.
  - cbn [relVisit]. split; [intros [] |].
    intros [[r' [E _]] | [sub [ds [f [r' [E _]]]]]]; discriminate.
  - cbn [relVisit]. split; [intros [] |].
    intros [[r' [E _]] | [sub [ds [f [r' [E _]]]]]]; discriminate.
Qed.

(** The walk keeps exactly the files located through directories that are
    readable and not skipped, and that the file filter keeps. *)
Lemma relWalk_walked (es : list (jsstr * node)) (segs : list jsstr)
  (c : jsstr) :
  In (segs, c) (relWalk skip keep es) <-> walked es segs c.
Proof.
  rewrite <- walked_of_visited. unfold relWalk. rewrite in_flat_map.
  split; intros [e [He H]]; exists e; (split; [exact He|]);
    apply relVisit_visited; exact H.
Qed.

Lemma relVisit_head (item : jsstr) (n : node) (sc : list jsstr * jsstr) :
  In sc (relVisit skip keep item n) -> exists tl, fst sc = item :: tl.
Proof.
  destruct sc as [segs c]. intros H. apply relVisit_visited in H.
  destruct H as [[r [_ [_ ->]]] | [sub [ds [f [r [_ [_ [_ [_ [_ ->]]]]]]]]]];
    simpl; eauto.
Qed.

Lemma NoDup_map_cons {A} (x : A) (l : list (list A)) :
  NoDup l -> NoDup (map (cons x) l).
Proof.
  induction 1 as [|y l Hy _ IH]; simpl; constructor; [|exact IH].
  intros H. apply in_map_iff in H as [z [E Hz]]. inversion E; subst.
  contradiction.
Qed.

(** Entries with distinct names contribute distinct paths. *)
Lemma relWalk_NoDup_entries (es : list (jsstr * node)) :
  NoDup (map fst es) ->
  (forall e, In e es -> NoDup (map fst (relVisit skip keep (fst e) (snd e)))) ->
  NoDup (map fst (relWalk skip keep es)).
Proof.
  unfold relWalk. induction es as [|e es IHes]; intros Hnd Hall;
    [constructor|].
  simpl in Hnd. inversion Hnd as [|? ? Hnotin Hnd']; subst.
  cbn [flat_map]. rewrite map_app. apply NoDup_app.
  - apply Hall. left. reflexivity.
  - apply IHes; [exact Hnd'|]. intros e' He'. apply Hall. right. exact He'.
  - intros segs H1 H2.
    apply in_map_iff in H1 as [sc1 [E1 H1]].
    apply in_map_iff in H2 as [sc2 [E2 H2]].
    apply relVisit_head in H1 as [tl1 T1].
    apply in_flat_map in H2 as [e' [He' H2]].
    apply relVisit_head in H2 as [tl2 T2].
    apply Hnotin. apply in_map_iff. exists e'. split; [|exact He'].
    congruence.
Qed.

(** No relative path is produced twice. *)
Lemma relVisit_NoDup (n : node) :
  wfNode n -> forall item, NoDup (map fst (relVisit skip keep item n)).
Proof.
  induction n as [r c|r es IH| |] using node_nested_ind; intros Hwf item;
    try (cbn [relVisit map]; constructor).
  - cbn [relVisit]. destruct (keep item r); simpl; repeat constructor. auto.
  - rewrite relVisit_dir.
    destruct (negb (skip item)); [|constructor].
    destruct r; [|constructor].
    rewrite map_map. simpl fst.
    rewrite <- (map_map fst (cons item)).
    apply NoDup_map_cons.
    inversion Hwf as [| | |r' es' Hes Hnd]; subst.
    apply relWalk_NoDup_entries; [exact Hnd|].
    rewrite Forall_forall in IH, Hes. intros e He.
    apply (IH e He). apply (Hes e He).
Qed.

Lemma relWalk_NoDup (es : list (jsstr * node)) :
  wfNode (Dir true es) -> NoDup (map fst (relWalk skip keep es)).
Proof.
  intros Hwf. inversion Hwf as [| | |r' es' Hes Hnd]; subst.
  apply relWalk_NoDup_entries; [exact Hnd|].
  rewrite Forall_forall in Hes. intros e He.
  apply relVisit_NoDup. apply (Hes e He).
Qed.

End Keep.

(** The names on a located path are proper names. *)
Lemma located_plain (es : list (jsstr * node)) (ds : list jsstr) (f : jsstr)
  (n : node) :
  located es ds f n ->
  Forall (fun e => plain (fst e) /\ wfNode (snd e)) es ->
  Forall plain (ds ++ [f]).
Proof.
  induction 1 as [es f n Hin | es d sub ds f n Hin _ IH]; intros Hwf;
    rewrite Forall_forall in Hwf.
  - constructor; [|constructor]. exact (proj1 (Hwf _ Hin)).
  - destruct (Hwf _ Hin) as [Hd Hsub]. simpl in Hd, Hsub.
    inversion Hsub as [| | |r' es' Hes _]; subst.
    constructor; [exact Hd | apply IH; exact Hes].
Qed.

End KeepFacts.


(* ================================================================= *)
(** ** Sorting and relative paths *)

(** The order of the listing. *)
Definition strLe (a b : jsstr) : Prop := strLeb a b = true.

Module ListingFacts.
Import Path PathFacts.

Lemma strLeb_total (a : jsstr) : forall b, strLeb a b = true \/ strLeb b a = true.
Proof.
  induction a as [|x a IH]; intros [|y b]; simpl; auto.
  destruct (N.ltb_spec x y) as [H|H]; [auto|].
  destruct (N.ltb_spec y x) as [H'|H']; [auto|].
  assert (E : x = y) by lia. subst y. rewrite N.eqb_refl. simpl.
  apply IH.
Qed.

Lemma insertSorted_perm (x : jsstr) (l : list jsstr) :
  Permutation (x :: l) (insertSorted x l).
Proof.
  induction l as [|y l IH]; simpl; [reflexivity|].
  destruct (strLeb x y); [reflexivity|].
  rewrite perm_swap. constructor. exact IH.
Qed.

Lemma insertSorted_sorted (x : jsstr) (l : list jsstr) :
  Sorted strLe l -> Sorted strLe (insertSorted x l).
Proof.
  induction 1 as [|y l Hl IH Hhd]; simpl.
  - repeat constructor.
  - destruct (strLeb x y) eqn:E.
    + constructor; [constructor; assumption | constructor; exact E].
    + constructor; [exact IH|].
      assert (Hyx : strLe y x).
      { destruct (strLeb_total x y) as [H|H]; [congruence | exact H]. }
      destruct l as [|z l]; simpl.
      * constructor. exact Hyx.
      * destruct (strLeb x z); constructor; [exact Hyx|].
        inversion Hhd; assumption.
Qed.

Lemma sortStrings_sorted (l : list jsstr) : Sorted strLe (sortStrings l).
Proof.
  induction l as [|x l IH]; simpl; [constructor|].
  apply insertSorted_sorted. exact IH.
Qed.

Lemma sortStrings_perm (l : list jsstr) : Permutation l (sortStrings l).
Proof.
  induction l as [|x l IH]; simpl; [constructor|].
  rewrite <- insertSorted_perm. constructor. exact IH.
Qed.

(** Resolving a normalized absolute path gives its segments back. *)
Lemma resolvedSegs_absPath (cwd : jsstr) (segs : list jsstr) :
  Forall plain segs -> resolvedSegs cwd (absPath segs) = segs.
Proof.
  intros H. unfold resolvedSegs, absPath. cbv iota.
  replace (isAbsolute (SLASH :: joinSlash segs)) with true by reflexivity.
  cbv iota.
  replace (isAbsolute ((SLASH :: joinSlash segs) ++ [SLASH])) with true
    by reflexivity.
  simpl negb.
  change ((SLASH :: joinSlash segs) ++ [SLASH])
    with (SLASH :: (joinSlash segs ++ [SLASH])).
  rewrite split_abs, normSegs_cons_empty.
  rewrite (split_app_slash (joinSlash segs) []), normSegs_app.
  rewrite normSegs_split_joinSlash by exact H.
  rewrite app_nil_r. unfold normSegs. simpl fold_left.
  apply rev_involutive.
Qed.

Lemma dropCommon_prefix (rs segs : list jsstr) :
  dropCommon rs (rs ++ segs) = ([], segs).
Proof.
  induction rs as [|x rs IH]; simpl; [reflexivity|].
  rewrite eqb_refl. exact IH.
Qed.

(** The path of a file below the root, relative to the root. *)
Lemma relative_below (cwd : jsstr) (rs segs : list jsstr) :
  Forall plain rs -> Forall plain segs -> segs <> [] ->
  relative cwd (absPath rs) (absPath (rs ++ segs)) = joinSlash segs.
Proof.
  intros Hrs Hsegs Hne. unfold relative.
  assert (Hall : Forall plain (rs ++ segs)) by (apply Forall_app; auto).
  destruct (eqb (absPath rs) (absPath (rs ++ segs))) eqn:E.
  - exfalso. apply eqb_eq in E.
    apply (f_equal (resolvedSegs cwd)) in E.
    rewrite !resolvedSegs_absPath in E by assumption.
    rewrite <- (app_nil_r rs) in E at 1. apply app_inv_head in E.
    apply Hne. symmetry. exact E.
  - rewrite !resolvedSegs_absPath by assumption.
    rewrite dropCommon_prefix. reflexivity.
Qed.

(** Lists of separator-free segments with the same joined text are the same
    list. *)
Lemma joinSlash_injective (l1 l2 : list jsstr) :
  Forall noSlash l1 -> Forall noSlash l2 -> l1 <> [] -> l2 <> [] ->
  joinSlash l1 = joinSlash l2 -> l1 = l2.
Proof.
  intros H1 H2 N1 N2 E.
  rewrite <- (split_joinSlash H1 N1), <- (split_joinSlash H2 N2), E.
  reflexivity.
Qed.

Lemma NoDup_map_injective_on {A B} (f : A -> B) (l : list A) :
  (forall x y, In x l -> In y l -> f x = f y -> x = y) ->
  NoDup l -> NoDup (map f l).
Proof.
  intros Hinj Hnd. induction Hnd as [|x l Hx _ IH]; simpl; constructor.
  - intros H. apply in_map_iff in H as [y [E Hy]].
    apply Hx. rewrite (Hinj x y); auto; [left; reflexivity | right; exact Hy].
  - apply IH. intros a b Ha Hb. apply Hinj; right; assumption.
Qed.

Lemma arrIncludes_In (arr : list jsstr) (x : jsstr) :
  arrIncludes arr x = true <-> In x arr.
Proof.
  unfold arrIncludes. rewrite existsb_exists. split.
  - intros [y [Hy E]]. apply eqb_eq in E. subst. exact Hy.
  - intros H. exists x. split; [exact H | apply eqb_refl].
Qed.

End ListingFacts.


(* ================================================================= *)
(** ** The code-file walk and the file listing *)

(** The extension of the name, lowercased, is on the allow-list. *)
Definition codeExtension (f : jsstr) : Prop :=
  In (toLowerCase (Path.extname f)) CODE_EXTENSIONS.

(** The name starts with ['.']. *)
Definition hiddenName (d : jsstr) : Prop := exists r, d = Path.DOT :: r.

(** The directory name starts with ['.'] or is on the deny-list. *)
Definition deniedDirectory (d : jsstr) : Prop :=
  hiddenName d \/ In d SKIP_DIRECTORIES.

Lemma startsWith_dot (d : jsstr) :
  startsWith d [Path.DOT] = true <-> hiddenName d.
Proof.
  rewrite startsWith_spec. unfold hiddenName. simpl. tauto.
Qed.

Lemma shouldSkipDirectory_denied (d : jsstr) :
  shouldSkipDirectory d = false <-> ~ deniedDirectory d.
Proof.
  unfold shouldSkipDirectory, deniedDirectory.
  rewrite <- startsWith_dot, <- ListingFacts.arrIncludes_In.
  destruct (startsWith d [Path.DOT]), (arrIncludes SKIP_DIRECTORIES d);
    simpl; split; intros H; try discriminate; try tauto.
  intros [E|E]; discriminate.
Qed.

Lemma isCodeFile_extension (f : jsstr) :
  isCodeFile f = true <-> codeExtension f.
Proof. apply ListingFacts.arrIncludes_In. Qed.

Lemma walkCode_rel (rs : list jsstr) (es : list (jsstr * node)) :
  Forall plain rs -> wfNode (Dir true es) ->
  walkCode (absPath rs) es
  = map (WalkFacts.toCodeFile rs)
      (relWalk shouldSkipDirectory WalkFacts.codeKeep es).
Proof.
  intros Hrs Hwf. inversion Hwf as [| | |r' es' Hes _]; subst.
  unfold walkCode, relWalk. rewrite WalkFacts.map_flat_map.
  apply WalkFacts.flat_map_ext_Forall.
  eapply Forall_impl; [|exact Hes]. intros e [Hname Hsub].
  apply WalkFacts.visitCode_rel; assumption.
Qed.

Lemma walkAll_rel (rs : list jsstr) (es : list (jsstr * node)) :
  Forall plain rs -> wfNode (Dir true es) ->
  walkAll (absPath rs) es
  = map (fun sc => absPath (rs ++ fst sc))
      (relWalk (fun d => startsWith d [Path.DOT]) (fun _ _ => true) es).
Proof.
  intros Hrs Hwf. inversion Hwf as [| | |r' es' Hes _]; subst.
  unfold walkAll, relWalk. rewrite WalkFacts.map_flat_map.
  apply WalkFacts.flat_map_ext_Forall.
  eapply Forall_impl; [|exact Hes]. intros e [Hname Hsub].
  apply WalkFacts.visitAll_rel; assumption.
Qed.

(** C8 (as amended): in a tree as a file system holds it, with the walked
    directory readable, a file is collected by [findCodeFiles], under its
    full path and with its content, if and only if it is a readable regular
    file located through readable directories, its extension (lowercased)
    is on the allow-list, and no directory on its path from the root starts
    with ['.'] or is on the deny-list. *)
Theorem code_walk_keeps_exactly (cwd : jsstr) (disk : node)
  (rs : list jsstr) (es : list (jsstr * node)) :
  Forall plain rs ->
  Fs.lookup cwd disk (absPath rs) = Some (Dir true es) ->
  wfNode (Dir true es) ->
  forall cf,
    In cf (findCodeFiles cwd disk (absPath rs))
    <-> exists ds f,
          located es ds f (File true (cf_content cf))
          /\ codeExtension f
          /\ Forall (fun d => ~ deniedDirectory d) ds
          /\ cf_path cf = absPath (rs ++ ds ++ [f]).
Proof.
  intros Hrs Hlook Hwf cf. unfold findCodeFiles. rewrite Hlook.
  rewrite walkCode_rel by assumption. rewrite in_map_iff. split.
  - intros [[segs c] [E Hin]]. subst cf.
    apply KeepFacts.relWalk_walked in Hin
      as [ds [f [r [Hl [Hk [Hds ->]]]]]].
    unfold WalkFacts.codeKeep in Hk. apply andb_true_iff in Hk as [Hk ->].
    exists ds, f. simpl. repeat split; auto.
    + apply isCodeFile_extension. exact Hk.
    + eapply Forall_impl; [|exact Hds]. intros d.
      apply shouldSkipDirectory_denied.
  - intros [ds [f [Hl [Hext [Hds Hpath]]]]].
    exists (ds ++ [f], cf_content cf). split.
    + destruct cf as [p c]. simpl in *. subst p. reflexivity.
    + apply KeepFacts.relWalk_walked. exists ds, f, true.
      repeat split; auto.
      * unfold WalkFacts.codeKeep. apply andb_true_iff. split; [|reflexivity].
        apply isCodeFile_extension. exact Hext.
      * eapply Forall_impl; [|exact Hds]. intros d.
        apply shouldSkipDirectory_denied.
Qed.

Lemma plain_of_lit_segments :
  Forall plain [lit "app"; lit "build"; lit "temp"; lit "lodash"].
Proof.
  repeat constructor; try discriminate;
    intros H; simpl in H; unfold Path.SLASH in H;
    repeat (destruct H as [H|H]; [discriminate|]); exact H.
Qed.

Lemma plain_decide (s : jsstr) :
  negb (eqb s []) && negb (eqb s [Path.DOT]) && negb (eqb s Path.dotdot)
  && negb (existsb (N.eqb Path.SLASH) s) = true -> plain s.
Proof.
  rewrite !andb_true_iff, !negb_true_iff, !eqb_neq. intros [[[H0 H1] H2] H3].
  repeat split; auto. intros Hin.
  assert (E : existsb (N.eqb Path.SLASH) s = true).
  { apply existsb_exists. exists Path.SLASH. split; [exact Hin | apply N.eqb_refl]. }
  congruence.
Qed.

Lemma samplePackage_wf : wfNode (Dir true samplePackage).
Proof.
  unfold samplePackage.
  repeat (first
    [ apply wf_file
    | apply wf_dir
    | apply Forall_cons
    | apply Forall_nil
    | split
    | apply plain_decide; reflexivity
    | apply NoDup_nil
    | apply NoDup_cons; [simpl; intros H;
        repeat (destruct H as [H|H]; [discriminate|]); exact H|] ]).
Qed.

Lemma code_walk_keeps_exactly_witness :
  In {| cf_path := lit "/app/build/temp/lodash/lib/a.TS";
        cf_content := lit "export {}" |}
     (findCodeFiles (lit "/app") sampleDisk (lit "/app/build/temp/lodash")).
Proof.
  apply (proj2 (@code_walk_keeps_exactly (lit "/app") sampleDisk
                  [lit "app"; lit "build"; lit "temp"; lit "lodash"]
                  samplePackage plain_of_lit_segments eq_refl samplePackage_wf
                  {| cf_path := lit "/app/build/temp/lodash/lib/a.TS";
                     cf_content := lit "export {}" |})).
  exists [lit "lib"], (lit "a.TS"). repeat split.
  - econstructor 2.
    + unfold samplePackage. right; right; right; right; left. reflexivity.
    + constructor. left. reflexivity.
  - unfold codeExtension. vm_compute. auto.
  - constructor; [|constructor]. apply shouldSkipDirectory_denied. reflexivity.
Defined.

(** C8 as stated fails: [lib/secret.js] has an allowed extension and no
    denied directory on its path, yet it is not collected, because it cannot
    be read. *)
Lemma unreadable_code_file_not_collected :
  lookupSegs (Dir true samplePackage) [lit "lib"; lit "secret.js"]
  = Some (File false (lit "x"))
  /\ isCodeFile (lit "secret.js") = true
  /\ shouldSkipDirectory (lit "lib") = false
  /\ existsb (fun cf => eqb (cf_path cf) (lit "/app/build/temp/lodash/lib/secret.js"))
       (findCodeFiles (lit "/app") sampleDisk (lit "/app/build/temp/lodash"))
     = false.
Proof. repeat split; vm_compute; reflexivity. Qed.


(** The listing before sorting: the joined relative segments of the files
    the walk keeps. *)
Lemma listing_unsorted (cwd : jsstr) (rs : list jsstr)
  (es : list (jsstr * node)) :
  Forall plain rs -> wfNode (Dir true es) ->
  map (fun filePath => Path.relative cwd (absPath rs) filePath)
      (walkAll (absPath rs) es)
  = map Path.joinSlash
      (map fst (relWalk (fun d => startsWith d [Path.DOT])
                        (fun _ _ => true) es)).
Proof.
  intros Hrs Hwf. rewrite walkAll_rel by assumption. rewrite !map_map.
  apply map_ext_in. intros [segs c] Hin. simpl.
  apply KeepFacts.relWalk_walked in Hin as [ds [f [r [Hl [_ [_ ->]]]]]].
  inversion Hwf as [| | |r' es' Hes _]; subst.
  apply ListingFacts.relative_below; [exact Hrs | |].
  - eapply KeepFacts.located_plain; eassumption.
  - intros E. apply app_eq_nil in E as [_ E]. discriminate.
Qed.

(** The listing of a tree as a file system holds it: sorted, without
    repetition, and exactly the relative paths of the regular files located
    through readable directories none of whose names starts with ['.']. *)
Lemma fileListOf_exact (cwd : jsstr) (disk : node)
  (rs : list jsstr) (es : list (jsstr * node)) :
  Forall plain rs ->
  Fs.lookup cwd disk (absPath rs) = Some (Dir true es) ->
  wfNode (Dir true es) ->
  let fileList := fileListOf cwd disk (absPath rs) in
  Sorted strLe fileList
  /\ NoDup fileList
  /\ (forall p,
        In p fileList
        <-> exists ds f r c,
              located es ds f (File r c)
              /\ Forall (fun d => ~ hiddenName d) ds
              /\ p = Path.joinSlash (ds ++ [f]))
  /\ (forall ds f n ds' f' n',
        located es ds f n -> located es ds' f' n' ->
        Path.joinSlash (ds ++ [f]) = Path.joinSlash (ds' ++ [f']) ->
        ds = ds' /\ f = f')
.
Proof.
  intros Hrs Hlook Hwf fileList.
  assert (Hes : Forall (fun e => plain (fst e) /\ wfNode (snd e)) es).
  { inversion Hwf; assumption. }
  set (kept := relWalk (fun d => startsWith d [Path.DOT]) (fun _ _ => true) es).
  assert (Elist : fileList = sortStrings (map Path.joinSlash (map fst kept))).
  { unfold fileList, fileListOf, getAllFiles. rewrite Hlook.
    rewrite listing_unsorted by assumption. reflexivity. }
  assert (Hkept : forall segs, In segs (map fst kept) ->
                               Forall noSlash segs /\ segs <> []).
  { intros segs H. apply in_map_iff in H as [[segs' c] [E Hin]].
    simpl in E. subst segs'.
    apply KeepFacts.relWalk_walked in Hin as [ds [f [r [Hl [_ [_ ->]]]]]].
    split.
    - eapply Forall_impl; [apply PathFacts.plain_noSlash|].
      eapply KeepFacts.located_plain; eassumption.
    - intros E. apply app_eq_nil in E as [_ E]. discriminate. }
  split; [rewrite Elist; apply ListingFacts.sortStrings_sorted|].
  split.
  { rewrite Elist. eapply Permutation_NoDup;
      [apply ListingFacts.sortStrings_perm|].
    apply ListingFacts.NoDup_map_injective_on.
    - intros x y Hx Hy E. destruct (Hkept x Hx), (Hkept y Hy).
      apply ListingFacts.joinSlash_injective; assumption.
    - apply KeepFacts.relWalk_NoDup. exact Hwf. }
  split.
  { intros p. rewrite Elist. split.
    - intros H.
      apply (Permutation_in _ (Permutation_sym (ListingFacts.sortStrings_perm _)))
        in H.
      apply in_map_iff in H as [segs [E H]].
      apply in_map_iff in H as [[segs' c] [E' Hin]]. simpl in E'. subst segs'.
      apply KeepFacts.relWalk_walked in Hin as [ds [f [r [Hl [_ [Hds ->]]]]]].
      exists ds, f, r, c. repeat split; auto.
      eapply Forall_impl; [|exact Hds]. intros d Hd Hh.
      apply startsWith_dot in Hh. congruence.
    - intros [ds [f [r [c [Hl [Hds ->]]]]]].
      apply (Permutation_in _ (ListingFacts.sortStrings_perm _)).
      apply in_map. apply in_map_iff. exists (ds ++ [f], c).
      split; [reflexivity|].
      apply KeepFacts.relWalk_walked. exists ds, f, r. repeat split; auto.
      eapply Forall_impl; [|exact Hds]. intros d Hd.
      destruct (startsWith d [Path.DOT]) eqn:E; [|reflexivity].
      exfalso. apply Hd. apply startsWith_dot. exact E. }
  { intros ds f n ds' f' n' Hl Hl' E.
    apply ListingFacts.joinSlash_injective in E.
    - apply app_inj_tail in E. exact E.
    - eapply Forall_impl; [apply PathFacts.plain_noSlash|].
      eapply KeepFacts.located_plain; eassumption.
    - eapply Forall_impl; [apply PathFacts.plain_noSlash|].
      eapply KeepFacts.located_plain; eassumption.
    - intros H. apply app_eq_nil in H as [_ H]. discriminate.
    - intros H. apply app_eq_nil in H as [_ H]. discriminate. }
Qed.

(** C6 (as amended): when the metadata and the archive were fetched, and the
    extraction directory is a readable directory of a tree as a file system
    holds it, [list_package_files] returns one text: the package and its
    version, the total, and the listing, one path per line.  The listing is
    sorted and without repetition; a path is listed if and only if it is the
    relative path of a regular file located through readable directories
    none of whose names starts with ['.']; different files have different
    relative paths; and the total is the length of the listing. *)
Theorem listing_sorted_exact (w : World) (name : jsstr)
  (version : option jsstr) (t1 t2 : list Event) (info : PackageInfo)
  (rs : list jsstr) (disk : node) (es : list (jsstr * node)) :
  truthy name = true ->
  validatePackageName name = Ok tt ->
  fetchPackageInfo w name version = (t1, Ok info) ->
  downloadAndExtract w (tarballOf info) name = (t2, Ok (absPath rs, disk)) ->
  Forall plain rs ->
  Fs.lookup (cwd w) disk (absPath rs) = Some (Dir true es) ->
  wfNode (Dir true es) ->
  exists fileList,
    outcome (listPackageFiles w
               {| lf_packageName := Some name; lf_version := version |})
    = Ok {| content :=
              [lit "Package: " ++ name ++ lit "@" ++ pi_version info ++ NL
               ++ lit "Total files: "
               ++ ofN (N.of_nat (List.length fileList)) ++ NL ++ NL
               ++ lit "Files:" ++ NL ++ joinWith NL fileList] |}
    /\ Sorted strLe fileList
    /\ NoDup fileList
    /\ (forall p,
          In p fileList
          <-> exists ds f r c,
                located es ds f (File r c)
                /\ Forall (fun d => ~ hiddenName d) ds
                /\ p = Path.joinSlash (ds ++ [f]))
    /\ (forall ds f n ds' f' n',
          located es ds f n -> located es ds' f' n' ->
          Path.joinSlash (ds ++ [f]) = Path.joinSlash (ds' ++ [f']) ->
          ds = ds' /\ f = f').
Proof.
  intros Hn Hv Hf Hd Hrs Hlook Hwf.
  exists (fileListOf (cwd w) disk (absPath rs)).
  rewrite (listPackageFiles_run w name version Hn Hv Hf Hd).
  split; [reflexivity|].
  exact (@fileListOf_exact (cwd w) disk rs es Hrs Hlook Hwf).
Qed.

Lemma listing_sorted_exact_witness :
  exists fileList,
    outcome (listPackageFiles servingWorld
               {| lf_packageName := Some (lit "lodash"); lf_version := None |})
    = Ok {| content :=
              [lit "Package: lodash@4.17.21" ++ NL
               ++ lit "Total files: "
               ++ ofN (N.of_nat (List.length fileList)) ++ NL ++ NL
               ++ lit "Files:" ++ NL ++ joinWith NL fileList] |}
    /\ Sorted strLe fileList /\ NoDup fileList
    /\ In (lit "node_modules/dep.js") fileList.
Proof.
  destruct (@listing_sorted_exact servingWorld (lit "lodash") None
              [HttpGet (lit "https://registry.npmjs.org/lodash/latest")]
              [FsExists (lit "/app/build/temp/lodash");
               FsMkdir (lit "/app/build/temp/lodash");
               HttpGet (lit "https://registry.npmjs.org/lodash/-/lodash-4.17.21.tgz")]
              sampleInfo [lit "app"; lit "build"; lit "temp"; lit "lodash"]
              sampleDisk samplePackage eq_refl eq_refl eq_refl eq_refl
              plain_of_lit_segments eq_refl samplePackage_wf)
    as [fileList [Hout [Hs [Hn [Hin _]]]]].
  exists fileList. split; [exact Hout|]. split; [exact Hs|]. split; [exact Hn|].
  apply Hin. exists [lit "node_modules"], (lit "dep.js"), true, (lit "0").
  split; [|split].
  - econstructor 2.
    + unfold samplePackage. do 5 right. left. reflexivity.
    + constructor. left. reflexivity.
  - constructor; [|constructor]. intros [r E]. discriminate.
  - reflexivity.
Defined.


(** C6 as stated fails: [.github/ci.yml] is a regular file under the
    extraction root and is not listed, because [getAllFiles] does not
    descend into directories whose name starts with ['.']. *)
Lemma hidden_directory_not_listed :
  lookupSegs (Dir true samplePackage) [lit ".github"; lit "ci.yml"]
  = Some (File true (lit "on: push"))
  /\ arrIncludes
       (fileListOf (lit "/app") sampleDisk (lit "/app/build/temp/lodash"))
       (lit ".github/ci.yml")
     = false
  /\ List.length
       (fileListOf (lit "/app") sampleDisk (lit "/app/build/temp/lodash"))
     = 7%nat
  /\ outcome (listPackageFiles servingWorld
                {| lf_packageName := Some (lit "lodash"); lf_version := None |})
     = Ok {| content :=
               [lit "Package: lodash@4.17.21" ++ NL ++ lit "Total files: 7"
                ++ NL ++ NL ++ lit "Files:" ++ NL
                ++ joinWith NL
                     [lit "README.md"; lit "index.js"; lit "lib/.json";
                      lit "lib/a.TS"; lit "lib/secret.js";
                      lit "node_modules/dep.js"; lit "package.json"]] |}.
Proof. repeat split; vm_compute; reflexivity. Qed.


(* ================================================================= *)
(** ** The popular-packages cache *)

(** Every summary a fetch returns starts with the header, so it is a
    truthy string. *)
Lemma fetchPopular_truthy (w : World) (t : list Event) (text : jsstr) :
  fetchPopular w = (t, Ok text) -> truthy text = true.
Proof.
  unfold fetchPopular.
  destruct (collectPopular w popularQueries ([], [])) as [t0 [seen|e]];
    simpl; [|discriminate].
  destruct (formatPopular w (snd seen)) as [body|e]; simpl; [|discriminate].
  intros H. inversion H. reflexivity.
Qed.

(** A read that finds the cache fresh returns it, contacts nobody and
    leaves the state alone. *)
Lemma getPopularPackages_hit (w : World) (now : Z) (st : ServerState)
  (summary : jsstr) :
  popularPackagesCache st = Some summary ->
  truthy summary = true ->
  (now - popularPackagesCacheTime st < CACHE_DURATION)%Z ->
  getPopularPackages w now st = (([], Ok (popularResource summary)), st).
Proof.
  intros Hc Ht Hnow. unfold getPopularPackages, cacheFresh.
  rewrite Hc. simpl truthyOpt. rewrite Ht.
  apply Z.ltb_lt in Hnow. rewrite Hnow. reflexivity.
Qed.

(** What a read that fetches does to the state. *)
Lemma getPopularPackages_miss (w : World) (now : Z) (st : ServerState) :
  cacheFresh now st = false ->
  (exists t text,
      fetchPopular w = (t, Ok text)
      /\ getPopularPackages w now st
         = ((t, Ok (popularResource text)),
            {| popularPackagesCache := Some text;
               popularPackagesCacheTime := now |}))
  \/ (exists t e,
         getPopularPackages w now st = ((t, Throw e), st)).
Proof.
  intros Hm. unfold getPopularPackages. rewrite Hm.
  destruct (fetchPopular w) as [t [text|e]]; [left | right]; eauto.
Qed.

Lemma readAll_fresh (w : World) (t : Z) (summary : jsstr) (times : list Z) :
  truthy summary = true ->
  Forall (fun t' => (t' - t < CACHE_DURATION)%Z) times ->
  let st := {| popularPackagesCache := Some summary;
               popularPackagesCacheTime := t |} in
  readAll w times st
  = (map (fun _ => ([], Ok (popularResource summary))) times, st).
Proof.
  intros Ht Hall st. induction Hall as [|t' times Ht' _ IH]; [reflexivity|].
  simpl readAll.
  rewrite (@getPopularPackages_hit w t' st summary eq_refl Ht Ht').
  rewrite IH. reflexivity.
Qed.

(** C4: if the read at time [t] fetched successfully and returned
    [summary], it stored [summary] with time [t]; then in every sequence of
    later reads whose times [t'] satisfy [t' - t < 24 h], each read returns
    the stored summary with no request to the registry, and the stored
    summary and its time are unchanged.  And any read that changes the
    state found the cache unset or at least 24 h old, and replaced both
    fields. *)
Theorem popular_cache_ttl (w : World) :
  (forall t st summary times,
      cacheFresh t st = false ->
      outcome (fst (getPopularPackages w t st)) = Ok (popularResource summary) ->
      Forall (fun t' => (t' - t < 24 * 60 * 60 * 1000)%Z) times ->
      let st1 := snd (getPopularPackages w t st) in
      st1 = {| popularPackagesCache := Some summary;
               popularPackagesCacheTime := t |}
      /\ fst (readAll w times st1)
         = map (fun _ => ([], Ok (popularResource summary))) times
      /\ snd (readAll w times st1) = st1)
  /\ (forall now st,
        snd (getPopularPackages w now st) <> st ->
        (truthyOpt (popularPackagesCache st) = false
         \/ (24 * 60 * 60 * 1000 <= now - popularPackagesCacheTime st)%Z)
        /\ exists text,
            outcome (fst (getPopularPackages w now st))
            = Ok (popularResource text)
            /\ snd (getPopularPackages w now st)
               = {| popularPackagesCache := Some text;
                    popularPackagesCacheTime := now |}).
Proof.
  split.
  - intros t st summary times Hmiss Hok Hall st1.
    destruct (getPopularPackages_miss w t st Hmiss)
      as [[tr [text [Hf E]]] | [tr [e E]]].
    + subst st1. rewrite E in *. simpl in Hok. inversion Hok; subst text.
      simpl snd. split; [reflexivity|].
      rewrite readAll_fresh;
        [auto | exact (fetchPopular_truthy w Hf) | exact Hall].
    + rewrite E in Hok. discriminate.
  - intros now st Hch.
    destruct (cacheFresh now st) eqn:Hf.
    + exfalso. apply Hch. unfold getPopularPackages. rewrite Hf. reflexivity.
    + split.
      * unfold cacheFresh in Hf. apply andb_false_iff in Hf as [Hf|Hf];
          [left; exact Hf | right].
        apply Z.ltb_ge in Hf. exact Hf.
      * destruct (getPopularPackages_miss w now st Hf)
          as [[tr [text [_ E]]] | [tr [e E]]].
        -- exists text. rewrite E. auto.
        -- exfalso. apply Hch. rewrite E. reflexivity.
Qed.

Lemma popular_cache_ttl_witness :
  let st1 := snd (getPopularPackages silentWorld 1000 initialState) in
  let summary := popularHeader ++ lit "Updated: 2025-01-01T00:00:00.000Z"
                 ++ NL ++ NL in
  st1 = {| popularPackagesCache := Some summary;
           popularPackagesCacheTime := 1000 |}
  /\ fst (readAll silentWorld [2000; 86400999; 5]%Z st1)
     = map (fun _ => ([], Ok (popularResource summary))) [2000; 86400999; 5]%Z
  /\ snd (readAll silentWorld [2000; 86400999; 5]%Z st1) = st1.
Proof.
  apply (proj1 (popular_cache_ttl silentWorld) 1000%Z initialState).
  - reflexivity.
  - reflexivity.
  - repeat constructor.
Defined.


(* ================================================================= *)
(** ** The bundle of code files *)

(** The three header lines of a bundle. *)
Definition bundleHeader (packageInfo : PackageInfo) (found : nat) : jsstr :=
  ((lit "Package: " ++ pi_name packageInfo ++ lit "@"
    ++ pi_version packageInfo ++ NL)
   ++ lit "Description: "
   ++ descriptionOr (pi_description packageInfo) (lit "No description") ++ NL)
  ++ lit "Code files found: " ++ ofN (N.of_nat found) ++ NL ++ NL.

(** The part of a bundle that shows one file. *)
Definition fileSection (cwd extractedPath : jsstr) (file : CodeFile) : jsstr :=
  (lit "=== " ++ Path.relative cwd extractedPath (cf_path file)
   ++ lit " ===" ++ NL)
  ++ cf_content file ++ NL ++ NL.

(** The trailing notice for [more] files left out. *)
Definition remainderNotice (more : nat) : jsstr :=
  (lit "... and " ++ ofN (N.of_nat more) ++ lit " more files" ++ NL)
  ++ lit "Use 'list_package_files' tool to see all files, then fetch specific files as needed."
  ++ NL.

(** The text of a bundle, part by part. *)
Lemma bundleText_shape (cwd extractedPath : jsstr)
  (packageInfo : PackageInfo) (codeFiles : list CodeFile) :
  let shown := firstn 20 codeFiles in
  let total := List.length codeFiles in
  bundleText cwd extractedPath packageInfo codeFiles
  = bundleHeader packageInfo total
    ++ List.concat (map (fileSection cwd extractedPath) shown)
    ++ (if (20 <? total)%nat then remainderNotice (total - 20) else []).
Proof.
  intros shown total.
  - unfold bundleText, MAX_CODE_FILES. fold shown. fold total.
    assert (E : forall l init,
               fold_left
                 (fun acc file =>
                    (acc ++ lit "=== "
                     ++ Path.relative cwd extractedPath (cf_path file)
                     ++ lit " ===" ++ NL)
                    ++ cf_content file ++ NL ++ NL) l init
               = init ++ List.concat (map (fileSection cwd extractedPath) l)).
    { induction l as [|f l IH]; intros init; cbn [fold_left map List.concat].
      - symmetry. apply app_nil_r.
      - rewrite IH. unfold fileSection. rewrite <- !app_assoc. reflexivity. }
    rewrite E. fold (bundleHeader packageInfo total).
    destruct (20 <? total)%nat.
    + unfold remainderNotice. rewrite <- !app_assoc. reflexivity.
    + rewrite app_nil_r. reflexivity.
Qed.

(** A world in which the extracted package holds 22 code files. *)
Definition manyFiles : list (jsstr * node) :=
  map (fun i => (lit "f" ++ ofN (N.of_nat i) ++ lit ".js", File true (lit "x")))
      (seq 0 22).

Definition manyFilesWorld : World :=
  {| cwd := cwd servingWorld;
     dirname := dirname servingWorld;
     registry := registry servingWorld;
     parsePackageInfo := parsePackageInfo servingWorld;
     parseSearchResponse := parseSearchResponse servingWorld;
     diskBefore := diskBefore servingWorld;
     rmSync := rmSync servingWorld;
     mkdirSync := mkdirSync servingWorld;
     download :=
       fun _ _ =>
         Extracted
           (Dir true
              [(lit "app",
                Dir true
                  [(lit "build",
                    Dir true
                      [(lit "temp",
                        Dir true [(lit "lodash", Dir true manyFiles)])])])]);
     formatSearchResults := formatSearchResults servingWorld;
     isoNow := isoNow servingWorld;
     formatPopular := formatPopular servingWorld |}.

(** C5: when the metadata and the archive were fetched and no file path is
    given, [get_npm_package_code] returns the text [getAllCodeFiles] builds
    from the files [findCodeFiles] found: the header with their number, the
    sections of the first [MAX_CODE_FILES] of them and of no others, so of at
    most 20, and then the notice of the exact remainder when more than 20
    were found, and nothing when 20 or fewer were found. *)
Theorem bundle_shows_at_most_max (w : World) (name : jsstr)
  (version filePath : option jsstr) (t1 t2 : list Event)
  (info : PackageInfo) (root : jsstr) (disk : node) :
  truthy name = true ->
  validatePackageName name = Ok tt ->
  truthyOpt filePath = false ->
  fetchPackageInfo w name version = (t1, Ok info) ->
  downloadAndExtract w (tarballOf info) name = (t2, Ok (root, disk)) ->
  let codeFiles := findCodeFiles (cwd w) disk root in
  let shown := firstn 20 codeFiles in
  let total := List.length codeFiles in
  let text :=
    bundleHeader info total
    ++ List.concat (map (fileSection (cwd w) root) shown)
    ++ (if (20 <? total)%nat then remainderNotice (total - 20) else []) in
  outcome (getNpmPackageCode w
             {| gc_packageName := Some name; gc_version := version;
                gc_filePath := filePath |})
  = Ok {| content := [text] |}
  /\ outcome (getAllCodeFiles (cwd w) disk root info)
     = Ok {| content := [text] |}
  /\ List.length shown = Nat.min 20 total
  /\ (List.length shown <= 20)%nat.
Proof.
  intros Hn Hv Hfp Hf Hd codeFiles shown total text.
  rewrite (getNpmPackageCode_bundle w name version filePath Hn Hv Hfp Hf Hd).
  fold codeFiles.
  rewrite (bundleText_shape (cwd w) root info codeFiles).
  split; [reflexivity|]. split.
  - unfold getAllCodeFiles, emitAll, bind, ret. simpl. fold codeFiles.
    rewrite (bundleText_shape (cwd w) root info codeFiles). reflexivity.
  - split; [apply length_firstn | apply firstn_le_length].
Qed.


Lemma bundle_shows_at_most_max_witness :
  exists before,
    outcome (getNpmPackageCode manyFilesWorld
               {| gc_packageName := Some (lit "lodash"); gc_version := None;
                  gc_filePath := None |})
    = Ok {| content :=
              [before ++ lit "=== f19.js ===" ++ NL ++ lit "x" ++ NL ++ NL
               ++ lit "... and 2 more files" ++ NL
               ++ lit "Use 'list_package_files' tool to see all files, then fetch specific files as needed."
               ++ NL] |}.
Proof.
  set (disk :=
         Dir true
           [(lit "app",
             Dir true
               [(lit "build",
                 Dir true
                   [(lit "temp",
                     Dir true [(lit "lodash", Dir true manyFiles)])])])]).
  destruct (@bundle_shows_at_most_max manyFilesWorld (lit "lodash") None None
              [HttpGet (lit "https://registry.npmjs.org/lodash/latest")]
              [FsExists (lit "/app/build/temp/lodash");
               FsMkdir (lit "/app/build/temp/lodash");
               HttpGet (lit "https://registry.npmjs.org/lodash/-/lodash-4.17.21.tgz")]
              sampleInfo (lit "/app/build/temp/lodash") disk
              eq_refl eq_refl eq_refl eq_refl eq_refl) as [E _].
  rewrite E. clear E.
  exists (bundleHeader sampleInfo 22
          ++ List.concat
               (map (fileSection (lit "/app") (lit "/app/build/temp/lodash"))
                    (firstn 19 (findCodeFiles (lit "/app") disk
                                  (lit "/app/build/temp/lodash"))))).
  vm_compute. reflexivity.
Defined.


(* ================================================================= *)
(** ** Searching the registry *)

Definition whiteSpaceOnly (s : jsstr) : Prop :=
  Forall (fun c => isWhiteSpace c = true) s.

(** A query that is missing, empty or made of white space only. *)
Definition blankQuery (q : option jsstr) : Prop :=
  match q with
  | None => True
  | Some s => whiteSpaceOnly s
  end.

Lemma trimStart_nil (s : jsstr) : trimStart s = [] <-> whiteSpaceOnly s.
Proof.
  unfold whiteSpaceOnly. induction s as [|c s IH]; simpl.
  - split; auto.
  - destruct (isWhiteSpace c) eqn:E.
    + rewrite IH. split; [auto | intros H; inversion H; auto].
    + split; [discriminate | intros H; inversion H; congruence].
Qed.

Lemma trimStart_whiteSpaceOnly (s : jsstr) :
  whiteSpaceOnly (trimStart s) <-> whiteSpaceOnly s.
Proof.
  unfold whiteSpaceOnly. induction s as [|c s IH]; simpl; [tauto|].
  destruct (isWhiteSpace c) eqn:E; [|tauto].
  rewrite IH. split; [auto | intros H; inversion H; auto].
Qed.

Lemma trim_nil (s : jsstr) : trim s = [] <-> whiteSpaceOnly s.
Proof.
  unfold trim. rewrite <- trimStart_whiteSpaceOnly.
  split.
  - intros H. apply (f_equal (@rev N)) in H. rewrite rev_involutive in H.
    simpl in H. apply trimStart_nil in H. unfold whiteSpaceOnly in *.
    apply Forall_rev in H. rewrite rev_involutive in H. exact H.
  - intros H. unfold whiteSpaceOnly in H. apply Forall_rev in H.
    apply trimStart_nil in H. rewrite H. reflexivity.
Qed.

Lemma truthy_trim (s : jsstr) : truthy (trim s) = false <-> whiteSpaceOnly s.
Proof.
  rewrite <- trim_nil. destruct (trim s); simpl; split; congruence.
Qed.

Lemma performPackageSearch_trace (w : World) (q : jsstr)
  (size from : JsNumber.number) :
  trace (performPackageSearch w q size from)
  = match Uri.encodeURIComponent q with
    | Some e => [HttpGet (searchUrl e size from)]
    | None => []
    end.
Proof.
  unfold performPackageSearch.
  destruct (Uri.encodeURIComponent q) as [e|]; [|reflexivity].
  destruct (registry w (searchUrl e size from)) as [d| |]; try reflexivity.
  destruct (parseSearchResponse w d); reflexivity.
Qed.

Definition sizeOf (args : SearchPackagesArgs) : JsNumber.number :=
  match sa_size args with Some s => s | None => 20%float end.

Definition fromOf (args : SearchPackagesArgs) : JsNumber.number :=
  match sa_from args with Some f => f | None => 0%float end.

(** The size exceeds 250: the comparison [size > 250] of numbers holds. *)
Definition oversized (args : SearchPackagesArgs) : Prop :=
  JsNumber.gtb (sizeOf args) 250 = true.

(** C9 (as amended): [searchNpmPackages] throws an invalid-params error
    exactly when the query is missing, empty or white space only, or the
    size exceeds 250, and then sends nothing; otherwise, when the trimmed
    query can be URI-encoded, it sends exactly one search request, for the
    trimmed query, the size (default 20) and the offset (default 0), the two
    numbers written as JavaScript prints them. *)
Theorem search_validation_and_request (w : World) (args : SearchPackagesArgs) :
  ((exists m, outcome (searchNpmPackages w args)
              = Throw (McpError InvalidParams m))
   <-> (blankQuery (sa_query args) \/ oversized args))
  /\ (blankQuery (sa_query args) \/ oversized args ->
      trace (searchNpmPackages w args) = [])
  /\ (forall q e,
        sa_query args = Some q ->
        ~ whiteSpaceOnly q ->
        ~ oversized args ->
        Uri.encodeURIComponent (trim q) = Some e ->
        trace (searchNpmPackages w args)
        = [HttpGet
             (lit "https://registry.npmjs.org/-/v1/search?text=" ++ e
              ++ lit "&size=" ++ JsNumber.toString (sizeOf args)
              ++ lit "&from=" ++ JsNumber.toString (fromOf args)
              ++ lit "&quality=0.65&popularity=0.98&maintenance=0.5")]).
Proof.
  unfold searchNpmPackages, oversized, sizeOf, fromOf, blankQuery.
  destruct (sa_query args) as [q|]; cycle 1.
  { split; [split; [auto | intros _; eexists; reflexivity] |].
    split; [reflexivity | discriminate]. }
  destruct (truthy (trim q)) eqn:Ht; simpl negb; cbv iota.
  - assert (Hq : ~ whiteSpaceOnly q).
    { intros H. apply truthy_trim in H. congruence. }
    set (size := match sa_size args with Some s => s | None => 20%float end).
    set (from := match sa_from args with Some f => f | None => 0%float end).
    destruct (JsNumber.gtb size 250) eqn:Hs.
    + split; [split; [intros _; right; reflexivity
                     | intros _; eexists; reflexivity] |].
      split; [reflexivity | intros q' e _ _ H; exfalso; apply H; reflexivity].
    + rewrite tryCatch_rethrow_outcome, tryCatch_rethrow_trace.
      rewrite bind_trace_pure, performPackageSearch_trace.
      * split; [split|split].
        -- intros [m H].
           destruct (outcome _) in H; discriminate.
        -- intros [H|H]; [contradiction | discriminate].
        -- intros [H|H]; [contradiction | discriminate].
        -- intros q' e E _ _ He. inversion E; subst q'. rewrite He.
           reflexivity.
      * intros a. destruct (formatSearchResults w q from a); reflexivity.
  - apply truthy_trim in Ht.
    split; [split; [auto | intros _; eexists; reflexivity] |].
    split; [reflexivity |].
    intros q' e E Hq'. inversion E; subst. contradiction.
Qed.

Lemma search_validation_and_request_witness :
  let args := {| sa_query := Some (lit " react hooks ");
                 sa_size := None; sa_from := Some 1e21%float |} in
  trace (searchNpmPackages silentWorld args)
  = [HttpGet (lit "https://registry.npmjs.org/-/v1/search?text=react%20hooks&size=20&from=1e+21&quality=0.65&popularity=0.98&maintenance=0.5")].
Proof.
  intros args.
  rewrite (proj2 (proj2 (search_validation_and_request silentWorld args))
             (lit " react hooks ") (lit "react%20hooks")).
  - vm_compute. reflexivity.
  - reflexivity.
  - intros H. inversion H as [|c l Hc Hl]. inversion Hl. discriminate.
  - intros H. vm_compute in H. discriminate H.
  - reflexivity.
Defined.

(** C9 as stated fails: a query that is an unpaired surrogate is neither
    blank nor oversized, yet no request is sent, because
    [encodeURIComponent] throws. *)
Lemma search_unpaired_surrogate_sends_nothing :
  let args := {| sa_query := Some [55357%N]; sa_size := None;
                 sa_from := None |} in
  trim [55357%N] = [55357%N]
  /\ trace (searchNpmPackages silentWorld args) = []
  /\ outcome (searchNpmPackages silentWorld args)
     = Throw (McpError InternalError
                (lit "Failed to search packages: URI malformed")).
Proof. repeat split; reflexivity. Qed.

(* ================================================================= *)
(** ** The model on sample inputs *)

Example normalize_ex1 :
  Path.normalize (lit "a/./b/../../c/") = lit "c/".
Proof. reflexivity. Qed.

Example normalize_ex2 :
  Path.normalize (lit "../../x/..") = lit "../.."
  /\ Path.normalize (lit "/../a//b") = lit "/a/b"
  /\ Path.normalize (lit "./") = lit "./"
  /\ Path.join (lit "/t/temp") (lit "lodash") = lit "/t/temp/lodash"
  /\ Path.resolve (lit "/w") (lit "a/../b/") = lit "/w/b"
  /\ Path.relative (lit "/w") (lit "/t/p") (lit "/t/p/lib/a.js") = lit "lib/a.js"
  /\ Path.relative (lit "/w") (lit "/t/p/q") (lit "/t/x") = lit "../../x"
  /\ Path.extname (lit "index.JS") = lit ".JS"
  /\ Path.extname (lit ".json") = lit ""
  /\ Path.extname (lit ".eslintrc.json") = lit ".json"
  /\ Path.extname (lit "a.") = lit "."
  /\ Path.extname (lit "..") = lit "".
Proof. repeat split; reflexivity. Qed.

Example regex_ex :
  Regex.test Regex.PACKAGE_NAME_RE (lit "@babel/core") = true
  /\ Regex.test Regex.PACKAGE_NAME_RE (lit "lodash") = true
  /\ Regex.test Regex.PACKAGE_NAME_RE (lit "a..b") = true
  /\ Regex.test Regex.PACKAGE_NAME_RE (lit ".a") = false
  /\ Regex.test Regex.PACKAGE_NAME_RE (lit "@a/b/c") = false
  /\ Regex.test Regex.PACKAGE_NAME_RE (lit "") = false
  /\ Uri.encodeURIComponent (lit "a b/c") = Some (lit "a%20b%2Fc")
  /\ Uri.encodeURIComponent [233%N] = Some (lit "%C3%A9")
  /\ Uri.encodeURIComponent [55357%N; 56613%N] = Some (lit "%F0%9F%94%A5")
  /\ Uri.encodeURIComponent [55357%N] = None
  /\ ofZ 250 = lit "250" /\ ofZ 0 = lit "0" /\ ofZ (-3) = lit "-3".
Proof. repeat split; reflexivity. Qed.

Example path_examples :
  Path.normalize (lit "") = lit "."
  /\ Path.normalize (lit "/") = lit "/"
  /\ Path.normalize (lit "//a//") = lit "/a/"
  /\ Path.normalize (lit "a/..") = lit "."
  /\ Path.normalize (lit "a/../") = lit "./"
  /\ Path.normalize (lit "../") = lit "../"
  /\ Path.normalize (lit "/..") = lit "/"
  /\ Path.normalize (lit "..\..") = lit "..\.."
  /\ Path.join (lit "/a") (lit "") = lit "/a"
  /\ Path.join (lit "/a/") (lit "b") = lit "/a/b"
  /\ Path.join (lit "") (lit "") = lit "."
  /\ Path.join (lit "/a") (lit "../..") = lit "/"
  /\ Path.join (lit "/a") (lit "/b") = lit "/a/b"
  /\ Path.resolve (lit "/w") (lit "") = lit "/w"
  /\ Path.resolve (lit "/w") (lit "/a/b/") = lit "/a/b"
  /\ Path.resolve (lit "/w") (lit "../..") = lit "/"
  /\ Path.relative (lit "/w") (lit "/a/b") (lit "/a") = lit ".."
  /\ Path.relative (lit "/w") (lit "/") (lit "/a") = lit "a".
Proof. repeat split; reflexivity. Qed.

Example validateAndResolvePath_examples :
  let root := lit "/app/build/temp/lodash" in
  validateAndResolvePath (lit "/app") root (lit "../../etc/passwd")
  = Ok (lit "/app/build/temp/lodash/etc/passwd")
  /\ validateAndResolvePath (lit "/app") root (lit "/etc/passwd")
     = Ok (lit "/app/build/temp/lodash/etc/passwd")
  /\ validateAndResolvePath (lit "/app") root (lit "lib/../index.js")
     = Ok (lit "/app/build/temp/lodash/index.js")
  /\ validateAndResolvePath (lit "/app") root (lit "../")
     = Ok (lit "/app/build/temp/lodash")
  /\ validateAndResolvePath (lit "/app") root (lit "..")
     = Throw traversalError
  /\ validateAndResolvePath (lit "/app") root (lit "..\..")
     = Throw traversalError
  /\ validateAndResolvePath (lit "/app") root (lit "a/../..")
     = Throw traversalError.
Proof. repeat split; reflexivity. Qed.

Example isCodeFile_examples :
  isCodeFile (lit "index.JS") = true
  /\ isCodeFile (lit "types.d.ts") = true
  /\ isCodeFile (lit ".eslintrc.json") = true
  /\ isCodeFile (lit ".json") = false
  /\ isCodeFile (lit "README.md") = false
  /\ shouldSkipDirectory (lit "node_modules") = true
  /\ shouldSkipDirectory (lit ".cache") = true
  /\ shouldSkipDirectory (lit "src") = false.
Proof. repeat split; reflexivity. Qed.

Example number_examples :
  JsNumber.toString 20 = lit "20"
  /\ JsNumber.toString 0 = lit "0"
  /\ JsNumber.toString (-0) = lit "0"
  /\ JsNumber.toString 250 = lit "250"
  /\ JsNumber.toString 2.5 = lit "2.5"
  /\ JsNumber.toString 0x1.999999999999ap-4 = lit "0.1"
  /\ JsNumber.toString 0x1.0c6f7a0b5ed8dp-20 = lit "0.000001"
  /\ JsNumber.toString 0x1.ad7f29abcaf48p-24 = lit "1e-7"
  /\ JsNumber.toString 1e21 = lit "1e+21"
  /\ JsNumber.toString 1e20 = lit "100000000000000000000"
  /\ JsNumber.toString 123456789012345683968 = lit "123456789012345680000"
  /\ JsNumber.toString 9007199254740992 = lit "9007199254740992"
  /\ JsNumber.toString 0x1p-1074 = lit "5e-324"
  /\ JsNumber.toString 0x1.fffffffffffffp1023 = lit "1.7976931348623157e+308"
  /\ JsNumber.toString (-1.5) = lit "-1.5"
  /\ JsNumber.toString infinity = lit "Infinity"
  /\ JsNumber.toString nan = lit "NaN"
  /\ JsNumber.gtb 250.5 250 = true
  /\ JsNumber.gtb 250 250 = false
  /\ JsNumber.gtb nan 250 = false.
Proof. repeat split; vm_compute; reflexivity. Qed.

(* ################################################################# *)
(** * Part III: properties of whole calls *)

(* ================================================================= *)
(** ** Paths that [validateAndResolvePath] accepts *)

(** An accepted path is the resolved root with proper names appended. *)
Lemma validateAndResolvePath_ok (cwd basePath userPath p : jsstr) :
  Path.isAbsolute cwd = true ->
  basePath <> [] ->
  validateAndResolvePath cwd basePath userPath = Ok p ->
  exists rest,
    Forall plain (Path.resolvedSegs cwd basePath ++ rest)
    /\ p = absPath (Path.resolvedSegs cwd basePath ++ rest).
Proof.
  intros Hcwd Hbase. unfold validateAndResolvePath.
  set (np := stripLeadingDotDots (Path.normalize userPath)).
  assert (Ejoin := @ResolveFacts.resolvedSegs_join cwd Hcwd basePath np Hbase).
  pose proof (@ResolveFacts.resolvedSegs_plain cwd Hcwd basePath) as Hplain.
  pose proof (@ResolveFacts.resolvedSegs_plain cwd Hcwd (Path.join basePath np))
    as Hplain'.
  rewrite !(@ResolveFacts.resolve_absolute cwd Hcwd).
  destruct (startsWith _ _) eqn:Es; simpl negb; cbv iota; [|discriminate].
  intros H. inversion H as [Ep]. clear H.
  assert (Hrest : exists rest,
             Path.resolvedSegs cwd (Path.join basePath np)
             = Path.resolvedSegs cwd basePath ++ rest).
  { destruct (TraversalFacts.normalized_path_shape userPath) as [Edd | Hfree];
      fold np in Edd || fold np in Hfree.
    - clearbody np. subst np.
      change (Path.split Path.dotdot) with [Path.dotdot] in Ejoin.
      rewrite normSegs_single in Ejoin.
      destruct (rev (Path.resolvedSegs cwd basePath)) as [|top below] eqn:Erev.
      + exists []. rewrite app_nil_r.
        apply (f_equal (@rev jsstr)) in Erev. rewrite rev_involutive in Erev.
        rewrite Erev. exact Ejoin.
      + exfalso.
        assert (Htop : plain top).
        { apply Forall_rev in Hplain. rewrite Erev in Hplain.
          inversion Hplain; assumption. }
        rewrite NormFacts.normStep_dotdot_cons in Ejoin by apply Htop.
        apply (f_equal (@rev jsstr)) in Erev. rewrite rev_involutive in Erev.
        simpl rev in Erev.
        apply TraversalFacts.startsWith_length in Es.
        rewrite Ejoin, Erev in Es. simpl in Es.
        pose proof (@joinSlash_snoc_longer (rev below) top (proj1 Htop)). lia.
    - destruct (@TraversalFacts.normSegs_grows false _ Hfree
                  (rev (Path.resolvedSegs cwd basePath))) as [top E].
      exists (rev top). rewrite Ejoin, E, rev_app_distr, rev_involutive.
      reflexivity. }
  destruct Hrest as [rest Erest]. exists rest.
  rewrite <- Erest. split; [exact Hplain' | reflexivity].
Qed.

(** X1: every path [validateAndResolvePath] returns is the resolved root
    followed by proper names (none of them ["."] or [".."]), so it is the
    root or lies below it. *)
Theorem accepted_path_inside_root (cwd basePath userPath p : jsstr) :
  Path.isAbsolute cwd = true ->
  basePath <> [] ->
  validateAndResolvePath cwd basePath userPath = Ok p ->
  insideRoot cwd basePath p
  /\ exists rest,
       Forall plain rest
       /\ p = absPath (Path.resolvedSegs cwd basePath ++ rest).
Proof.
  intros Hcwd Hbase Hok.
  destruct (@validateAndResolvePath_ok cwd basePath userPath p Hcwd Hbase Hok)
    as [rest [Hplain ->]].
  split.
  - exists rest. apply ListingFacts.resolvedSegs_absPath. exact Hplain.
  - exists rest. split; [|reflexivity].
    apply Forall_app in Hplain. apply Hplain.
Qed.

Lemma accepted_path_inside_root_witness :
  insideRoot (lit "/app") (lit "/app/build/temp/lodash")
    (lit "/app/build/temp/lodash/etc/passwd")
  /\ exists rest,
       Forall plain rest
       /\ lit "/app/build/temp/lodash/etc/passwd"
          = absPath (Path.resolvedSegs (lit "/app")
                       (lit "/app/build/temp/lodash") ++ rest).
Proof.
  apply (@accepted_path_inside_root (lit "/app")
           (lit "/app/build/temp/lodash") (lit "../../../etc/passwd")).
  - reflexivity.
  - discriminate.
  - reflexivity.
Defined.

(* ================================================================= *)
(** ** What [getSpecificFile] touches and returns *)

Definition fileText (filePath fileContent : jsstr) : jsstr :=
  lit "File: " ++ filePath ++ NL ++ NL ++ fileContent.


(** The run of [getSpecificFile] once the path is accepted, by the node at
    the path. *)
Lemma getSpecificFile_accepted (cwd : jsstr) (disk : node)
  (extractedPath filePath p : jsstr) :
  validateAndResolvePath cwd extractedPath filePath = Ok p ->
  getSpecificFile cwd disk extractedPath filePath
  = match Fs.lookup cwd disk p with
    | Some (File true c) =>
        ([FsExists p; FsStat p; FsReadFile p],
         Ok {| content := [fileText filePath c] |})
    | Some (File false _) =>
        ([FsExists p; FsStat p; FsReadFile p],
         Throw (Error (lit "Failed to read file " ++ filePath ++ lit ": "
                       ++ lit "EACCES: permission denied, open '" ++ p
                       ++ lit "'")))
    | Some (Dir _ _) | Some Special =>
        ([FsExists p; FsStat p],
         Throw (Error (lit "Path is not a file: " ++ filePath)))
    | Some Dangling | None =>
        ([FsExists p], Throw (Error (lit "File not found: " ++ filePath)))
    end.
Proof.
  intros Hok. unfold getSpecificFile. rewrite Hok.
  match goal with
  | |- context [tryCatch (liftResult (Ok p)) ?h] =>
      change (tryCatch (liftResult (Ok p)) h) with (([], Ok p) : io jsstr)
  end.
  rewrite bind_nil_ok.
  unfold Fs.existsSync, Fs.statSync, Fs.readFileSync.
  destruct (Fs.lookup cwd disk p) as [[[|] c|r es| |]|]; reflexivity.
Qed.


(** X3: when [getSpecificFile] returns, the text is ["File: "], the path as
    requested, a blank line and the content of a readable regular file that
    the disk holds at the extraction root or below it; the three calls it
    made were on that file. *)
Theorem getSpecificFile_returns_file_of_root (cwd : jsstr) (disk : node)
  (extractedPath filePath : jsstr) (r : ToolResult) :
  Path.isAbsolute cwd = true ->
  extractedPath <> [] ->
  outcome (getSpecificFile cwd disk extractedPath filePath) = Ok r ->
  exists rest c,
    Forall plain rest
    /\ lookupSegs disk (Path.resolvedSegs cwd extractedPath ++ rest)
       = Some (File true c)
    /\ content r = [lit "File: " ++ filePath ++ NL ++ NL ++ c]
    /\ trace (getSpecificFile cwd disk extractedPath filePath)
       = let p := absPath (Path.resolvedSegs cwd extractedPath ++ rest) in
         [FsExists p; FsStat p; FsReadFile p].
Proof.
  intros Hcwd Hroot.
  destruct (validateAndResolvePath cwd extractedPath filePath) as [p|e] eqn:Ev.
  - rewrite (@getSpecificFile_accepted cwd disk extractedPath filePath p Ev).
    destruct (@validateAndResolvePath_ok cwd extractedPath filePath p Hcwd Hroot Ev)
      as [rest [Hplain ->]].
    unfold Fs.lookup. rewrite ListingFacts.resolvedSegs_absPath by exact Hplain.
    destruct (lookupSegs disk (Path.resolvedSegs cwd extractedPath ++ rest))
      as [[[|] c|rd es| |]|] eqn:El; simpl; intros H; try discriminate.
    inversion H; subst r. exists rest, c.
    apply Forall_app in Hplain. repeat split; auto. apply Hplain.
  - unfold getSpecificFile. rewrite Ev. simpl. discriminate.
Qed.

Lemma getSpecificFile_returns_file_of_root_witness :
  exists rest c,
    Forall plain rest
    /\ lookupSegs sampleDisk
         (Path.resolvedSegs (lit "/app") (lit "/app/build/temp/lodash") ++ rest)
       = Some (File true c)
    /\ content {| content := [fileText (lit "index.js") (lit "module.exports = 1;")] |}
       = [lit "File: " ++ lit "index.js" ++ NL ++ NL ++ c]
    /\ trace (getSpecificFile (lit "/app") sampleDisk
                (lit "/app/build/temp/lodash") (lit "index.js"))
       = let p := absPath (Path.resolvedSegs (lit "/app")
                             (lit "/app/build/temp/lodash") ++ rest) in
         [FsExists p; FsStat p; FsReadFile p].
Proof.
  apply (@getSpecificFile_returns_file_of_root (lit "/app") sampleDisk
           (lit "/app/build/temp/lodash") (lit "index.js"));
    [reflexivity | discriminate | reflexivity].
Defined.

(* ================================================================= *)
(** ** From the listing to a file, and from the bundle to the listing *)

Module FetchFacts.
Import Path PathFacts.

Lemma assocNode_In (es : list (jsstr * node)) (f : jsstr) (n : node) :
  NoDup (map fst es) -> In (f, n) es -> assocNode f es = Some n.
Proof.
  induction es as [|[i c] es IH]; intros Hnd Hin; [contradiction|].
  simpl in Hnd. inversion Hnd as [|? ? Hnotin Hnd']; subst.
  simpl. destruct Hin as [E|Hin].
  - inversion E; subst. rewrite eqb_refl. reflexivity.
  - destruct (eqb f i) eqn:Ef.
    + apply eqb_eq in Ef. subst i. exfalso. apply Hnotin.
      apply in_map_iff. exists (f, n). auto.
    + apply IH; assumption.
Qed.

Lemma lookupSegs_app (a b : list jsstr) :
  forall n,
    lookupSegs n (a ++ b)
    = match lookupSegs n a with
      | Some m => lookupSegs m b
      | None => None
      end.
Proof.
  induction a as [|s a IH]; intros n; [reflexivity|].
  simpl. destruct n as [r c|r es| |]; try reflexivity.
  destruct (assocNode s es); [apply IH | reflexivity].
Qed.

(** In a tree as a file system holds it, a located entry is what a lookup
    by its path finds. *)
Lemma located_lookup (es : list (jsstr * node)) (ds : list jsstr)
  (f : jsstr) (n : node) :
  located es ds f n ->
  forall rd, wfNode (Dir rd es) ->
  lookupSegs (Dir rd es) (ds ++ [f]) = Some n.
Proof.
  induction 1 as [es f n Hin | es d sub ds f n Hin _ IH]; intros rd Hwf;
    inversion Hwf as [| | |r' es' Hes Hnd]; subst.
  - simpl. rewrite (@assocNode_In _ _ _ Hnd Hin). reflexivity.
  - simpl. rewrite (@assocNode_In _ _ _ Hnd Hin). apply IH.
    rewrite Forall_forall in Hes. apply (Hes _ Hin).
Qed.

Lemma joinSlash_app (s1 s2 : list jsstr) :
  s1 <> [] -> s2 <> [] ->
  joinSlash (s1 ++ s2) = joinSlash s1 ++ SLASH :: joinSlash s2.
Proof.
  induction s1 as [|x s1 IH]; intros H1 H2; [contradiction|].
  destruct s1 as [|y s1].
  - simpl. destruct s2; [contradiction | reflexivity].
  - change ((x :: y :: s1) ++ s2) with (x :: ((y :: s1) ++ s2)).
    change (joinSlash (x :: (y :: s1) ++ s2))
      with (x ++ SLASH :: joinSlash ((y :: s1) ++ s2)).
    rewrite IH by (assumption || discriminate).
    change (joinSlash (x :: y :: s1)) with (x ++ SLASH :: joinSlash (y :: s1)).
    rewrite <- app_assoc. reflexivity.
Qed.

Lemma absPath_startsWith (rs segs : list jsstr) :
  startsWith (absPath (rs ++ segs)) (absPath rs) = true.
Proof.
  apply startsWith_spec. unfold absPath.
  destruct rs as [|r rs]; [exists (joinSlash segs); reflexivity|].
  destruct segs as [|s segs].
  - exists []. rewrite !app_nil_r. reflexivity.
  - exists (SLASH :: joinSlash (s :: segs)).
    rewrite joinSlash_app by discriminate. reflexivity.
Qed.

Lemma normalize_relative (p : jsstr) :
  p <> [] -> isAbsolute p = false ->
  normalize p
  = match normalizeString p true with
    | [] => if endsWithSlash p then [DOT; SLASH] else [DOT]
    | q => if endsWithSlash p then q ++ [SLASH] else q
    end.
Proof.
  intros Hp Ha. destruct p as [|c p]; [contradiction|].
  unfold normalize. rewrite Ha. reflexivity.
Qed.

Lemma joinSlash_endsWithSlash (segs : list jsstr) :
  Forall plain segs -> endsWithSlash (joinSlash segs) = false.
Proof.
  intros H. destruct segs as [|x segs] using rev_ind; [reflexivity|].
  apply Forall_app in H as [_ H]. inversion H as [|? ? Hx _]; subst.
  destruct segs as [|y segs].
  - simpl. apply endsWithSlash_noSlash, plain_noSlash, Hx.
  - rewrite joinSlash_app_last by discriminate.
    replace (joinSlash (y :: segs) ++ SLASH :: x)
      with ((joinSlash (y :: segs) ++ [SLASH]) ++ x)
      by (rewrite <- app_assoc; reflexivity).
    rewrite endsWithSlash_app by apply Hx.
    apply endsWithSlash_noSlash, plain_noSlash, Hx.
Qed.

(** A relative path made of proper names is its own normal form. *)
Lemma normalize_joinSlash (segs : list jsstr) :
  Forall plain segs -> segs <> [] ->
  normalize (joinSlash segs) = joinSlash segs.
Proof.
  intros H Hne. destruct segs as [|x segs]; [contradiction|].
  inversion H as [|? ? Hx _]; subst.
  destruct (@ResolveFacts.joinSlash_head x segs (proj1 Hx))
    as [c [tl [Ex [r Er]]]].
  assert (Hc : c <> SLASH).
  { intros ->. destruct Hx as [_ [_ [_ Hns]]]. apply Hns. rewrite Ex.
    left. reflexivity. }
  rewrite normalize_relative.
  - rewrite joinSlash_endsWithSlash by exact H.
    unfold normalizeString.
    rewrite split_joinSlash;
      [| eapply Forall_impl; [apply plain_noSlash | exact H] | discriminate].
    rewrite normSegs_plain by exact H.
    rewrite app_nil_r, rev_involutive.
    rewrite Er. reflexivity.
  - rewrite Er. discriminate.
  - rewrite Er. simpl. apply N.eqb_neq. exact Hc.
Qed.

Lemma strip_joinSlash (segs : list jsstr) :
  Forall plain segs -> segs <> [] ->
  (forall r, joinSlash segs <> DOT :: DOT :: BACKSLASH :: r) ->
  stripLeadingDotDots (joinSlash segs) = joinSlash segs.
Proof.
  intros H Hne Hback.
  destruct (TraversalFacts.strip_cases (joinSlash segs))
    as [[rest [E _]] | [[rest [E _]] | [E _]]].
  - exfalso.
    assert (Es : split (joinSlash segs) = segs).
    { apply split_joinSlash; [|exact Hne].
      eapply Forall_impl; [apply plain_noSlash | exact H]. }
    rewrite E, TraversalFacts.split_dotdot_slash in Es.
    rewrite <- Es in H. inversion H as [|? ? [_ [_ [Hdd _]]] _]; subst.
    apply Hdd. reflexivity.
  - exfalso. exact (Hback rest E).
  - exact E.
Qed.

(** A relative path of proper names is accepted and resolves to the entry
    it names below the root. *)
Lemma validateAndResolvePath_below (cwd : jsstr) (rs segs : list jsstr) :
  isAbsolute cwd = true ->
  Forall plain rs -> Forall plain segs -> segs <> [] ->
  (forall r, joinSlash segs <> DOT :: DOT :: BACKSLASH :: r) ->
  validateAndResolvePath cwd (absPath rs) (joinSlash segs)
  = Ok (absPath (rs ++ segs)).
Proof.
  intros Hcwd Hrs Hsegs Hne Hback. unfold validateAndResolvePath.
  rewrite normalize_joinSlash, strip_joinSlash by assumption.
  rewrite !(@ResolveFacts.resolve_absolute cwd Hcwd).
  rewrite (@ResolveFacts.resolvedSegs_join cwd Hcwd (absPath rs)
             (joinSlash segs)) by discriminate.
  rewrite ListingFacts.resolvedSegs_absPath by exact Hrs.
  rewrite split_joinSlash;
    [| eapply Forall_impl; [apply plain_noSlash | exact Hsegs] | exact Hne].
  rewrite normSegs_plain by exact Hsegs.
  rewrite rev_app_distr, !rev_involutive.
  fold (absPath (rs ++ segs)). fold (absPath rs).
  rewrite absPath_startsWith. reflexivity.
Qed.

End FetchFacts.

(* ================================================================= *)
(** ** Path traversal: what is rejected and what is re-rooted *)

(** A path whose re-rooted form resolves into the root passes the prefix
    comparison. *)
Lemma validateAndResolvePath_inside (cwd basePath userPath : jsstr) :
  Path.isAbsolute cwd = true ->
  insideRoot cwd basePath
    (Path.join basePath (stripLeadingDotDots (Path.normalize userPath))) ->
  validateAndResolvePath cwd basePath userPath
  = Ok (Path.resolve cwd
          (Path.join basePath (stripLeadingDotDots (Path.normalize userPath)))).
Proof.
  intros Hcwd [rest E]. unfold validateAndResolvePath.
  rewrite !(@ResolveFacts.resolve_absolute cwd Hcwd). rewrite E.
  pose proof (FetchFacts.absPath_startsWith (Path.resolvedSegs cwd basePath) rest)
    as Hs.
  unfold absPath in Hs. rewrite Hs. reflexivity.
Qed.

Lemma getSpecificFile_events (cwd : jsstr) (disk : node)
  (extractedPath filePath : jsstr) (ev : Event) :
  Path.isAbsolute cwd = true ->
  extractedPath <> [] ->
  In ev (trace (getSpecificFile cwd disk extractedPath filePath)) ->
  exists p, pathOf ev = Some p /\ insideRoot cwd extractedPath p.
Proof.
  intros Hcwd Hroot.
  destruct (validateAndResolvePath cwd extractedPath filePath) as [p|e] eqn:Ev.
  - rewrite (@getSpecificFile_accepted cwd disk extractedPath filePath p Ev).
    destruct (@validateAndResolvePath_ok cwd extractedPath filePath p Hcwd Hroot Ev)
      as [rest [Hplain Ep]].
    assert (Hin : insideRoot cwd extractedPath p).
    { exists rest. rewrite Ep. apply ListingFacts.resolvedSegs_absPath.
      exact Hplain. }
    intros H. exists p. split; [|exact Hin].
    destruct (Fs.lookup cwd disk p) as [[[|] c|r es| |]|]; simpl in H;
      repeat (destruct H as [<-|H]; [reflexivity|]); contradiction.
  - unfold getSpecificFile. rewrite Ev. simpl. contradiction.
Qed.

(** C1 (as amended): [getSpecificFile] takes the requested path normalized
    and without its leading ["../"] groups, joined to the extraction root.
    When that path resolves outside the root, it throws the invalid-path
    error and its log of file-system calls is empty: no [existsSync],
    [statSync] or [readFileSync] was made.  When it resolves into the root,
    the path is accepted, the first call is [existsSync] on it and every
    call is on it.  So whatever the requested path is, every call is made on
    a path that is the root or lies below it. *)
Theorem traversal_rejected_before_fs (cwd : jsstr) (disk : node)
  (extractedPath filePath : jsstr) :
  Path.isAbsolute cwd = true ->
  extractedPath <> [] ->
  let rerooted :=
    Path.join extractedPath (stripLeadingDotDots (Path.normalize filePath)) in
  (~ insideRoot cwd extractedPath rerooted ->
   trace (getSpecificFile cwd disk extractedPath filePath) = []
   /\ outcome (getSpecificFile cwd disk extractedPath filePath)
      = Throw (McpError InvalidParams
                 (lit "Invalid file path: " ++ messageOf traversalError)))
  /\ (insideRoot cwd extractedPath rerooted ->
      let p := Path.resolve cwd rerooted in
      validateAndResolvePath cwd extractedPath filePath = Ok p
      /\ insideRoot cwd extractedPath p
      /\ hd_error (trace (getSpecificFile cwd disk extractedPath filePath))
         = Some (FsExists p)
      /\ Forall (fun ev => pathOf ev = Some p)
           (trace (getSpecificFile cwd disk extractedPath filePath)))
  /\ (forall ev,
        In ev (trace (getSpecificFile cwd disk extractedPath filePath)) ->
        exists p, pathOf ev = Some p /\ insideRoot cwd extractedPath p).
Proof.
  intros Hcwd Hroot rerooted. split; [|split].
  - intros Hout. unfold getSpecificFile.
    rewrite (@validateAndResolvePath_outside cwd extractedPath filePath
               Hcwd Hroot Hout).
    split; reflexivity.
  - intros Hin p.
    pose proof (@validateAndResolvePath_inside cwd extractedPath filePath
                  Hcwd Hin) as Hok.
    fold rerooted in Hok. fold p in Hok.
    split; [exact Hok|]. split.
    + destruct (@validateAndResolvePath_ok cwd extractedPath filePath p
                  Hcwd Hroot Hok) as [rest [Hplain Ep]].
      exists rest. rewrite Ep.
      apply ListingFacts.resolvedSegs_absPath. exact Hplain.
    + rewrite (@getSpecificFile_accepted cwd disk extractedPath filePath p Hok).
      destruct (Fs.lookup cwd disk p) as [[[|] c|r es| |]|]; simpl;
        (split; [reflexivity|]);
        repeat (apply Forall_cons || apply Forall_nil); reflexivity.
  - intros ev. apply getSpecificFile_events; assumption.
Qed.

Lemma traversal_rejected_before_fs_witness :
  trace (getSpecificFile (lit "/app") (Dir true [])
           (lit "/app/build/temp/lodash") (lit "src/../../.."))
  = []
  /\ outcome (getSpecificFile (lit "/app") (Dir true [])
                (lit "/app/build/temp/lodash") (lit "src/../../.."))
     = Throw (McpError InvalidParams
                (lit "Invalid file path: MCP error -32602: Access denied: Path traversal attempt detected")).
Proof.
  apply (@traversal_rejected_before_fs (lit "/app") (Dir true [])
           (lit "/app/build/temp/lodash") (lit "src/../../..")).
  - reflexivity.
  - discriminate.
  - intros [rest H]. vm_compute in H. discriminate.
Defined.

(** C1 as stated fails: [../index.js], normalized and joined to the root,
    resolves to [/app/build/temp/index.js], outside the root; yet it is not
    rejected: the leading ["../"] is removed and [index.js] of the package is
    read and returned. *)
Lemma traversal_rerooted_not_rejected :
  Path.resolve (lit "/app")
    (Path.join (lit "/app/build/temp/lodash") (Path.normalize (lit "../index.js")))
  = lit "/app/build/temp/index.js"
  /\ ~ insideRoot (lit "/app") (lit "/app/build/temp/lodash")
         (Path.join (lit "/app/build/temp/lodash")
            (Path.normalize (lit "../index.js")))
  /\ getSpecificFile (lit "/app") sampleDisk (lit "/app/build/temp/lodash")
       (lit "../index.js")
     = ([FsExists (lit "/app/build/temp/lodash/index.js");
         FsStat (lit "/app/build/temp/lodash/index.js");
         FsReadFile (lit "/app/build/temp/lodash/index.js")],
        Ok {| content := [lit "File: ../index.js" ++ NL ++ NL
                          ++ lit "module.exports = 1;"] |}).
Proof.
  split; [reflexivity|]. split; [|reflexivity].
  intros [rest H]. vm_compute in H. discriminate.
Qed.

(** X2: [getSpecificFile] makes no file-system call on a path that
    [validateAndResolvePath] rejects; on a path it accepts, the first call is
    [existsSync], every call is made on the one accepted path, and that path
    is the extraction root or lies below it. *)
Theorem getSpecificFile_calls_inside_root (cwd : jsstr) (disk : node)
  (extractedPath filePath : jsstr) :
  Path.isAbsolute cwd = true ->
  extractedPath <> [] ->
  match validateAndResolvePath cwd extractedPath filePath with
  | Ok p =>
      insideRoot cwd extractedPath p
      /\ hd_error (trace (getSpecificFile cwd disk extractedPath filePath))
         = Some (FsExists p)
      /\ Forall (fun ev => ev = FsExists p \/ ev = FsStat p \/ ev = FsReadFile p)
           (trace (getSpecificFile cwd disk extractedPath filePath))
  | Throw _ => trace (getSpecificFile cwd disk extractedPath filePath) = []
  end.
Proof.
  intros Hcwd Hroot.
  destruct (validateAndResolvePath cwd extractedPath filePath) as [p|e] eqn:Ev.
  - split.
    + destruct (@validateAndResolvePath_ok cwd extractedPath filePath p Hcwd Hroot Ev)
        as [rest [Hplain ->]].
      exists rest. apply ListingFacts.resolvedSegs_absPath. exact Hplain.
    + rewrite (@getSpecificFile_accepted cwd disk extractedPath filePath p Ev).
      destruct (Fs.lookup cwd disk p) as [[[|] c|r es| |]|]; simpl;
        (split; [reflexivity|]);
        repeat (apply Forall_cons || apply Forall_nil); auto.
  - unfold getSpecificFile. rewrite Ev. reflexivity.
Qed.

Lemma getSpecificFile_calls_inside_root_witness :
  let p := lit "/app/build/temp/lodash/index.js" in
  insideRoot (lit "/app") (lit "/app/build/temp/lodash") p
  /\ hd_error (trace (getSpecificFile (lit "/app") sampleDisk
                        (lit "/app/build/temp/lodash") (lit "/lib/../index.js")))
     = Some (FsExists p)
  /\ Forall (fun ev => ev = FsExists p \/ ev = FsStat p \/ ev = FsReadFile p)
       (trace (getSpecificFile (lit "/app") sampleDisk
                 (lit "/app/build/temp/lodash") (lit "/lib/../index.js"))).
Proof.
  exact (@getSpecificFile_calls_inside_root (lit "/app") sampleDisk
           (lit "/app/build/temp/lodash") (lit "/lib/../index.js")
           eq_refl ltac:(discriminate)).
Defined.

(** Each listed path names a located file. *)
Lemma fileList_located (cwd : jsstr) (disk : node) (rs : list jsstr)
  (es : list (jsstr * node)) (p : jsstr) :
  Forall plain rs ->
  Fs.lookup cwd disk (absPath rs) = Some (Dir true es) ->
  wfNode (Dir true es) ->
  In p (fileListOf cwd disk (absPath rs)) ->
  exists ds f r c,
    located es ds f (File r c) /\ p = Path.joinSlash (ds ++ [f]).
Proof.
  intros Hrs Hlook Hwf Hin.
  unfold fileListOf, getAllFiles in Hin. rewrite Hlook in Hin.
  rewrite listing_unsorted in Hin by assumption.
  apply (Permutation_in _ (Permutation_sym (ListingFacts.sortStrings_perm _)))
    in Hin.
  apply in_map_iff in Hin as [segs [E Hin]].
  apply in_map_iff in Hin as [[segs' c] [E' Hin]]. simpl in E'. subst segs'.
  apply KeepFacts.relWalk_walked in Hin as [ds [f [r [Hl [_ [_ ->]]]]]].
  exists ds, f, r, c. auto.
Qed.

Lemma lookup_below (cwd : jsstr) (disk : node) (rs segs : list jsstr)
  (rd : bool) (es : list (jsstr * node)) :
  Forall plain rs -> Forall plain segs ->
  Fs.lookup cwd disk (absPath rs) = Some (Dir rd es) ->
  Fs.lookup cwd disk (absPath (rs ++ segs)) = lookupSegs (Dir rd es) segs.
Proof.
  intros Hrs Hsegs. unfold Fs.lookup.
  rewrite !ListingFacts.resolvedSegs_absPath
    by (try apply Forall_app; auto).
  intros H. rewrite FetchFacts.lookupSegs_app, H. reflexivity.
Qed.

(** A listed path, given to [getSpecificFile]. *)
Lemma listed_path_run (cwd : jsstr) (disk : node)
  (rs : list jsstr) (es : list (jsstr * node)) (p : jsstr) :
  Path.isAbsolute cwd = true ->
  Forall plain rs ->
  Fs.lookup cwd disk (absPath rs) = Some (Dir true es) ->
  wfNode (Dir true es) ->
  In p (fileListOf cwd disk (absPath rs)) ->
  (forall r, p <> Path.DOT :: Path.DOT :: Path.BACKSLASH :: r) ->
  exists ds f readable c,
    located es ds f (File readable c)
    /\ p = Path.joinSlash (ds ++ [f])
    /\ p <> []
    /\ getSpecificFile cwd disk (absPath rs) p
       = let q := absPath (rs ++ ds ++ [f]) in
         ([FsExists q; FsStat q; FsReadFile q],
          if readable
          then Ok {| content := [lit "File: " ++ p ++ NL ++ NL ++ c] |}
          else Throw (Error (lit "Failed to read file " ++ p ++ lit ": "
                             ++ lit "EACCES: permission denied, open '"
                             ++ q ++ lit "'"))).
Proof.
  intros Hcwd Hrs Hlook Hwf Hin Hback.
  destruct (@fileList_located cwd disk rs es p Hrs Hlook Hwf Hin)
    as [ds [f [r [c [Hl ->]]]]].
  exists ds, f, r, c. split; [exact Hl|]. split; [reflexivity|].
  assert (Hsegs : Forall plain (ds ++ [f])).
  { inversion Hwf; subst. eapply KeepFacts.located_plain; eassumption. }
  assert (Hne : ds ++ [f] <> []).
  { intros E. apply app_eq_nil in E as [_ E]. discriminate. }
  split.
  { apply PathFacts.joinSlash_last_nonempty.
    apply Forall_app in Hsegs as [_ Hf]. inversion Hf as [|? ? Hp _].
    apply Hp. }
  rewrite (@getSpecificFile_accepted cwd disk (absPath rs)
             (Path.joinSlash (ds ++ [f])) (absPath (rs ++ ds ++ [f])))
    by (apply FetchFacts.validateAndResolvePath_below; assumption).
  rewrite (@lookup_below cwd disk rs (ds ++ [f]) true es Hrs Hsegs Hlook).
  rewrite (@FetchFacts.located_lookup es ds f (File r c) Hl true Hwf).
  destruct r; reflexivity.
Qed.

(** X4: every path that [list_package_files] lists can be given back as
    the file path of [get_npm_package_code].  When the metadata and the
    archive were fetched and the extraction directory is a readable
    directory of a tree as a file system holds it, [list_package_files]
    returns the listing; and for each listed path that does not start with
    the three characters [..\], [get_npm_package_code] with that file path
    makes, after the two fetches, its three calls on the listed file and
    returns that file's content, or, when the file cannot be read, throws
    the internal error that quotes the read error. *)
Theorem listed_path_can_be_fetched (w : World) (name : jsstr)
  (version : option jsstr) (t1 t2 : list Event) (info : PackageInfo)
  (rs : list jsstr) (disk : node) (es : list (jsstr * node)) :
  Path.isAbsolute (cwd w) = true ->
  truthy name = true ->
  validatePackageName name = Ok tt ->
  fetchPackageInfo w name version = (t1, Ok info) ->
  downloadAndExtract w (tarballOf info) name = (t2, Ok (absPath rs, disk)) ->
  Forall plain rs ->
  Fs.lookup (cwd w) disk (absPath rs) = Some (Dir true es) ->
  wfNode (Dir true es) ->
  let fileList := fileListOf (cwd w) disk (absPath rs) in
  outcome (listPackageFiles w
             {| lf_packageName := Some name; lf_version := version |})
  = Ok {| content := [listingText name info fileList] |}
  /\ forall p,
       In p fileList ->
       (forall r, p <> Path.DOT :: Path.DOT :: Path.BACKSLASH :: r) ->
       exists ds f readable c,
         located es ds f (File readable c)
         /\ p = Path.joinSlash (ds ++ [f])
         /\ getNpmPackageCode w
              {| gc_packageName := Some name; gc_version := version;
                 gc_filePath := Some p |}
            = let q := absPath (rs ++ ds ++ [f]) in
              (t1 ++ t2 ++ [FsExists q; FsStat q; FsReadFile q],
               if readable
               then Ok {| content := [lit "File: " ++ p ++ NL ++ NL ++ c] |}
               else Throw
                      (McpError InternalError
                         (lit "Failed to fetch package code: "
                          ++ lit "Failed to read file " ++ p ++ lit ": "
                          ++ lit "EACCES: permission denied, open '"
                          ++ q ++ lit "'"))).
Proof.
  intros Hcwd Hn Hv Hf Hd Hrs Hlook Hwf fileList.
  rewrite (listPackageFiles_run w name version Hn Hv Hf Hd).
  split; [reflexivity|].
  intros p Hin Hback.
  destruct (@listed_path_run (cwd w) disk rs es p Hcwd Hrs Hlook Hwf Hin Hback)
    as [ds [f [r [c [Hl [Ep [Hne Hrun]]]]]]].
  exists ds, f, r, c. split; [exact Hl|]. split; [exact Ep|].
  rewrite (getNpmPackageCode_run w name version (Some p) Hn Hv Hf Hd).
  assert (Ht : truthyOpt (Some p) = true) by (destruct p; [contradiction | reflexivity]).
  rewrite Ht, Hrun. destruct r; reflexivity.
Qed.

Lemma listed_path_can_be_fetched_witness :
  outcome (listPackageFiles servingWorld
             {| lf_packageName := Some (lit "lodash"); lf_version := None |})
  = Ok {| content :=
            [listingText (lit "lodash") sampleInfo
               (fileListOf (lit "/app") sampleDisk
                  (lit "/app/build/temp/lodash"))] |}
  /\ exists ds f readable c,
       located samplePackage ds f (File readable c)
       /\ lit "lib/secret.js" = Path.joinSlash (ds ++ [f])
       /\ getNpmPackageCode servingWorld
            {| gc_packageName := Some (lit "lodash"); gc_version := None;
               gc_filePath := Some (lit "lib/secret.js") |}
          = let q := absPath ([lit "app"; lit "build"; lit "temp"; lit "lodash"]
                              ++ ds ++ [f]) in
            ([HttpGet (lit "https://registry.npmjs.org/lodash/latest")]
             ++ [FsExists (lit "/app/build/temp/lodash");
                 FsMkdir (lit "/app/build/temp/lodash");
                 HttpGet (lit "https://registry.npmjs.org/lodash/-/lodash-4.17.21.tgz")]
             ++ [FsExists q; FsStat q; FsReadFile q],
             if readable
             then Ok {| content := [lit "File: " ++ lit "lib/secret.js"
                                    ++ NL ++ NL ++ c] |}
             else Throw
                    (McpError InternalError
                       (lit "Failed to fetch package code: "
                        ++ lit "Failed to read file " ++ lit "lib/secret.js"
                        ++ lit ": "
                        ++ lit "EACCES: permission denied, open '"
                        ++ q ++ lit "'"))).
Proof.
  destruct (@listed_path_can_be_fetched servingWorld (lit "lodash") None
              [HttpGet (lit "https://registry.npmjs.org/lodash/latest")]
              [FsExists (lit "/app/build/temp/lodash");
               FsMkdir (lit "/app/build/temp/lodash");
               HttpGet (lit "https://registry.npmjs.org/lodash/-/lodash-4.17.21.tgz")]
              sampleInfo [lit "app"; lit "build"; lit "temp"; lit "lodash"]
              sampleDisk samplePackage eq_refl eq_refl eq_refl eq_refl eq_refl
              plain_of_lit_segments eq_refl samplePackage_wf)
    as [Hout Hall].
  split; [exact Hout|].
  apply (Hall (lit "lib/secret.js")).
  - vm_compute. auto 10.
  - intros r H. discriminate H.
Defined.


(** The files [findCodeFiles] collects, as relative segments. *)
Lemma findCodeFiles_segments (cwd : jsstr) (disk : node) (rs : list jsstr)
  (es : list (jsstr * node)) (cf : CodeFile) :
  Forall plain rs ->
  Fs.lookup cwd disk (absPath rs) = Some (Dir true es) ->
  wfNode (Dir true es) ->
  In cf (findCodeFiles cwd disk (absPath rs)) ->
  exists ds f,
    located es ds f (File true (cf_content cf))
    /\ isCodeFile f = true
    /\ Forall (fun d => shouldSkipDirectory d = false) ds
    /\ cf_path cf = absPath (rs ++ ds ++ [f]).
Proof.
  intros Hrs Hlook Hwf Hin. unfold findCodeFiles in Hin. rewrite Hlook in Hin.
  rewrite walkCode_rel in Hin by assumption.
  apply in_map_iff in Hin as [[segs c] [E Hin]]. subst cf.
  apply KeepFacts.relWalk_walked in Hin as [ds [f [r [Hl [Hk [Hds ->]]]]]].
  unfold WalkFacts.codeKeep in Hk. apply andb_true_iff in Hk as [Hk ->].
  exists ds, f. simpl. auto.
Qed.

(** A collected file is a listed file. *)
Lemma findCodeFiles_listed (cwd : jsstr) (disk : node)
  (rs : list jsstr) (es : list (jsstr * node)) (cf : CodeFile) :
  Forall plain rs ->
  Fs.lookup cwd disk (absPath rs) = Some (Dir true es) ->
  wfNode (Dir true es) ->
  In cf (findCodeFiles cwd disk (absPath rs)) ->
  In (Path.relative cwd (absPath rs) (cf_path cf))
     (fileListOf cwd disk (absPath rs)).
Proof.
  intros Hrs Hlook Hwf Hin.
  destruct (@findCodeFiles_segments cwd disk rs es cf Hrs Hlook Hwf Hin)
    as [ds [f [Hl [_ [Hds Hpath]]]]].
  assert (Hsegs : Forall plain (ds ++ [f])).
  { inversion Hwf; subst. eapply KeepFacts.located_plain; eassumption. }
  rewrite Hpath, ListingFacts.relative_below;
    [| exact Hrs | exact Hsegs
     | intros E; apply app_eq_nil in E as [_ E]; discriminate].
  unfold fileListOf, getAllFiles. rewrite Hlook.
  rewrite listing_unsorted by assumption.
  apply (Permutation_in _ (ListingFacts.sortStrings_perm _)).
  apply in_map. apply in_map_iff. exists (ds ++ [f], cf_content cf).
  split; [reflexivity|].
  apply KeepFacts.relWalk_walked. exists ds, f, true.
  repeat split; auto.
  eapply Forall_impl; [|exact Hds]. intros d Hd.
  unfold shouldSkipDirectory in Hd. apply orb_false_iff in Hd. apply Hd.
Qed.

(** X5: every file of a bundle is also in the listing.  When the metadata
    and the archive were fetched and the extraction directory is a readable
    directory of a tree as a file system holds it, [get_npm_package_code]
    without a file path returns the bundle of the files [findCodeFiles]
    collected, [list_package_files] returns the listing, and the path of
    each collected file, taken relative to the extraction root as the
    bundle prints it, is one of the listed paths. *)
Theorem bundled_file_is_listed (w : World) (name : jsstr)
  (version : option jsstr) (t1 t2 : list Event) (info : PackageInfo)
  (rs : list jsstr) (disk : node) (es : list (jsstr * node)) :
  truthy name = true ->
  validatePackageName name = Ok tt ->
  fetchPackageInfo w name version = (t1, Ok info) ->
  downloadAndExtract w (tarballOf info) name = (t2, Ok (absPath rs, disk)) ->
  Forall plain rs ->
  Fs.lookup (cwd w) disk (absPath rs) = Some (Dir true es) ->
  wfNode (Dir true es) ->
  let codeFiles := findCodeFiles (cwd w) disk (absPath rs) in
  let fileList := fileListOf (cwd w) disk (absPath rs) in
  outcome (getNpmPackageCode w
             {| gc_packageName := Some name; gc_version := version;
                gc_filePath := None |})
  = Ok {| content := [bundleText (cwd w) (absPath rs) info codeFiles] |}
  /\ outcome (listPackageFiles w
                {| lf_packageName := Some name; lf_version := version |})
     = Ok {| content := [listingText name info fileList] |}
  /\ forall cf,
       In cf codeFiles ->
       In (Path.relative (cwd w) (absPath rs) (cf_path cf)) fileList.
Proof.
  intros Hn Hv Hf Hd Hrs Hlook Hwf codeFiles fileList.
  rewrite (getNpmPackageCode_bundle w name version None Hn Hv eq_refl Hf Hd).
  rewrite (listPackageFiles_run w name version Hn Hv Hf Hd).
  split; [reflexivity|]. split; [reflexivity|].
  intros cf Hin.
  exact (@findCodeFiles_listed (cwd w) disk rs es cf Hrs Hlook Hwf Hin).
Qed.

Lemma bundled_file_is_listed_witness :
  outcome (getNpmPackageCode servingWorld
             {| gc_packageName := Some (lit "lodash"); gc_version := None;
                gc_filePath := None |})
  = Ok {| content :=
            [bundleText (lit "/app") (lit "/app/build/temp/lodash") sampleInfo
               (findCodeFiles (lit "/app") sampleDisk
                  (lit "/app/build/temp/lodash"))] |}
  /\ In (lit "lib/a.TS")
       (fileListOf (lit "/app") sampleDisk (lit "/app/build/temp/lodash")).
Proof.
  destruct (@bundled_file_is_listed servingWorld (lit "lodash") None
              [HttpGet (lit "https://registry.npmjs.org/lodash/latest")]
              [FsExists (lit "/app/build/temp/lodash");
               FsMkdir (lit "/app/build/temp/lodash");
               HttpGet (lit "https://registry.npmjs.org/lodash/-/lodash-4.17.21.tgz")]
              sampleInfo [lit "app"; lit "build"; lit "temp"; lit "lodash"]
              sampleDisk samplePackage eq_refl eq_refl eq_refl eq_refl
              plain_of_lit_segments eq_refl samplePackage_wf)
    as [Hb [_ Hall]].
  split; [exact Hb|].
  apply (Hall {| cf_path := lit "/app/build/temp/lodash/lib/a.TS";
                 cf_content := lit "export {}" |}).
  vm_compute. auto 10.
Defined.


(** X6: [findCodeFiles] collects no path twice. *)
Theorem code_files_have_distinct_paths (cwd : jsstr) (disk : node)
  (rs : list jsstr) (es : list (jsstr * node)) :
  Forall plain rs ->
  Fs.lookup cwd disk (absPath rs) = Some (Dir true es) ->
  wfNode (Dir true es) ->
  NoDup (map cf_path (findCodeFiles cwd disk (absPath rs))).
Proof.
  intros Hrs Hlook Hwf. unfold findCodeFiles. rewrite Hlook.
  rewrite walkCode_rel by assumption. rewrite map_map.
  set (kept := relWalk shouldSkipDirectory WalkFacts.codeKeep es).
  replace (map (fun x => cf_path (WalkFacts.toCodeFile rs x)) kept)
    with (map (fun segs => absPath (rs ++ segs)) (map fst kept))
    by (rewrite map_map; reflexivity).
  apply ListingFacts.NoDup_map_injective_on.
  - assert (Hk : forall segs, In segs (map fst kept) ->
                              Forall noSlash (rs ++ segs) /\ rs ++ segs <> []).
    { intros segs H. apply in_map_iff in H as [[segs' c] [E Hin]].
      simpl in E. subst segs'.
      apply KeepFacts.relWalk_walked in Hin as [ds [f [r [Hl [_ [_ ->]]]]]].
      split.
      - eapply Forall_impl; [apply PathFacts.plain_noSlash|].
        apply Forall_app. split; [exact Hrs|].
        inversion Hwf; subst. eapply KeepFacts.located_plain; eassumption.
      - intros E. apply app_eq_nil in E as [_ E].
        apply app_eq_nil in E as [_ E]. discriminate. }
    intros x y Hx Hy E. destruct (Hk x Hx), (Hk y Hy).
    unfold absPath in E. inversion E as [E'].
    apply ListingFacts.joinSlash_injective in E'; try assumption.
    apply app_inv_head in E'. exact E'.
  - apply KeepFacts.relWalk_NoDup. exact Hwf.
Qed.

Lemma code_files_have_distinct_paths_witness :
  NoDup (map cf_path
           (findCodeFiles (lit "/app") sampleDisk
              (lit "/app/build/temp/lodash"))).
Proof.
  apply (@code_files_have_distinct_paths (lit "/app") sampleDisk
           [lit "app"; lit "build"; lit "temp"; lit "lodash"] samplePackage
           plain_of_lit_segments eq_refl samplePackage_wf).
Defined.

(* ================================================================= *)
(** ** The package tools: validation comes first *)

(** A package name the tools refuse: missing, empty, or rejected by
    [validatePackageName]. *)
Definition refusedName (packageName : option jsstr) : Prop :=
  match packageName with
  | None => True
  | Some name => name = [] \/ validatePackageName name <> Ok tt
  end.

Lemma validatePackageName_throws (name : jsstr) :
  validatePackageName name <> Ok tt ->
  exists m, validatePackageName name = Throw (McpError InvalidParams m).
Proof.
  unfold validatePackageName.
  destruct (negb (Regex.test Regex.PACKAGE_NAME_RE name)); [eauto|].
  destruct (includes name (lit "..") || includes name [0%N]
            || includes name [10%N]); [eauto | contradiction].
Qed.

(** X7: a package tool given a missing, empty or invalid package name
    throws an invalid-params error before anything else happens: no request
    is sent and the file system is not touched. *)
Theorem refused_name_stops_every_tool (w : World)
  (details : PackageInfo -> PackageDetails) (stringify : InfoSummary -> jsstr)
  (packageName version filePath : option jsstr) :
  refusedName packageName ->
  (exists m,
      getNpmPackageCode w
        {| gc_packageName := packageName; gc_version := version;
           gc_filePath := filePath |}
      = ([], Throw (McpError InvalidParams m)))
  /\ (exists m,
         listPackageFiles w
           {| lf_packageName := packageName; lf_version := version |}
         = ([], Throw (McpError InvalidParams m)))
  /\ (exists m,
         getPackageInfo w details stringify
           {| lf_packageName := packageName; lf_version := version |}
         = ([], Throw (McpError InvalidParams m))).
Proof.
  intros H. unfold refusedName in H.
  unfold getNpmPackageCode, listPackageFiles, getPackageInfo.
  simpl gc_packageName. simpl lf_packageName.
  destruct packageName as [[|c name]|].
  - repeat split; eexists; reflexivity.
  - destruct H as [H|H]; [discriminate|].
    destruct (@validatePackageName_throws _ H) as [m ->].
    repeat split; eexists; reflexivity.
  - repeat split; eexists; reflexivity.
Qed.

Lemma refused_name_stops_every_tool_witness :
  exists m,
    listPackageFiles servingWorld
      {| lf_packageName := Some (lit "../etc"); lf_version := None |}
    = ([], Throw (McpError InvalidParams m)).
Proof.
  apply (@refused_name_stops_every_tool servingWorld
           (fun _ => {| pd_main := None; pd_types := None; pd_keywords := None;
                        pd_author := None; pd_license := None;
                        pd_homepage := None; pd_repositoryUrl := None;
                        pd_dependencies := None; pd_devDependencies := None |})
           (fun _ => []) (Some (lit "../etc")) None None).
  right. discriminate.
Defined.

(* ================================================================= *)
(** ** The package tools: the metadata request *)

Lemma fetchPackageInfo_trace (w : World) (name : jsstr)
  (version : option jsstr) :
  trace (fetchPackageInfo w name version)
  = match packageUrl name version with
    | Some url => [HttpGet url]
    | None => []
    end.
Proof.
  unfold fetchPackageInfo.
  destruct (packageUrl name version) as [url|]; [|reflexivity].
  destruct (registry w url) as [d| |]; try reflexivity.
  destruct (parsePackageInfo w d) as [info|e]; [|reflexivity].
  destruct (pi_dist info) as [dist|]; [|reflexivity].
  destruct (truthy (tarball dist)); reflexivity.
Qed.

(** X8: when [fetchPackageInfo] returns, it has sent exactly one request,
    to the URL of the package and version, and the metadata it returns
    carries a non-empty tarball URL. *)
Theorem fetched_info_has_tarball (w : World) (name : jsstr)
  (version : option jsstr) (info : PackageInfo) :
  outcome (fetchPackageInfo w name version) = Ok info ->
  truthy (tarballOf info) = true
  /\ exists url,
       packageUrl name version = Some url
       /\ trace (fetchPackageInfo w name version) = [HttpGet url].
Proof.
  rewrite fetchPackageInfo_trace. unfold fetchPackageInfo.
  destruct (packageUrl name version) as [url|]; [|discriminate].
  destruct (registry w url) as [d| |]; try discriminate.
  destruct (parsePackageInfo w d) as [info'|e]; [|discriminate].
  unfold tarballOf.
  destruct (pi_dist info') as [dist|] eqn:Ed; [|discriminate].
  destruct (truthy (tarball dist)) eqn:Et; [|discriminate].
  simpl. intros H. inversion H; subst info'. rewrite Ed.
  split; [exact Et | eauto].
Qed.

Lemma fetched_info_has_tarball_witness :
  truthy (tarballOf sampleInfo) = true
  /\ exists url,
       packageUrl (lit "lodash") (Some (lit "4.17.21")) = Some url
       /\ trace (fetchPackageInfo servingWorld (lit "lodash")
                   (Some (lit "4.17.21"))) = [HttpGet url].
Proof.
  apply (@fetched_info_has_tarball servingWorld (lit "lodash")
           (Some (lit "4.17.21")) sampleInfo).
  reflexivity.
Defined.

Lemma tool_after_fetch_failure {A} (w : World) (name : jsstr)
  (version : option jsstr) (e : exn) (k : PackageInfo -> io A)
  (prefix : jsstr) :
  outcome (fetchPackageInfo w name version) = Throw e ->
  tryCatch (bind (fetchPackageInfo w name version) k)
    (fun error => throw (McpError InternalError (prefix ++ messageOf error)))
  = (trace (fetchPackageInfo w name version),
     Throw (McpError InternalError (prefix ++ messageOf e))).
Proof.
  destruct (fetchPackageInfo w name version) as [t [info|e']]; simpl;
    intros H; [discriminate|]. inversion H; subst. rewrite app_nil_r.
  reflexivity.
Qed.

(** X9: when the metadata request of a package tool fails, the tool throws
    an internal error that quotes the cause, and it has done nothing but
    that request: no directory was removed or created and no tarball was
    requested. *)
Theorem fetch_failure_touches_no_disk (w : World)
  (details : PackageInfo -> PackageDetails) (stringify : InfoSummary -> jsstr)
  (name : jsstr) (version filePath : option jsstr) (e : exn) :
  truthy name = true ->
  validatePackageName name = Ok tt ->
  outcome (fetchPackageInfo w name version) = Throw e ->
  let sent := match packageUrl name version with
              | Some url => [HttpGet url]
              | None => []
              end in
  getNpmPackageCode w
    {| gc_packageName := Some name; gc_version := version;
       gc_filePath := filePath |}
  = (sent, Throw (McpError InternalError
                    (lit "Failed to fetch package code: " ++ messageOf e)))
  /\ listPackageFiles w {| lf_packageName := Some name; lf_version := version |}
     = (sent, Throw (McpError InternalError
                       (lit "Failed to list package files: " ++ messageOf e)))
  /\ getPackageInfo w details stringify
       {| lf_packageName := Some name; lf_version := version |}
     = (sent, Throw (McpError InternalError
                       (lit "Failed to get package info: " ++ messageOf e))).
Proof.
  intros Hn Hv Hf sent.
  unfold getNpmPackageCode, listPackageFiles, getPackageInfo.
  simpl gc_packageName. simpl lf_packageName. simpl gc_version.
  simpl lf_version.
  destruct name as [|c name]; [discriminate|]. rewrite Hv.
  unfold liftResult. rewrite !bind_nil_ok.
  rewrite !(@tool_after_fetch_failure _ w (c :: name) version e _ _ Hf).
  rewrite fetchPackageInfo_trace. auto.
Qed.

Lemma fetch_failure_touches_no_disk_witness :
  getNpmPackageCode silentWorld
    {| gc_packageName := Some (lit "lodash"); gc_version := None;
       gc_filePath := None |}
  = ([HttpGet (lit "https://registry.npmjs.org/lodash/latest")],
     Throw (McpError InternalError
              (lit "Failed to fetch package code: Request timeout"))).
Proof.
  apply (@fetch_failure_touches_no_disk silentWorld
           (fun _ => {| pd_main := None; pd_types := None; pd_keywords := None;
                        pd_author := None; pd_license := None;
                        pd_homepage := None; pd_repositoryUrl := None;
                        pd_dependencies := None; pd_devDependencies := None |})
           (fun _ => []) (lit "lodash") None None
           (Error (lit "Request timeout"))); reflexivity.
Defined.

(* ================================================================= *)
(** ** The URLs the server requests *)

Module UriFacts.
Import Uri.

(** What [encodeURIComponent] can produce: a kept character or ['%']. *)
Definition inert (c : N) : Prop := unreserved c = true \/ c = 37%N.

Lemma hexDigit_unreserved (d : N) : (d < 16)%N -> unreserved (hexDigit d) = true.
Proof.
  intros H. unfold hexDigit, unreserved, Regex.alnumCI.
  destruct (N.ltb_spec d 10) as [L|L].
  - apply orb_true_iff. left. apply orb_true_iff. right.
    apply andb_true_iff. split; apply N.leb_le; lia.
  - apply orb_true_iff. left. apply orb_true_iff. left.
    apply orb_true_iff. right.
    apply andb_true_iff. split; apply N.leb_le; lia.
Qed.

Lemma percent_inert (b : N) : (b < 256)%N -> Forall inert (percent b).
Proof.
  intros H. unfold percent.
  constructor; [right; reflexivity|].
  constructor.
  { left. apply hexDigit_unreserved.
    apply N.Div0.div_lt_upper_bound. lia. }
  constructor; [|constructor].
  left. apply hexDigit_unreserved. apply N.mod_lt. discriminate.
Qed.

Lemma utf8_bytes (cp : N) :
  (cp < 1114112)%N -> Forall (fun b => (b < 256)%N) (utf8 cp).
Proof.
  intros H. unfold utf8.
  assert (M : forall a, (a mod 64 < 64)%N) by (intros a; apply N.mod_lt; discriminate).
  destruct (N.ltb_spec cp 128); [repeat constructor; lia|].
  destruct (N.ltb_spec cp 2048).
  { assert (cp / 64 < 32)%N by (apply N.Div0.div_lt_upper_bound; lia).
    pose proof (M cp). repeat constructor; lia. }
  destruct (N.ltb_spec cp 65536).
  { assert (cp / 4096 < 16)%N by (apply N.Div0.div_lt_upper_bound; lia).
    pose proof (M cp). pose proof (M (cp / 64)%N). repeat constructor; lia. }
  assert (cp / 262144 < 5)%N by (apply N.Div0.div_lt_upper_bound; lia).
  pose proof (M cp). pose proof (M (cp / 64)%N). pose proof (M (cp / 4096)%N).
  repeat constructor; lia.
Qed.

Lemma encoded_unit_inert (cp : N) :
  (cp < 1114112)%N -> Forall inert (flat_map percent (utf8 cp)).
Proof.
  intros H. apply Forall_flat_map.
  eapply Forall_impl; [|apply utf8_bytes; exact H].
  intros b. apply percent_inert.
Qed.

(** The result of [encodeURIComponent] on 16-bit code units holds only
    kept characters and ['%']. *)
Lemma encodeURIComponent_inert (n : nat) :
  forall s e,
    (List.length s <= n)%nat ->
    Forall (fun c => (c < 65536)%N) s ->
    encodeURIComponent s = Some e ->
    Forall inert e.
Proof.
  induction n as [|n IH]; intros s e Hlen Hs He.
  - destruct s; [|simpl in Hlen; lia]. inversion He. constructor.
  - destruct s as [|c rest]; [inversion He; constructor|].
    inversion Hs as [|? ? Hc Hrest]; subst.
    cbn [encodeURIComponent] in He.
    destruct (unreserved c) eqn:Eu.
    { destruct (encodeURIComponent rest) as [e'|] eqn:Er; [|discriminate].
      inversion He; subst. constructor; [left; exact Eu|].
      apply (IH rest); [simpl in Hlen; lia | exact Hrest | exact Er]. }
    destruct (isLowSurrogate c); [discriminate|].
    destruct (isHighSurrogate c) eqn:Eh.
    + destruct rest as [|d rest']; [discriminate|].
      destruct (isLowSurrogate d) eqn:El; [|discriminate].
      destruct (encodeURIComponent rest') as [e'|] eqn:Er; [|discriminate].
      inversion He; subst. apply Forall_app. split.
      * apply encoded_unit_inert.
        unfold isHighSurrogate in Eh. unfold isLowSurrogate in El.
        apply andb_true_iff in Eh as [_ Eh]. apply andb_true_iff in El as [_ El].
        apply N.leb_le in Eh, El. lia.
      * inversion Hrest; subst.
        apply (IH rest'); [simpl in Hlen; lia | assumption | exact Er].
    + destruct (encodeURIComponent rest) as [e'|] eqn:Er; [|discriminate].
      inversion He; subst. apply Forall_app. split.
      * apply encoded_unit_inert. lia.
      * apply (IH rest); [simpl in Hlen; lia | exact Hrest | exact Er].
Qed.

(** Without surrogates nothing is thrown. *)
Lemma encodeURIComponent_total (s : jsstr) :
  Forall (fun c => (c < 55296)%N) s ->
  exists e, encodeURIComponent s = Some e.
Proof.
  induction 1 as [|c rest Hc _ [e IH]]; [exists []; reflexivity|].
  cbn [encodeURIComponent]. rewrite IH.
  destruct (unreserved c); [eexists; reflexivity|].
  assert (El : isLowSurrogate c = false).
  { unfold isLowSurrogate. apply andb_false_iff. left. apply N.leb_gt. lia. }
  assert (Eh : isHighSurrogate c = false).
  { unfold isHighSurrogate. apply andb_false_iff. left. apply N.leb_gt. lia. }
  rewrite El, Eh. eexists; reflexivity.
Qed.

Lemma inert_excludes (c : N) :
  inert c ->
  c <> 38%N /\ c <> 61%N /\ c <> 35%N /\ c <> 63%N /\ c <> 47%N /\ c <> 32%N.
Proof.
  intros [H|H]; [|subst; repeat split; discriminate].
  repeat split; intros ->; discriminate H.
Qed.

End UriFacts.

(** The delimiters of a URL: [& = # ? /] and the space. *)
Definition urlDelimiters : list N := [38; 61; 35; 63; 47; 32]%N.

Lemma inert_no_delimiter (e : jsstr) :
  Forall UriFacts.inert e -> forall c, In c urlDelimiters -> ~ In c e.
Proof.
  intros He c Hc Hin. rewrite Forall_forall in He.
  destruct (UriFacts.inert_excludes (He c Hin)) as [H1 [H2 [H3 [H4 [H5 H6]]]]].
  unfold urlDelimiters in Hc. simpl in Hc.
  destruct Hc as [E|[E|[E|[E|[E|[E|[]]]]]]]; subst c; congruence.
Qed.

Lemma accepted_unit_ascii (c : N) :
  RegexFacts.accepts Regex.PACKAGE_NAME_RE c = true -> (c < 128)%N.
Proof.
  unfold Regex.PACKAGE_NAME_RE, Regex.Opt. simpl RegexFacts.accepts.
  unfold Regex.isChar, Regex.nameStart, Regex.nameRest, Regex.alnumCI.
  intros H.
  repeat rewrite ?orb_true_iff, ?andb_true_iff, ?N.leb_le, ?N.eqb_eq in H.
  lia.
Qed.

Lemma valid_name_ascii (name : jsstr) :
  validatePackageName name = Ok tt -> Forall (fun c => (c < 128)%N) name.
Proof.
  intros H. apply validatePackageName_ok in H as [Hre _].
  apply RegexFacts.test_matches, RegexFacts.matches_accepts in Hre.
  eapply Forall_impl; [|exact Hre]. apply accepted_unit_ascii.
Qed.

(** X10: for a package name that [validatePackageName] accepts,
    [encodeURIComponent] never throws; without a version,
    [fetchPackageInfo] sends exactly one request, to
    [https://registry.npmjs.org/<encoded name>/latest], and the encoded name
    holds none of [& = # ? /] or a space (the ['/'] of a scope is sent as
    [%2F]). *)
Theorem valid_name_metadata_request (w : World) (name : jsstr) :
  validatePackageName name = Ok tt ->
  exists e,
    Uri.encodeURIComponent name = Some e
    /\ (forall c, In c urlDelimiters -> ~ In c e)
    /\ trace (fetchPackageInfo w name None)
       = [HttpGet (lit "https://registry.npmjs.org/" ++ e ++ lit "/latest")].
Proof.
  intros Hv. pose proof (valid_name_ascii name Hv) as Hascii.
  destruct (@UriFacts.encodeURIComponent_total name) as [e He].
  { eapply Forall_impl; [|exact Hascii]. intros c Hc. simpl in Hc. lia. }
  exists e. split; [exact He|]. split.
  - apply inert_no_delimiter.
    apply (@UriFacts.encodeURIComponent_inert (List.length name) name e);
      [lia | | exact He].
    eapply Forall_impl; [|exact Hascii]. intros c Hc. simpl in Hc. lia.
  - rewrite fetchPackageInfo_trace. unfold packageUrl. rewrite He. reflexivity.
Qed.

Lemma valid_name_metadata_request_witness :
  exists e,
    Uri.encodeURIComponent (lit "@babel/core") = Some e
    /\ (forall c, In c urlDelimiters -> ~ In c e)
    /\ trace (fetchPackageInfo silentWorld (lit "@babel/core") None)
       = [HttpGet (lit "https://registry.npmjs.org/" ++ e ++ lit "/latest")].
Proof.
  apply (@valid_name_metadata_request silentWorld (lit "@babel/core")).
  reflexivity.
Defined.



(* ================================================================= *)
(** ** The popular-packages resource: what a fetch collects *)


(** The packages kept after the search for one term: those of the answer
    are added, a failed search adds nothing. *)
Definition afterSearch (w : World) (seen : list jsstr * list SearchResult)
  (searchTerm : jsstr) : list jsstr * list SearchResult :=
  match outcome (performPackageSearch w searchTerm 10 0) with
  | Ok results => addResults seen (sp_objects results)
  | Throw _ => seen
  end.

Lemma collectPopular_step (w : World) (q : jsstr) (rest : list jsstr)
  (seen : list jsstr * list SearchResult) :
  collectPopular w (q :: rest) seen
  = bind (trace (performPackageSearch w q 10 0), Ok (afterSearch w seen q))
         (fun seen' => collectPopular w rest seen').
Proof.
  simpl collectPopular. unfold afterSearch.
  destruct (performPackageSearch w q 10 0) as [t [r|e]]; simpl;
    rewrite ?app_nil_r; reflexivity.
Qed.

Lemma collectPopular_trace (w : World) (terms : list jsstr) :
  forall seen,
    trace (collectPopular w terms seen)
    = flat_map (fun q => trace (performPackageSearch w q 10 0)) terms.
Proof.
  induction terms as [|q rest IH]; intros seen; [reflexivity|].
  rewrite collectPopular_step, bind_ok_trace, IH. reflexivity.
Qed.

Lemma collectPopular_outcome (w : World) (terms : list jsstr) :
  forall seen,
    outcome (collectPopular w terms seen)
    = Ok (fold_left (afterSearch w) terms seen).
Proof.
  induction terms as [|q rest IH]; intros seen; [reflexivity|].
  rewrite collectPopular_step, bind_ok_outcome, IH. reflexivity.
Qed.

(** The loop invariant of the collection: the set of names seen is the set
    of names of the packages kept, and no name is kept twice. *)
Definition collected (seen : list jsstr * list SearchResult) : Prop :=
  NoDup (map sr_name (snd seen))
  /\ forall n, In n (fst seen) <-> In n (map sr_name (snd seen)).

Lemma addResults_collected (objs : list SearchResult) :
  forall seen,
    collected seen ->
    collected (addResults seen objs)
    /\ (forall p, In p (snd (addResults seen objs)) ->
                  In p (snd seen) \/ In p objs)
    /\ (forall n, In n (map sr_name (snd seen)) ->
                  In n (map sr_name (snd (addResults seen objs))))
    /\ (forall p, In p objs ->
                  In (sr_name p) (map sr_name (snd (addResults seen objs)))).
Proof.
  unfold addResults.
  induction objs as [|pkg objs IH]; intros seen Hc.
  - simpl. repeat split; auto; try apply Hc. intros p [].
  - simpl fold_left.
    destruct (arrIncludes (fst seen) (sr_name pkg)) eqn:Ei.
    + destruct (IH seen Hc) as [H1 [H2 [H3 H4]]].
      split; [exact H1|]. split; [|split].
      * intros p Hp. destruct (H2 p Hp); [left | right; right]; assumption.
      * exact H3.
      * intros p [<-|Hp]; [|apply H4; exact Hp].
        apply H3. apply Hc. apply ListingFacts.arrIncludes_In. exact Ei.
    + set (seen' := (sr_name pkg :: fst seen, snd seen ++ [pkg])).
      assert (Hc' : collected seen').
      { destruct Hc as [Hnd Hset]. unfold collected, seen'. simpl.
        rewrite map_app. simpl. split.
        - apply (Permutation_NoDup (Permutation_cons_append _ _)).
          constructor; [|exact Hnd].
          intros Hin. apply Hset in Hin.
          apply ListingFacts.arrIncludes_In in Hin. congruence.
        - intros n. rewrite in_app_iff. simpl. rewrite Hset. tauto. }
      destruct (IH seen' Hc') as [H1 [H2 [H3 H4]]].
      split; [exact H1|]. split; [|split].
      * intros p Hp. destruct (H2 p Hp) as [Hs|Ho]; [|right; right; exact Ho].
        unfold seen' in Hs. simpl in Hs. apply in_app_iff in Hs.
        destruct Hs as [Hs|[<-|[]]]; [left; exact Hs | right; left; reflexivity].
      * intros n Hn. apply H3. unfold seen'. simpl. rewrite map_app.
        apply in_app_iff. left. exact Hn.
      * intros p [<-|Hp]; [|apply H4; exact Hp].
        apply H3. unfold seen'. simpl. rewrite map_app.
        apply in_app_iff. right. left. reflexivity.
Qed.

Lemma collect_collected (w : World) (terms : list jsstr) :
  forall seen,
    collected seen ->
    let final := fold_left (afterSearch w) terms seen in
    collected final
    /\ (forall p, In p (snd final) ->
          In p (snd seen)
          \/ exists q r, In q terms
                         /\ outcome (performPackageSearch w q 10 0) = Ok r
                         /\ In p (sp_objects r))
    /\ (forall n, In n (map sr_name (snd seen)) -> In n (map sr_name (snd final)))
    /\ (forall q r p, In q terms ->
          outcome (performPackageSearch w q 10 0) = Ok r ->
          In p (sp_objects r) ->
          In (sr_name p) (map sr_name (snd final))).
Proof.
  induction terms as [|q rest IH]; intros seen Hc; simpl.
  - repeat split; auto; try apply Hc. intros q r p [].
  - assert (Hstep : collected (afterSearch w seen q)
                    /\ (forall p, In p (snd (afterSearch w seen q)) ->
                          In p (snd seen)
                          \/ exists r, outcome (performPackageSearch w q 10 0) = Ok r
                                       /\ In p (sp_objects r))
                    /\ (forall n, In n (map sr_name (snd seen)) ->
                          In n (map sr_name (snd (afterSearch w seen q))))
                    /\ (forall r p,
                          outcome (performPackageSearch w q 10 0) = Ok r ->
                          In p (sp_objects r) ->
                          In (sr_name p)
                             (map sr_name (snd (afterSearch w seen q))))).
    { unfold afterSearch.
      destruct (outcome (performPackageSearch w q 10 0)) as [r|e].
      - destruct (@addResults_collected (sp_objects r) seen Hc)
          as [H1 [H2 [H3 H4]]].
        split; [exact H1|]. split; [|split].
        + intros p Hp. destruct (H2 p Hp); [left | right; exists r]; auto.
        + exact H3.
        + intros r' p E. inversion E; subst r'. apply H4.
      - split; [exact Hc|]. split; [|split]; auto.
        intros r p E. discriminate E. }
    destruct Hstep as [S1 [S2 [S3 S4]]].
    destruct (IH (afterSearch w seen q) S1) as [H1 [H2 [H3 H4]]].
    split; [exact H1|]. split; [|split].
    + intros p Hp. destruct (H2 p Hp) as [Hs|[q' [r [Hq [Hr Hin]]]]].
      * destruct (S2 p Hs) as [Hs'|[r [Hr Hin]]]; [left; exact Hs'|].
        right. exists q, r. auto.
      * right. exists q', r. auto.
    + intros n Hn. apply H3, S3, Hn.
    + intros q' r p [<-|Hq] Hr Hin.
      * apply H3. eapply S4; eassumption.
      * eapply H4; eassumption.
Qed.

(** X12: the collection loop of [getPopularPackages] never fails, whatever
    the five searches do; the packages it keeps carry distinct names, each
    of them comes from the answer of one of the five searches, and every name
    that a successful search returned is kept. *)
Theorem popular_collection_distinct (w : World) :
  exists names pkgs,
    outcome (collectPopular w popularQueries ([], [])) = Ok (names, pkgs)
    /\ NoDup (map sr_name pkgs)
    /\ (forall p, In p pkgs ->
          exists q r, In q popularQueries
                      /\ outcome (performPackageSearch w q 10 0) = Ok r
                      /\ In p (sp_objects r))
    /\ (forall q r p, In q popularQueries ->
          outcome (performPackageSearch w q 10 0) = Ok r ->
          In p (sp_objects r) ->
          In (sr_name p) (map sr_name pkgs)).
Proof.
  assert (H0 : collected ([], [])).
  { split; [constructor | intros n; reflexivity]. }
  destruct (@collect_collected w popularQueries ([], []) H0) as [H1 [H2 [_ H4]]].
  rewrite collectPopular_outcome.
  destruct (fold_left (afterSearch w) popularQueries ([], [])) as [names pkgs].
  exists names, pkgs. split; [reflexivity|]. split; [apply H1|]. split.
  - intros p Hp. destruct (H2 p Hp) as [[]|H]. exact H.
  - exact H4.
Qed.

(* ================================================================= *)
(** ** The popular-packages resource: requests and failures *)

Lemma fetchPopular_trace (w : World) :
  trace (fetchPopular w)
  = flat_map (fun q => trace (performPackageSearch w q 10 0)) popularQueries.
Proof.
  rewrite <- (collectPopular_trace w popularQueries ([], [])).
  pose proof (collectPopular_outcome w popularQueries ([], [])) as Ho.
  unfold fetchPopular.
  destruct (collectPopular w popularQueries ([], [])) as [t [seen|e]];
    [|discriminate Ho].
  simpl. destruct (formatPopular w (snd seen)); simpl;
    rewrite ?app_nil_r; reflexivity.
Qed.

Lemma fetchPopular_outcome (w : World) :
  outcome (fetchPopular w)
  = match formatPopular w (snd (fold_left (afterSearch w) popularQueries ([], []))) with
    | Ok body =>
        Ok ((popularHeader ++ lit "Updated: " ++ isoNow w ++ NL ++ NL) ++ body)
    | Throw error =>
        Throw (McpError InternalError
                 (lit "Failed to fetch popular packages: " ++ messageOf error))
    end.
Proof.
  pose proof (collectPopular_outcome w popularQueries ([], [])) as Ho.
  unfold fetchPopular.
  destruct (collectPopular w popularQueries ([], [])) as [t [seen|e]];
    [|discriminate Ho].
  simpl in Ho. inversion Ho as [E]. simpl.
  destruct (formatPopular w _); reflexivity.
Qed.

(** X13: a read of the popular-packages resource that does not find a fresh
    cache sends exactly five search requests, for react, lodash, express,
    typescript and webpack in this order, each for 10 results from offset 0;
    it sends them all whether the registry answers or not and whether the
    read succeeds or not. *)
Theorem popular_miss_sends_five_searches (w : World) (now : Z)
  (st : ServerState) :
  cacheFresh now st = false ->
  trace (fst (getPopularPackages w now st))
  = map (fun q => HttpGet (searchUrl q 10 0)) popularQueries.
Proof.
  intros Hm. unfold getPopularPackages. rewrite Hm.
  pose proof (fetchPopular_trace w) as Ht.
  destruct (fetchPopular w) as [t [text|e]]; simpl in *; rewrite Ht;
    unfold popularQueries; cbn [flat_map map];
    rewrite !performPackageSearch_trace; reflexivity.
Qed.

Lemma popular_miss_sends_five_searches_witness :
  trace (fst (getPopularPackages silentWorld 1700000000000 initialState))
  = map (fun q => HttpGet (searchUrl q 10 0)) popularQueries.
Proof.
  apply (@popular_miss_sends_five_searches silentWorld 1700000000000
           initialState).
  reflexivity.
Defined.

(** X14: a read of the popular-packages resource fails only when printing
    the collected packages throws; the error is an internal error that
    quotes the cause, and the cache and its time are left as they were. *)
Theorem popular_failure_keeps_cache (w : World) (now : Z) (st : ServerState)
  (e : exn) :
  outcome (fst (getPopularPackages w now st)) = Throw e ->
  snd (getPopularPackages w now st) = st
  /\ exists pkgs error,
       formatPopular w pkgs = Throw error
       /\ e = McpError InternalError
                (lit "Failed to fetch popular packages: " ++ messageOf error).
Proof.
  unfold getPopularPackages.
  destruct (cacheFresh now st); [discriminate|].
  pose proof (fetchPopular_outcome w) as Ho.
  destruct (fetchPopular w) as [t [text|e']]; simpl; [discriminate|].
  intros H. inversion H; subst e'. split; [reflexivity|].
  change (outcome (t, Throw e)) with (@Throw jsstr e) in Ho.
  destruct (formatPopular w
              (snd (fold_left (afterSearch w) popularQueries ([], []))))
    as [body|error] eqn:Ef; [discriminate Ho|].
  inversion Ho. eauto.
Qed.

(** A world in which the registry answers and printing the popular packages
    throws. *)
Definition brokenPrintWorld : World :=
  {| cwd := cwd servingWorld;
     dirname := dirname servingWorld;
     registry := registry servingWorld;
     parsePackageInfo := parsePackageInfo servingWorld;
     parseSearchResponse := parseSearchResponse servingWorld;
     diskBefore := diskBefore servingWorld;
     rmSync := rmSync servingWorld;
     mkdirSync := mkdirSync servingWorld;
     download := download servingWorld;
     formatSearchResults := formatSearchResults servingWorld;
     isoNow := isoNow servingWorld;
     formatPopular :=
       fun _ => Throw (Error (lit "Cannot read properties of undefined")) |}.

Lemma popular_failure_keeps_cache_witness :
  snd (getPopularPackages brokenPrintWorld 1700000000000 initialState)
  = initialState
  /\ exists pkgs error,
       formatPopular brokenPrintWorld pkgs = Throw error
       /\ McpError InternalError
            (lit "Failed to fetch popular packages: Cannot read properties of undefined")
          = McpError InternalError
              (lit "Failed to fetch popular packages: " ++ messageOf error).
Proof.
  apply (@popular_failure_keeps_cache brokenPrintWorld 1700000000000
           initialState).
  reflexivity.
Defined.

(** X15: when none of the five searches succeeds, the read still succeeds:
    it prints the empty collection, stores that summary, and every read in
    the following 24 hours returns the stored summary without a request. *)
Theorem popular_outage_is_cached (w : World) (now later : Z)
  (st : ServerState) (body : jsstr) :
  cacheFresh now st = false ->
  (forall q, In q popularQueries ->
             exists e, outcome (performPackageSearch w q 10 0) = Throw e) ->
  formatPopular w [] = Ok body ->
  (later - now < CACHE_DURATION)%Z ->
  let text := (popularHeader ++ lit "Updated: " ++ isoNow w ++ NL ++ NL) ++ body in
  let st' := {| popularPackagesCache := Some text;
                popularPackagesCacheTime := now |} in
  outcome (fst (getPopularPackages w now st)) = Ok (popularResource text)
  /\ snd (getPopularPackages w now st) = st'
  /\ getPopularPackages w later st' = (([], Ok (popularResource text)), st').
Proof.
  intros Hm Hfail Hfmt Hlater text st'.
  assert (Hempty : forall terms,
             (forall q, In q terms ->
                exists e, outcome (performPackageSearch w q 10 0) = Throw e) ->
             fold_left (afterSearch w) terms ([], []) = ([], [])).
  { induction terms as [|q rest IH]; intros H; [reflexivity|].
    simpl. unfold afterSearch at 2.
    destruct (H q (or_introl eq_refl)) as [e ->].
    apply IH. intros q' Hq'. apply H. right. exact Hq'. }
  pose proof (fetchPopular_outcome w) as Ho.
  rewrite (Hempty popularQueries Hfail) in Ho. simpl snd in Ho.
  rewrite Hfmt in Ho.
  assert (Hfetch : outcome (fst (getPopularPackages w now st))
                   = Ok (popularResource text)
                   /\ snd (getPopularPackages w now st) = st').
  { unfold getPopularPackages. rewrite Hm.
    destruct (fetchPopular w) as [t [text'|e]]; simpl in Ho;
      [|discriminate Ho].
    inversion Ho; subst text'. split; reflexivity. }
  destruct Hfetch as [H1 H2]. split; [exact H1|]. split; [exact H2|].
  apply getPopularPackages_hit with (summary := text);
    [reflexivity | reflexivity | exact Hlater].
Qed.

Lemma popular_outage_is_cached_witness :
  let text := (popularHeader ++ lit "Updated: " ++ isoNow silentWorld ++ NL ++ NL)
              ++ [] in
  let st' := {| popularPackagesCache := Some text;
                popularPackagesCacheTime := 1700000000000 |} in
  outcome (fst (getPopularPackages silentWorld 1700000000000 initialState))
  = Ok (popularResource text)
  /\ snd (getPopularPackages silentWorld 1700000000000 initialState) = st'
  /\ getPopularPackages silentWorld 1700003600000 st'
     = (([], Ok (popularResource text)), st').
Proof.
  apply (@popular_outage_is_cached silentWorld 1700000000000 1700003600000
           initialState []).
  - reflexivity.
  - intros q Hq. exists (Error (lit "Search request timeout")).
    unfold popularQueries in Hq. simpl in Hq.
    destruct Hq as [<-|[<-|[<-|[<-|[<-|[]]]]]]; reflexivity.
  - reflexivity.
  - reflexivity.
Defined.

(* ================================================================= *)
(** ** The bearer-token check, exactly *)

(** X16: with a non-empty token configured, [isAuthValid] accepts a header
    exactly when it is ["Bearer "] followed by the token, or it is the token
    itself and the token does not start with ["Bearer "]; a missing header
    is refused. *)
Theorem auth_header_accepted_exactly (tok : jsstr) (header : option jsstr) :
  truthy tok = true ->
  isAuthValid (Some tok) header = true
  <-> header = Some (lit "Bearer " ++ tok)
      \/ (header = Some tok /\ startsWith tok (lit "Bearer ") = false).
Proof.
  intros Htok. unfold isAuthValid. simpl truthyOpt at 1. rewrite Htok.
  simpl negb. cbv iota.
  destruct header as [h|]; simpl truthyOpt.
  - destruct (truthy h) eqn:Hh; simpl negb; cbv iota.
    + destruct (startsWith h (lit "Bearer ")) eqn:Hb.
      * rewrite eqb_eq. split.
        -- intros E. left. apply startsWith_spec in Hb as [r ->].
           change (skipn 7 (lit "Bearer " ++ r)) with r in E. subst r.
           reflexivity.
        -- intros [E|[E Hs]].
           ++ inversion E; subst h. reflexivity.
           ++ inversion E; subst h. congruence.
      * rewrite eqb_eq. split.
        -- intros E. subst h. right. split; [reflexivity | exact Hb].
        -- intros [E|[E _]].
           ++ inversion E; subst h.
              assert (Hp : startsWith (lit "Bearer " ++ tok) (lit "Bearer ") = true)
                by (apply startsWith_spec; exists tok; reflexivity).
              congruence.
           ++ inversion E; reflexivity.
    + destruct h; [|discriminate Hh]. split; [discriminate|].
      intros [E|[E _]]; [discriminate E|].
      inversion E as [E']. rewrite <- E' in Htok. discriminate Htok.
  - simpl negb. cbv iota. split; [discriminate|].
    intros [E|[E _]]; discriminate E.
Qed.

Lemma auth_header_accepted_exactly_witness :
  isAuthValid (Some (lit "Bearer x")) (Some (lit "Bearer x")) = true
  <-> Some (lit "Bearer x") = Some (lit "Bearer " ++ lit "Bearer x")
      \/ (Some (lit "Bearer x") = Some (lit "Bearer x")
          /\ startsWith (lit "Bearer x") (lit "Bearer ") = false).
Proof.
  apply (@auth_header_accepted_exactly (lit "Bearer x") (Some (lit "Bearer x"))).
  reflexivity.
Defined.

(* ================================================================= *)
(** ** Package names and extraction directories *)

(** The parts of a package name: the first unit is ['@'] or a unit of
    [[a-z0-9-~]]; every later unit is one of [[a-z0-9-._~]] or the ['/'] of
    the scope. *)
Lemma package_name_units (s : jsstr) :
  RegexFacts.matches Regex.PACKAGE_NAME_RE s ->
  exists c rest,
    s = c :: rest
    /\ (c = 64%N \/ Regex.nameStart c = true)
    /\ Forall (fun d => Regex.nameRest d = true \/ d = 47%N) rest.
Proof.
  unfold Regex.PACKAGE_NAME_RE, Regex.Opt. intros H.
  apply RegexFacts.matches_seq_inv in H as [scope [t [-> [Hscope Ht]]]].
  apply RegexFacts.matches_seq_inv in Ht as [u [v [-> [Hu Hv]]]].
  apply RegexFacts.matches_cls_inv in Hu as [c [-> Hc]].
  apply RegexFacts.matches_accepts in Hv. simpl in Hv.
  assert (Hstart : forall d, Regex.nameStart d = true -> Regex.nameRest d = true).
  { intros d. unfold Regex.nameStart, Regex.nameRest.
    rewrite !orb_true_iff. tauto. }
  assert (Hv' : Forall (fun d => Regex.nameRest d = true \/ d = 47%N) v).
  { eapply Forall_impl; [|exact Hv]. simpl. auto. }
  apply RegexFacts.matches_alt_inv in Hscope as [Hw | Hw].
  - apply RegexFacts.matches_seq_inv in Hw as [x [y [-> [Hx Hy]]]].
    apply RegexFacts.matches_cls_inv in Hx as [d [-> Hd]].
    unfold Regex.isChar in Hd. apply N.eqb_eq in Hd. subst d.
    apply RegexFacts.matches_seq_inv in Hy as [x1 [y1 [-> [Hx1 Hy1]]]].
    apply RegexFacts.matches_cls_inv in Hx1 as [d1 [-> Hd1]].
    apply RegexFacts.matches_seq_inv in Hy1 as [x2 [y2 [-> [Hx2 Hy2]]]].
    apply RegexFacts.matches_cls_inv in Hy2 as [d2 [-> Hd2]].
    unfold Regex.isChar in Hd2. apply N.eqb_eq in Hd2. subst d2.
    apply RegexFacts.matches_accepts in Hx2. simpl in Hx2.
    exists 64%N, ((d1 :: x2 ++ [47%N]) ++ c :: v).
    split; [reflexivity|]. split; [left; reflexivity|].
    apply Forall_app. split.
    + constructor; [left; apply Hstart; exact Hd1|].
      apply Forall_app. split.
      * eapply Forall_impl; [|exact Hx2]. simpl. auto.
      * constructor; [right; reflexivity | constructor].
    + constructor; [left; apply Hstart; exact Hc | exact Hv'].
  - apply RegexFacts.matches_eps_inv in Hw. subst scope.
    exists c, v. split; [reflexivity|]. split; [right; exact Hc | exact Hv'].
Qed.

Definition UNDERSCORE : N := 95%N.

Lemma sanitizeUnit_start_inj (c d : N) :
  c = 64%N \/ Regex.nameStart c = true ->
  d = 64%N \/ Regex.nameStart d = true ->
  sanitizeUnit c = sanitizeUnit d -> c = d.
Proof.
  assert (Hs : forall x, Regex.nameStart x = true ->
                         sanitizeUnit x = x /\ x <> 95%N).
  { intros x Hx. unfold sanitizeUnit.
    destruct (N.eqb_spec x 64) as [->|N1]; [discriminate Hx|].
    destruct (N.eqb_spec x 47) as [->|N2]; [discriminate Hx|].
    split; [reflexivity|]. intros ->. discriminate Hx. }
  intros [->|Hc] [->|Hd]; [reflexivity | | |].
  - destruct (Hs d Hd) as [-> N]. intros E. exfalso. apply N. symmetry. exact E.
  - destruct (Hs c Hc) as [-> N]. intros E. exfalso. apply N. exact E.
  - destruct (Hs c Hc) as [-> _]. destruct (Hs d Hd) as [-> _]. auto.
Qed.

Lemma sanitizeUnit_rest_inj (c d : N) :
  Regex.nameRest c = true \/ c = 47%N ->
  Regex.nameRest d = true \/ d = 47%N ->
  c <> UNDERSCORE -> d <> UNDERSCORE ->
  sanitizeUnit c = sanitizeUnit d -> c = d.
Proof.
  unfold UNDERSCORE.
  assert (Hs : forall x, Regex.nameRest x = true -> sanitizeUnit x = x).
  { intros x Hx. unfold sanitizeUnit.
    destruct (N.eqb_spec x 64) as [->|N1]; [discriminate Hx|].
    destruct (N.eqb_spec x 47) as [->|N2]; [discriminate Hx|]. reflexivity. }
  intros [Hc| ->] [Hd| ->] Nc Nd; [| | |reflexivity].
  - rewrite (Hs c Hc), (Hs d Hd). auto.
  - rewrite (Hs c Hc). intros E. exfalso. apply Nc. exact E.
  - rewrite (Hs d Hd). intros E. exfalso. apply Nd. symmetry. exact E.
Qed.

Lemma sanitizeName_injective (n1 n2 : jsstr) :
  validatePackageName n1 = Ok tt ->
  validatePackageName n2 = Ok tt ->
  ~ In UNDERSCORE n1 ->
  ~ In UNDERSCORE n2 ->
  sanitizeName n1 = sanitizeName n2 -> n1 = n2.
Proof.
  intros H1 H2 U1 U2.
  apply validatePackageName_ok in H1 as [R1 _].
  apply validatePackageName_ok in H2 as [R2 _].
  apply RegexFacts.test_matches, package_name_units in R1
    as [c1 [r1 [-> [Hc1 Hr1]]]].
  apply RegexFacts.test_matches, package_name_units in R2
    as [c2 [r2 [-> [Hc2 Hr2]]]].
  rewrite !sanitizeName_map. simpl map. intros E. inversion E as [[Eh Et]].
  f_equal; [apply sanitizeUnit_start_inj; assumption|].
  assert (V1 : ~ In UNDERSCORE r1) by (intros H; apply U1; right; exact H).
  assert (V2 : ~ In UNDERSCORE r2) by (intros H; apply U2; right; exact H).
  clear E Eh U1 U2 Hc1 Hc2. revert r2 Hr2 V2 Et.
  induction Hr1 as [|d1 r1 Hd1 _ IH]; intros r2 Hr2 V2 Et.
  - destruct r2; [reflexivity | discriminate Et].
  - destruct Hr2 as [|d2 r2 Hd2 Hr2]; [discriminate Et|].
    simpl in Et. inversion Et as [[Eh Et']].
    f_equal.
    + apply sanitizeUnit_rest_inj; try assumption.
      * intros ->. apply V1. left. reflexivity.
      * intros ->. apply V2. left. reflexivity.
    + apply IH; try assumption.
      * intros H. apply V1. right. exact H.
      * intros H. apply V2. right. exact H.
Qed.


(** X17: two accepted package names that hold no ['_'] and are extracted
    into the same directory are the same name. *)
Theorem underscore_free_names_have_own_directory (w : World)
  (ds : list jsstr) (n1 n2 : jsstr) :
  dirname w = absPath ds ->
  Forall plain ds ->
  validatePackageName n1 = Ok tt ->
  validatePackageName n2 = Ok tt ->
  ~ In UNDERSCORE n1 ->
  ~ In UNDERSCORE n2 ->
  extractPathOf (tempDir w) n1 = extractPathOf (tempDir w) n2 ->
  n1 = n2.
Proof.
  intros Hdir Hds H1 H2 U1 U2.
  rewrite (@extractPathOf_segments w ds n1 Hdir Hds H1).
  rewrite (@extractPathOf_segments w ds n2 Hdir Hds H2).
  intros E. unfold absPath in E. inversion E as [E'].
  assert (Hseg : forall n, validatePackageName n = Ok tt ->
             Forall noSlash ((ds ++ [lit "temp"]) ++ [sanitizeName n])).
  { intros n Hn. eapply Forall_impl; [apply PathFacts.plain_noSlash|].
    apply Forall_app. split.
    - apply Forall_app. split; [exact Hds|].
      constructor; [exact plain_temp | constructor].
    - constructor; [apply sanitizeName_plain; exact Hn | constructor]. }
  apply ListingFacts.joinSlash_injective in E';
    [ | apply Hseg; assumption | apply Hseg; assumption
      | intros N; apply app_eq_nil in N as [_ N]; discriminate N
      | intros N; apply app_eq_nil in N as [_ N]; discriminate N ].
  apply app_inv_head in E'. inversion E' as [Es].
  apply sanitizeName_injective; assumption.
Qed.

Lemma underscore_free_names_have_own_directory_witness :
  lit "@babel/core" = lit "@babel/core".
Proof.
  apply (@underscore_free_names_have_own_directory silentWorld
           [lit "app"; lit "build"] (lit "@babel/core") (lit "@babel/core")).
  - reflexivity.
  - repeat (apply Forall_cons || apply Forall_nil); apply plain_decide;
      reflexivity.
  - reflexivity.
  - reflexivity.
  - unfold UNDERSCORE. simpl. intros H.
    repeat (destruct H as [H|H]; [discriminate H|]). exact H.
  - unfold UNDERSCORE. simpl. intros H.
    repeat (destruct H as [H|H]; [discriminate H|]). exact H.
  - reflexivity.
Defined.

(** X18: with ['_'] in a name the directory can be shared: the accepted
    names [@x_y/z] and [@x/y_z] are different and are extracted into the
    same directory, whatever [x], [y] and [z] are. *)
Theorem underscore_names_share_directory (w : World) (x y z : jsstr) :
  let n1 := lit "@" ++ x ++ lit "_" ++ y ++ lit "/" ++ z in
  let n2 := lit "@" ++ x ++ lit "/" ++ y ++ lit "_" ++ z in
  validatePackageName n1 = Ok tt ->
  validatePackageName n2 = Ok tt ->
  n1 <> n2
  /\ extractPathOf (tempDir w) n1 = extractPathOf (tempDir w) n2.
Proof.
  intros n1 n2 _ _. split.
  - unfold n1, n2. intros E. apply app_inv_head in E.
    apply app_inv_head in E. discriminate E.
  - unfold extractPathOf. f_equal. unfold n1, n2.
    rewrite (sanitizeName_map (lit "@" ++ x ++ lit "_" ++ y ++ lit "/" ++ z)).
    rewrite (sanitizeName_map (lit "@" ++ x ++ lit "/" ++ y ++ lit "_" ++ z)).
    rewrite !map_app. reflexivity.
Qed.

Lemma underscore_names_share_directory_witness :
  lit "@a_b/c" <> lit "@a/b_c"
  /\ extractPathOf (tempDir silentWorld) (lit "@a_b/c")
     = extractPathOf (tempDir silentWorld) (lit "@a/b_c").
Proof.
  apply (@underscore_names_share_directory silentWorld (lit "a") (lit "b")
           (lit "c")); reflexivity.
Defined.

(* ================================================================= *)
(** ** What the tools touch *)


Lemma fetchPackageInfo_events (w : World) (name : jsstr)
  (version : option jsstr) (ev : Event) :
  In ev (trace (fetchPackageInfo w name version)) -> pathOf ev = None.
Proof.
  rewrite fetchPackageInfo_trace.
  destruct (packageUrl name version); simpl; [|contradiction].
  intros [<-|[]]. reflexivity.
Qed.

(** The calls of a walk stay below the directory walked. *)
Module CallFacts.

Lemma visitCalls_dir skip reads cur item r es :
  visitCalls skip reads cur item (Dir r es)
  = FsStat (Path.join cur item)
    :: (if negb (skip item) then
          FsReaddir (Path.join cur item)
          :: (if r then walkCalls skip reads (Path.join cur item) es else [])
        else []).
Proof.
  cbn [visitCalls]. f_equal. destruct (negb (skip item)); [|reflexivity].
  f_equal. destruct r; [|reflexivity]. unfold walkCalls.
  induction es as [|[i c] es IH]; [reflexivity|].
  cbn [flat_map fst snd]. rewrite <- IH. reflexivity.
Qed.

(** A call on the directory with segments [rs] or on an entry below it. *)
Definition below (rs : list jsstr) (ev : Event) : Prop :=
  exists segs, Forall plain segs /\ pathOf ev = Some (absPath (rs ++ segs)).

Lemma below_here (rs : list jsstr) (ev : Event) :
  pathOf ev = Some (absPath rs) -> below rs ev.
Proof. intros H. exists []. rewrite app_nil_r. auto. Qed.

Lemma below_up (rs : list jsstr) (x : jsstr) (ev : Event) :
  plain x -> below (rs ++ [x]) ev -> below rs ev.
Proof.
  intros Hx [segs [Hs E]]. exists (x :: segs). split; [constructor; auto|].
  rewrite E, <- app_assoc. reflexivity.
Qed.

Lemma visitCalls_below skip reads (n : node) :
  wfNode n ->
  forall cur item,
    Forall plain cur -> plain item ->
    Forall (below (cur ++ [item])) (visitCalls skip reads (absPath cur) item n).
Proof.
  induction n as [r c|r es IH| |] using node_nested_ind;
    intros Hwf cur item Hcur Hitem.
  - cbn [visitCalls]. rewrite PathFacts.join_abs_plain by assumption.
    constructor; [apply below_here; reflexivity|].
    destruct (reads item); [|constructor].
    constructor; [apply below_here; reflexivity | constructor].
  - rewrite visitCalls_dir. rewrite PathFacts.join_abs_plain by assumption.
    constructor; [apply below_here; reflexivity|].
    destruct (negb (skip item)); [|constructor].
    constructor; [apply below_here; reflexivity|].
    destruct r; [|constructor].
    unfold walkCalls. apply Forall_flat_map.
    inversion Hwf as [| | |r' es' Hes _]; subst.
    rewrite Forall_forall in IH, Hes |- *. intros e He.
    destruct (Hes e He) as [Hname Hsub].
    assert (Hcur' : Forall plain (cur ++ [item])).
    { apply Forall_app; split;
        [assumption | constructor; [assumption | constructor]]. }
    eapply Forall_impl; [|exact (IH e He Hsub (cur ++ [item]) (fst e) Hcur' Hname)].
    intros ev. apply below_up. exact Hname.
  - cbn [visitCalls]. rewrite PathFacts.join_abs_plain by assumption.
    constructor; [apply below_here; reflexivity | constructor].
  - cbn [visitCalls]. rewrite PathFacts.join_abs_plain by assumption.
    constructor; [apply below_here; reflexivity | constructor].
Qed.

Lemma walkFrom_below skip reads (cwd : jsstr) (disk : node)
  (rs : list jsstr) :
  Forall plain rs ->
  (forall es, Fs.lookup cwd disk (absPath rs) = Some (Dir true es) ->
              wfNode (Dir true es)) ->
  Forall (below rs) (walkFrom skip reads cwd disk (absPath rs)).
Proof.
  intros Hrs Hwf. unfold walkFrom.
  constructor; [apply below_here; reflexivity|].
  destruct (Fs.lookup cwd disk (absPath rs)) as [[r c|[|] es| |]|];
    try constructor.
  specialize (Hwf es eq_refl).
  inversion Hwf as [| | |r' es' Hes _]; subst.
  unfold walkCalls. apply Forall_flat_map.
  rewrite Forall_forall in Hes |- *. intros e He.
  destruct (Hes e He) as [Hname Hsub].
  eapply Forall_impl;
    [|exact (@visitCalls_below skip reads (snd e) Hsub rs (fst e) Hrs Hname)].
  intros ev. apply below_up. exact Hname.
Qed.

Lemma below_insideRoot (cwd : jsstr) (rs : list jsstr) (ev : Event)
  (p : jsstr) :
  Forall plain rs -> below rs ev -> pathOf ev = Some p ->
  insideRoot cwd (absPath rs) p.
Proof.
  intros Hrs [segs [Hs E]] Hp. rewrite Hp in E. inversion E; subst p.
  exists segs. rewrite !ListingFacts.resolvedSegs_absPath;
    [reflexivity | exact Hrs | apply Forall_app; split; assumption].
Qed.

Lemma assocNode_Some (es : list (jsstr * node)) (f : jsstr) (n : node) :
  assocNode f es = Some n -> In (f, n) es.
Proof.
  induction es as [|[i c] es IH]; [discriminate|]. simpl.
  destruct (eqb f i) eqn:E.
  - intros H. inversion H; subst. apply eqb_eq in E. subst. left. reflexivity.
  - intros H. right. apply IH. exact H.
Qed.

(** A tree as a file system holds it has only such subtrees. *)
Lemma lookupSegs_wf (segs : list jsstr) :
  forall n m, wfNode n -> lookupSegs n segs = Some m -> wfNode m.
Proof.
  induction segs as [|x segs IH]; intros n m Hwf H.
  - inversion H; subst. exact Hwf.
  - destruct n as [r c|r es| |]; try discriminate H. simpl in H.
    destruct (assocNode x es) as [c|] eqn:Ea; [|discriminate H].
    apply assocNode_Some in Ea.
    inversion Hwf as [| | |r' es' Hes _]; subst.
    rewrite Forall_forall in Hes. destruct (Hes _ Ea) as [_ Hc].
    eapply IH; eassumption.
Qed.

End CallFacts.

(** The trees that downloads leave are as a file system holds them. *)
Definition properDownloads (w : World) : Prop :=
  forall url dir disk, download w url dir = Extracted disk -> wfNode disk.

(** X19: a call of [get_npm_package_code] or [list_package_files] for an
    accepted package name touches the file system only at the extraction
    directory of that package or below it: every path it checks, removes,
    creates, lists, stats or reads, the calls of the two walks included,
    resolves to the directory or into it. *)
Theorem tool_fs_calls_confined (w : World) (ds : list jsstr) (name : jsstr)
  (version filePath : option jsstr) (ev : Event) (p : jsstr) :
  Path.isAbsolute (cwd w) = true ->
  dirname w = absPath ds ->
  Forall plain ds ->
  validatePackageName name = Ok tt ->
  properDownloads w ->
  In ev (trace (getNpmPackageCode w
                  {| gc_packageName := Some name; gc_version := version;
                     gc_filePath := filePath |}))
  \/ In ev (trace (listPackageFiles w
                     {| lf_packageName := Some name; lf_version := version |})) ->
  pathOf ev = Some p ->
  insideRoot (cwd w) (extractPathOf (tempDir w) name) p.
Proof.
  intros Hcwd Hdir Hds Hname Hproper Hev Hp.
  assert (Hself : insideRoot (cwd w) (extractPathOf (tempDir w) name)
                    (extractPathOf (tempDir w) name)).
  { exists []. rewrite app_nil_r. reflexivity. }
  pose proof (@extractPathOf_segments w ds name Hdir Hds Hname) as Eroot.
  set (rs := (ds ++ [lit "temp"]) ++ [sanitizeName name]) in *.
  assert (Hrs : Forall plain rs).
  { unfold rs. apply Forall_app. split.
    - apply Forall_app. split; [exact Hds|].
      constructor; [exact plain_temp | constructor].
    - constructor; [apply sanitizeName_plain; exact Hname | constructor]. }
  assert (Hne : extractPathOf (tempDir w) name <> []).
  { rewrite Eroot. discriminate. }
  assert (Hwalks : forall url skip reads (extracted : jsstr * node),
             outcome (downloadAndExtract w url name) = Ok extracted ->
             In ev (walkFrom skip reads (cwd w) (snd extracted) (fst extracted)) ->
             insideRoot (cwd w) (extractPathOf (tempDir w) name) p).
  { intros url skip reads extracted Hx Hin.
    destruct (downloadAndExtract_ok _ _ _ Hx) as [Hfst [Hdl _]].
    rewrite Hfst, Eroot in Hin. rewrite Eroot.
    pose proof (Hproper _ _ _ Hdl) as Hwf.
    assert (Hb : Forall (CallFacts.below rs)
                   (walkFrom skip reads (cwd w) (snd extracted) (absPath rs))).
    { apply CallFacts.walkFrom_below; [exact Hrs|].
      intros es Hl. unfold Fs.lookup in Hl.
      eapply CallFacts.lookupSegs_wf; eassumption. }
    rewrite Forall_forall in Hb.
    eapply CallFacts.below_insideRoot; [exact Hrs | apply Hb; exact Hin | exact Hp]. }
  unfold getNpmPackageCode, listPackageFiles in Hev.
  simpl gc_packageName in Hev. simpl lf_packageName in Hev.
  simpl gc_version in Hev. simpl lf_version in Hev. simpl gc_filePath in Hev.
  destruct name as [|c name]; [discriminate Hname|].
  rewrite Hname in Hev. unfold liftResult in Hev. rewrite !bind_nil_ok in Hev.
  rewrite !tryCatch_rethrow_trace in Hev.
  destruct Hev as [Hev|Hev].
  - apply bind_trace_In in Hev as [Hev|[info [_ Hev]]].
    { apply fetchPackageInfo_events in Hev. congruence. }
    apply bind_trace_In in Hev as [Hev|[extracted [Hx Hev]]].
    { rewrite (@downloadAndExtract_events w _ _ ev p Hev Hp). exact Hself. }
    destruct (truthyOpt filePath).
    + rewrite (downloadAndExtract_path _ _ _ Hx) in Hev.
      destruct (@getSpecificFile_events _ _ _ _ ev Hcwd Hne Hev) as [q [Eq Hq]].
      rewrite Hp in Eq. inversion Eq; subst q. exact Hq.
    + unfold getAllCodeFiles, emitAll, bind, ret in Hev. simpl in Hev.
      rewrite app_nil_r in Hev.
      exact (Hwalks _ _ _ extracted Hx Hev).
  - apply bind_trace_In in Hev as [Hev|[info [_ Hev]]].
    { apply fetchPackageInfo_events in Hev. congruence. }
    apply bind_trace_In in Hev as [Hev|[extracted [Hx Hev]]].
    { rewrite (@downloadAndExtract_events w _ _ ev p Hev Hp). exact Hself. }
    unfold emitAll, bind, ret in Hev. simpl in Hev.
    rewrite app_nil_r in Hev.
    exact (Hwalks _ _ _ extracted Hx Hev).
Qed.

Lemma sampleDisk_wf : wfNode sampleDisk.
Proof.
  unfold sampleDisk.
  repeat (first
    [ exact samplePackage_wf
    | apply wf_dir
    | apply Forall_cons
    | apply Forall_nil
    | split
    | apply plain_decide; reflexivity
    | apply NoDup_nil
    | apply NoDup_cons; [simpl; intros H;
        repeat (destruct H as [H|H]; [discriminate|]); exact H|] ]).
Qed.

Lemma tool_fs_calls_confined_witness :
  insideRoot (cwd servingWorld)
    (extractPathOf (tempDir servingWorld) (lit "lodash"))
    (lit "/app/build/temp/lodash/lib/a.TS").
Proof.
  apply (@tool_fs_calls_confined servingWorld [lit "app"; lit "build"]
           (lit "lodash") None None
           (FsReadFile (lit "/app/build/temp/lodash/lib/a.TS"))
           (lit "/app/build/temp/lodash/lib/a.TS")).
  - reflexivity.
  - reflexivity.
  - repeat (apply Forall_cons || apply Forall_nil); apply plain_decide;
      reflexivity.
  - reflexivity.
  - intros url dir disk H. inversion H. exact sampleDisk_wf.
  - left. vm_compute. auto 20.
  - reflexivity.
Defined.


(** A URL of the registry. *)
Definition registryUrl (u : jsstr) : Prop :=
  startsWith u (lit "https://registry.npmjs.org/") = true.

Lemma registryUrl_app (r : jsstr) :
  registryUrl (lit "https://registry.npmjs.org/" ++ r).
Proof. apply startsWith_spec. exists r. reflexivity. Qed.

(** X20: [search_npm_packages] and [get_package_info] never touch the file
    system and never download a tarball: each sends at most one request,
    and that request goes to the registry. *)
Theorem metadata_tools_only_query_registry (w : World)
  (details : PackageInfo -> PackageDetails) (stringify : InfoSummary -> jsstr)
  (sargs : SearchPackagesArgs) (iargs : ListPackageFilesArgs) :
  (trace (searchNpmPackages w sargs) = []
   \/ exists u, registryUrl u
                /\ trace (searchNpmPackages w sargs) = [HttpGet u])
  /\ (trace (getPackageInfo w details stringify iargs) = []
      \/ exists u, registryUrl u
                   /\ trace (getPackageInfo w details stringify iargs)
                      = [HttpGet u]).
Proof.
  split.
  - unfold searchNpmPackages.
    destruct (sa_query sargs) as [q|]; [|left; reflexivity].
    destruct (negb (truthy (trim q))); [left; reflexivity|].
    destruct (JsNumber.gtb _ 250); [left; reflexivity|].
    rewrite tryCatch_rethrow_trace.
    rewrite bind_trace_pure.
    + rewrite performPackageSearch_trace.
      destruct (Uri.encodeURIComponent (trim q)) as [e|]; [|left; reflexivity].
      right. eexists. split; [|reflexivity].
      unfold searchUrl.
      change (lit "https://registry.npmjs.org/-/v1/search?text=")
        with (lit "https://registry.npmjs.org/" ++ lit "-/v1/search?text=").
      rewrite <- app_assoc. apply registryUrl_app.
    + intros r. destruct (formatSearchResults w q _ r); reflexivity.
  - unfold getPackageInfo.
    destruct (lf_packageName iargs) as [[|c name]|]; try (left; reflexivity).
    destruct (validatePackageName (c :: name)) as [[]|e]; [|left; reflexivity].
    unfold liftResult. rewrite bind_nil_ok.
    rewrite tryCatch_rethrow_trace.
    rewrite bind_trace_pure by reflexivity.
    rewrite fetchPackageInfo_trace. unfold packageUrl.
    destruct (Uri.encodeURIComponent (c :: name)) as [n|]; [|left; reflexivity].
    destruct (truthyOpt (lf_version iargs)).
    + destruct (Uri.encodeURIComponent _) as [v|]; [|left; reflexivity].
      right. eexists. split; [|reflexivity]. apply registryUrl_app.
    + right. eexists. split; [|reflexivity]. apply registryUrl_app.
Qed.

(** A field of the summary: the package's own value when it is a
    non-empty string, the placeholder when it is missing or empty. *)
Definition ownOrPlaceholder (own : option jsstr) (placeholder value : jsstr)
  : Prop :=
  (own = Some value /\ value <> [])
  \/ (value = placeholder /\ (own = None \/ own = Some [])).

Lemma descriptionOr_cases (own : option jsstr) (placeholder : jsstr) :
  ownOrPlaceholder own placeholder (descriptionOr own placeholder).
Proof.
  destruct own as [[|c v]|]; unfold ownOrPlaceholder, descriptionOr; simpl.
  - right. auto.
  - left. split; [reflexivity | discriminate].
  - right. auto.
Qed.

(** X21: when [get_package_info] returns, its one text is
    ["Package Information:"], a line break and the printed summary of the
    metadata that [fetchPackageInfo] returned.  In that summary the name and
    the version are those of the registry's answer, the tarball URL is not
    empty, and the description, entry point, types, license, homepage and
    repository are each the package's own non-empty string or else the
    placeholder.  The author is the package's own author, kept as it is
    (an author object also when its name is empty), unless it is missing or
    the empty string, and then it is the placeholder. *)
Theorem summary_has_no_empty_field (w : World)
  (details : PackageInfo -> PackageDetails) (stringify : InfoSummary -> jsstr)
  (name : jsstr) (version : option jsstr) (r : ToolResult) :
  outcome (getPackageInfo w details stringify
             {| lf_packageName := Some name; lf_version := version |}) = Ok r ->
  exists packageInfo,
    outcome (fetchPackageInfo w name version) = Ok packageInfo
    /\ let d := details packageInfo in
       let info := summarize packageInfo d in
       content r = [lit "Package Information:" ++ NL ++ stringify info]
       /\ is_name info = pi_name packageInfo
       /\ is_version info = pi_version packageInfo
       /\ truthy (is_tarball info) = true
       /\ ownOrPlaceholder (pi_description packageInfo)
            (lit "No description available") (is_description info)
       /\ ownOrPlaceholder (pd_main d) (lit "Not specified") (is_main info)
       /\ ownOrPlaceholder (pd_types d) (lit "Not specified") (is_types info)
       /\ ownOrPlaceholder (pd_license d) (lit "Not specified")
            (is_license info)
       /\ ownOrPlaceholder (pd_homepage d) (lit "Not specified")
            (is_homepage info)
       /\ ownOrPlaceholder (pd_repositoryUrl d) (lit "Not specified")
            (is_repository info)
       /\ ((pd_author d = Some (is_author info)
            /\ is_author info <> AuthorName [])
           \/ (is_author info = AuthorName (lit "Not specified")
               /\ (pd_author d = None \/ pd_author d = Some (AuthorName [])))).
Proof.
  unfold getPackageInfo. simpl lf_packageName. simpl lf_version.
  destruct name as [|c name]; [discriminate|].
  destruct (validatePackageName (c :: name)) as [[]|e]; [|discriminate].
  unfold liftResult. rewrite bind_nil_ok, tryCatch_rethrow_outcome.
  assert (Htar : forall info,
             outcome (fetchPackageInfo w (c :: name) version) = Ok info ->
             truthy (tarballOf info) = true).
  { unfold fetchPackageInfo, tarballOf.
    destruct (packageUrl (c :: name) version) as [u|]; [|discriminate].
    destruct (registry w u) as [d| |]; try discriminate.
    destruct (parsePackageInfo w d) as [info'|e]; [|discriminate].
    destruct (pi_dist info') as [dist|] eqn:Ed; [|discriminate].
    destruct (truthy (tarball dist)) eqn:Et; [|discriminate].
    simpl. intros info H. inversion H; subst info'. rewrite Ed. exact Et. }
  destruct (fetchPackageInfo w (c :: name) version) as [t [packageInfo|e]];
    [|discriminate].
  rewrite bind_ok_outcome. simpl. intros H. inversion H; subst r. clear H.
  exists packageInfo. split; [reflexivity|].
  split; [reflexivity|]. split; [reflexivity|]. split; [reflexivity|].
  split; [apply Htar; reflexivity|].
  repeat (split; [apply descriptionOr_cases|]).
  destruct (pd_author (details packageInfo)) as [[[|a n]|n e]|]; simpl.
  - right. auto.
  - left. split; [reflexivity | discriminate].
  - left. split; [reflexivity | discriminate].
  - right. auto.
Qed.

Lemma summary_has_no_empty_field_witness :
  exists packageInfo,
    outcome (fetchPackageInfo servingWorld (lit "lodash") None) = Ok packageInfo
    /\ let d := {| pd_main := None; pd_types := Some [];
                   pd_keywords := None;
                   pd_author := Some (AuthorObject [] None);
                   pd_license := Some (lit "MIT");
                   pd_homepage := None; pd_repositoryUrl := None;
                   pd_dependencies := None; pd_devDependencies := None |} in
       let info := summarize packageInfo d in
       is_main info = lit "Not specified"
       /\ is_types info = lit "Not specified"
       /\ is_license info = lit "MIT"
       /\ is_author info = AuthorObject [] None.
Proof.
  destruct (@summary_has_no_empty_field servingWorld
              (fun _ => {| pd_main := None; pd_types := Some [];
                           pd_keywords := None;
                           pd_author := Some (AuthorObject [] None);
                           pd_license := Some (lit "MIT");
                           pd_homepage := None; pd_repositoryUrl := None;
                           pd_dependencies := None;
                           pd_devDependencies := None |})
              (fun info => is_name info) (lit "lodash") None
              {| content := [lit "Package Information:" ++ NL ++ lit "lodash"] |}
              eq_refl) as [packageInfo [Hf _]].
  exists packageInfo. split; [exact Hf|]. repeat split.
Defined.

(* ================================================================= *)
(** ** A successful call, step by step *)


(** X22: when [get_npm_package_code] returns, it has done these steps in
    this order: one metadata request for the package and version; a check of
    the extraction directory, its removal when it existed, and its creation;
    one request for the tarball URL that the registry's answer named; and
    then the calls of [getSpecificFile] on the extracted tree when a file was
    asked for, and the calls of the walk of [findCodeFiles] over the
    extraction directory otherwise. *)
Theorem successful_call_steps (w : World) (name : jsstr)
  (version filePath : option jsstr) (r : ToolResult) :
  outcome (getNpmPackageCode w
             {| gc_packageName := Some name; gc_version := version;
                gc_filePath := filePath |}) = Ok r ->
  let dir := extractPathOf (tempDir w) name in
  exists url info disk,
    validatePackageName name = Ok tt
    /\ packageUrl name version = Some url
    /\ outcome (fetchPackageInfo w name version) = Ok info
    /\ truthy (tarballOf info) = true
    /\ download w (tarballOf info) dir = Extracted disk
    /\ trace (getNpmPackageCode w
                {| gc_packageName := Some name; gc_version := version;
                   gc_filePath := filePath |})
       = [HttpGet url; FsExists dir]
         ++ (if Fs.existsSync (cwd w) (diskBefore w) dir then [FsRm dir] else [])
         ++ [FsMkdir dir; HttpGet (tarballOf info)]
         ++ (if truthyOpt filePath
             then trace (getSpecificFile (cwd w) disk dir
                           (match filePath with Some p => p | None => [] end))
             else findCodeFilesCalls (cwd w) disk dir).
Proof.
  unfold getNpmPackageCode. simpl gc_packageName. simpl gc_version.
  simpl gc_filePath.
  destruct name as [|c name]; [discriminate|].
  destruct (validatePackageName (c :: name)) as [[]|e] eqn:Hv; [|discriminate].
  unfold liftResult. rewrite bind_nil_ok.
  rewrite tryCatch_rethrow_outcome, tryCatch_rethrow_trace.
  pose proof (fetchPackageInfo_trace w (c :: name) version) as Ht.
  assert (Htar : forall info,
             outcome (fetchPackageInfo w (c :: name) version) = Ok info ->
             truthy (tarballOf info) = true
             /\ exists url, packageUrl (c :: name) version = Some url).
  { unfold fetchPackageInfo, tarballOf.
    destruct (packageUrl (c :: name) version) as [u|]; [|discriminate].
    destruct (registry w u) as [d| |]; try discriminate.
    destruct (parsePackageInfo w d) as [info'|e]; [|discriminate].
    destruct (pi_dist info') as [dist|] eqn:Ed; [|discriminate].
    destruct (truthy (tarball dist)) eqn:Et; [|discriminate].
    simpl. intros info H. inversion H; subst info'. rewrite Ed. eauto. }
  destruct (fetchPackageInfo w (c :: name) version) as [t1 [info|e]];
    [|discriminate].
  simpl in Ht. destruct (Htar info eq_refl) as [Htb [url Hurl]].
  rewrite Hurl in Ht.
  subst t1. intros H. set (dir := extractPathOf (tempDir w) (c :: name)).
  pose proof (@downloadAndExtract_ok w (tarballOf info) (c :: name)) as Hd.
  rewrite bind_ok_trace. rewrite bind_ok_outcome in H.
  destruct (downloadAndExtract w (tarballOf info) (c :: name))
    as [t2 [x|e]]; [|discriminate H].
  destruct (Hd x eq_refl) as [Hfst [Hdl [_ Htr]]]. simpl in Htr. subst t2.
  rewrite bind_ok_trace.
  exists url, info, (snd x).
  split; [reflexivity|]. split; [exact Hurl|]. split; [reflexivity|].
  split; [exact Htb|]. split; [exact Hdl|].
  rewrite Hfst. unfold dir. simpl app.
  destruct (Fs.existsSync (cwd w) (diskBefore w)
              (extractPathOf (tempDir w) (c :: name))); simpl app;
    destruct (truthyOpt filePath); try reflexivity;
    unfold getAllCodeFiles, emitAll, bind, ret; simpl;
    rewrite app_nil_r; reflexivity.
Qed.

Lemma successful_call_steps_witness :
  exists url info disk,
    validatePackageName (lit "lodash") = Ok tt
    /\ packageUrl (lit "lodash") None = Some url
    /\ outcome (fetchPackageInfo servingWorld (lit "lodash") None) = Ok info
    /\ truthy (tarballOf info) = true
    /\ download servingWorld (tarballOf info)
         (extractPathOf (tempDir servingWorld) (lit "lodash")) = Extracted disk
    /\ trace (getNpmPackageCode servingWorld
                {| gc_packageName := Some (lit "lodash"); gc_version := None;
                   gc_filePath := None |})
       = [HttpGet url;
          FsExists (extractPathOf (tempDir servingWorld) (lit "lodash"))]
         ++ (if Fs.existsSync (cwd servingWorld) (diskBefore servingWorld)
                  (extractPathOf (tempDir servingWorld) (lit "lodash"))
             then [FsRm (extractPathOf (tempDir servingWorld) (lit "lodash"))]
             else [])
         ++ [FsMkdir (extractPathOf (tempDir servingWorld) (lit "lodash"));
             HttpGet (tarballOf info)]
         ++ (if truthyOpt None
             then trace (getSpecificFile (cwd servingWorld) disk
                           (extractPathOf (tempDir servingWorld) (lit "lodash"))
                           [])
             else findCodeFilesCalls (cwd servingWorld) disk
                    (extractPathOf (tempDir servingWorld) (lit "lodash"))).
Proof.
  apply (@successful_call_steps servingWorld (lit "lodash") None None
           {| content :=
                [bundleText (lit "/app") (lit "/app/build/temp/lodash")
                   sampleInfo
                   (findCodeFiles (lit "/app") sampleDisk
                      (lit "/app/build/temp/lodash"))] |}).
  vm_compute. reflexivity.
Defined.

(* ================================================================= *)
(** ** Requests that pass the check *)

(** X23: a request that carries the token is never answered [401]: it is
    answered exactly as if no token were configured. *)
Theorem request_with_token_is_routed (tok : jsstr) (req : IncomingMessage) :
  truthy tok = true ->
  authorization req = Some (lit "Bearer " ++ tok)
  \/ (authorization req = Some tok /\ startsWith tok (lit "Bearer ") = false) ->
  dispatch (authTokenOfEnv (Some tok)) req = dispatch None req
  /\ dispatch (authTokenOfEnv (Some tok)) req <> Unauthorized.
Proof.
  intros Htok Hh.
  assert (Hv : isAuthValid (Some tok) (authorization req) = true).
  { unfold isAuthValid. simpl truthyOpt at 1. rewrite Htok. simpl negb.
    cbv iota. destruct Hh as [-> | [-> Hs]].
    - simpl truthyOpt. simpl negb. cbv iota.
      replace (startsWith (lit "Bearer " ++ tok) (lit "Bearer ")) with true
        by (symmetry; apply startsWith_spec; exists tok; reflexivity).
      change (skipn 7 (lit "Bearer " ++ tok)) with tok. apply eqb_refl.
    - simpl truthyOpt. rewrite Htok. simpl negb. cbv iota. rewrite Hs.
      apply eqb_refl. }
  assert (E : dispatch (authTokenOfEnv (Some tok)) req = dispatch None req).
  { unfold dispatch, authTokenOfEnv. simpl truthyOpt. rewrite Htok.
    simpl truthyOpt. rewrite Htok, Hv. reflexivity. }
  split; [exact E|]. rewrite E. unfold dispatch. simpl.
  destruct (eqb (method req) (lit "OPTIONS")); [discriminate|].
  destruct (url req) as [u|].
  - destruct (eqb u (lit "/health")); [discriminate|].
    destruct (startsWith u (lit "/mcp")); discriminate.
  - discriminate.
Qed.

Lemma request_with_token_is_routed_witness :
  let req := {| method := lit "POST"; url := Some (lit "/mcp");
                authorization := Some (lit "Bearer secret") |} in
  dispatch (authTokenOfEnv (Some (lit "secret"))) req = dispatch None req
  /\ dispatch (authTokenOfEnv (Some (lit "secret"))) req <> Unauthorized.
Proof.
  apply (@request_with_token_is_routed (lit "secret")
           {| method := lit "POST"; url := Some (lit "/mcp");
              authorization := Some (lit "Bearer secret") |}).
  - reflexivity.
  - left. reflexivity.
Defined.
